(** * lmkd: the userspace low-memory killer daemon

    A shallow embedding of the parts of [lmkd.cpp] that carry the daemon's
    policy: the process registry (pid hash and per-score lists), the kill
    counters, the control-socket commands PROCPRIO / PROCS_PRIO /
    PROCREMOVE / PROCPURGE / GETKILLCNT / TARGET, victim selection and the
    kill-and-wait protocol, and the PSI decision engine [__mp_event_psi]
    together with the polling bookkeeping of [call_handler].

    Conventions.
    - C integers are [Z].  Signed arithmetic is modelled where C defines
      it; [/] on signed operands is [Z.quot] (truncation toward zero) and
      [>>] is [Z.shiftr].  The two unsigned kill counters wrap.
    - Every [struct proc] lives in a store indexed by the address that
      [calloc] returned for it; the pid hash chains and the per-score
      lists hold addresses, as the intrusive links of the source do.
    - The operating system is observed through an oracle record [os],
      fixed for the duration of one handler invocation.
    - System calls with an outside effect are recorded, newest first, in
      the [trace] component of the daemon state. *)

From stdpp Require Import gmap strings list fin_maps pretty.

Open Scope Z_scope.

(** ** Constants of the headers [lmkd.h], [statslog.h], [cutils/properties.h] *)

(** The headers are not part of the sources at hand; the constants the code
    takes from them are the fields of this class. *)
Class HeaderConstants := {
  MAX_TARGETS : Z;            (* size of lowmem_adj / lowmem_minfree *)
  PROPERTY_VALUE_MAX : Z;     (* size of the minfree property buffer *)
  PROC_TYPE_FIRST : Z;
  PROC_TYPE_APP : Z;
  PROC_TYPE_COUNT : Z;
  VENDOR_KILL_REASON_END : Z;
}.

(** ** Constants defined in lmkd.cpp *)

Definition PERCEPTIBLE_APP_ADJ : Z := 200.
Definition PREVIOUS_APP_ADJ : Z := 700.
Definition EIGHT_MEGA : Z := Z.shiftl 1 23.
Definition TARGET_UPDATE_MIN_INTERVAL_MS : Z := 1000.
Definition THRASHING_RESET_INTERVAL_MS : Z := 1000.
Definition MS_PER_SEC : Z := 1000.
Definition NS_PER_MS : Z := 1000000.
Definition SYSTEM_ADJ : Z := -900.
Definition PSI_WINDOW_SIZE_MS : Z := 1000.
Definition PSI_POLL_PERIOD_SHORT_MS : Z := 10.
Definition PSI_POLL_PERIOD_LONG_MS : Z := 100.
Definition OOM_SCORE_ADJ_MIN : Z := -1000.
Definition OOM_SCORE_ADJ_MAX : Z := 1000.
Definition PIDHASH_SZ : Z := 1024.
Definition MAX_DISTINCT_OOM_ADJ : Z := 32.
Definition KILLCNT_INVALID_IDX : Z := 255.

Definition pid_hashfn (x : Z) : Z :=
  Z.land (Z.lxor (Z.shiftr x 8) x) (PIDHASH_SZ - 1).

Definition ADJTOSLOT (adj : Z) : Z := adj + - OOM_SCORE_ADJ_MIN.
Definition ADJTOSLOT_COUNT : Z := ADJTOSLOT OOM_SCORE_ADJ_MAX + 1.

(** ** Time *)

Record timespec := { tv_sec : Z; tv_nsec : Z }.

Definition get_time_diff_ms (from to : timespec) : Z :=
  (tv_sec to - tv_sec from) * MS_PER_SEC +
  Z.quot (tv_nsec to - tv_nsec from) NS_PER_MS.

Definition timespec_zero : timespec := {| tv_sec := 0; tv_nsec := 0 |}.

Definition timespec_is_set (t : timespec) : bool :=
  negb (tv_sec t =? 0) || negb (tv_nsec t =? 0).

(** ** Enumerations *)

Inductive vmpressure_level :=
  | VMPRESS_LEVEL_LOW | VMPRESS_LEVEL_MEDIUM | VMPRESS_LEVEL_CRITICAL.

Definition level_rank (l : vmpressure_level) : Z :=
  match l with
  | VMPRESS_LEVEL_LOW => 0
  | VMPRESS_LEVEL_MEDIUM => 1
  | VMPRESS_LEVEL_CRITICAL => 2
  end.

Inductive zone_watermark := WMARK_MIN | WMARK_LOW | WMARK_HIGH | WMARK_NONE.

Definition wmark_rank (w : zone_watermark) : Z :=
  match w with WMARK_MIN => 0 | WMARK_LOW => 1 | WMARK_HIGH => 2 | WMARK_NONE => 3 end.

Inductive polling_update :=
  | POLLING_DO_NOT_CHANGE | POLLING_START | POLLING_PAUSE | POLLING_RESUME.

Inductive reclaim_state := NO_RECLAIM | KSWAPD_RECLAIM | DIRECT_RECLAIM.

Inductive event_source := PSI | VENDOR.

(** [enum kill_reasons] of statslog.h; the vendor reasons are
    [VENDOR_KILL_REASON_BASE + code]. *)
Inductive kill_reasons :=
  | NONE
  | PRESSURE_AFTER_KILL
  | NOT_RESPONDING
  | LOW_SWAP_AND_THRASHING
  | LOW_MEM_AND_SWAP
  | LOW_MEM_AND_THRASHING
  | DIRECT_RECL_AND_THRASHING
  | LOW_MEM_AND_SWAP_UTIL
  | LOW_FILECACHE_AFTER_THRASHING
  | LOW_MEM
  | DIRECT_RECL_STUCK
  | VENDOR_KILL (code : Z).

Global Instance kill_reasons_eq_dec : EqDecision kill_reasons.
Proof. solve_decision. Defined.

Global Instance vmpressure_level_eq_dec : EqDecision vmpressure_level.
Proof. solve_decision. Defined.

Global Instance zone_watermark_eq_dec : EqDecision zone_watermark.
Proof. solve_decision. Defined.

Global Instance reclaim_state_eq_dec : EqDecision reclaim_state.
Proof. solve_decision. Defined.

Global Instance event_source_eq_dec : EqDecision event_source.
Proof. solve_decision. Defined.

(** ** Outside effects *)

Inductive event :=
  | EvClose (fd : Z)                          (* close(fd) *)
  | EvEpollAdd (fd : Z)                       (* epoll_ctl(EPOLL_CTL_ADD) *)
  | EvEpollDel (fd : Z)                       (* epoll_ctl(EPOLL_CTL_DEL) *)
  | EvReaperKill (pidfd pid uid : Z)          (* reaper.kill *)
  | EvWriteOomScoreAdj (pid val : Z)          (* /proc/<pid>/oom_score_adj *)
  | EvWriteSoftLimit (path : string) (bytes : Z)
  | EvStoreTaskname (pid : Z)                 (* stats_store_taskname *)
  | EvNotifyKill (pid uid rss_kb : Z)         (* LMK_PROCKILL to subscribers *)
  | EvPropertySet (name value : string)       (* property_set *)
  | EvWriteKernelParam (path value : string). (* lowmemorykiller parameters *)

(** ** The process registry *)

Definition addr := nat.

Record proc := {
  pid : Z;
  pidfd : Z;
  uid : Z;
  oomadj : Z;
  reg_pid : Z;
  valid : bool;
}.

Record registry := {
  procs : gmap addr proc;               (* the allocated struct proc objects *)
  pidhash : gmap Z (list addr);         (* hash value -> chain, first element first *)
  procadjslot_list : gmap Z (list addr) (* slot -> list in head->next order *)
}.

Definition registry_init : registry :=
  {| procs := ∅; pidhash := ∅; procadjslot_list := ∅ |}.

(** A chain or a score list that was never written is empty. *)
Definition cells (m : gmap Z (list addr)) (k : Z) : list addr :=
  default [] (m !! k).

Definition unlink (a : addr) (l : list addr) : list addr :=
  filter (λ x, x ≠ a) l.

(** The walk of a hash chain that [pid_lookup] and [pid_remove] share. *)
Fixpoint chain_find (ps : gmap addr proc) (p : Z) (l : list addr)
  : option (addr * proc) :=
  match l with
  | [] => None
  | a :: l' =>
      match ps !! a with
      | Some r => if decide (pid r = p) then Some (a, r) else chain_find ps p l'
      | None => chain_find ps p l'
      end
  end.

Definition pid_lookup (r : registry) (p : Z) : option (addr * proc) :=
  chain_find (procs r) p (cells (pidhash r) (pid_hashfn p)).

(** [adjslot_insert] links the new element right after the list head. *)
Definition proc_slot (a : addr) (adj : Z) (r : registry) : registry :=
  let slot := ADJTOSLOT adj in
  {| procs := procs r;
     pidhash := pidhash r;
     procadjslot_list :=
       <[slot := a :: cells (procadjslot_list r) slot]> (procadjslot_list r) |}.

(** [adjslot_remove] unlinks the element from the list it is linked in,
    whichever that is: the element's own neighbour links are all it reads. *)
Definition proc_unslot (a : addr) (r : registry) : registry :=
  {| procs := procs r;
     pidhash := pidhash r;
     procadjslot_list := unlink a <$> procadjslot_list r |}.

Definition proc_insert (a : addr) (p : proc) (r : registry) : registry :=
  let hval := pid_hashfn (pid p) in
  proc_slot a (oomadj p)
    {| procs := <[a := p]> (procs r);
       pidhash := <[hval := a :: cells (pidhash r) hval]> (pidhash r);
       procadjslot_list := procadjslot_list r |}.

Definition adjslot_tail (l : list addr) : option addr := last l.

Definition proc_adj_tail (r : registry) (adj : Z) : option addr :=
  adjslot_tail (cells (procadjslot_list r) (ADJTOSLOT adj)).

(** ** Snapshots of the proc files *)

(** The fields of [union vmstat]. *)
Record vmstat := {
  vs_nr_free_pages : Z;
  vs_nr_inactive_file : Z;
  vs_nr_active_file : Z;
  vs_workingset_refault : Z;
  vs_workingset_refault_file : Z;
  vs_pgscan_kswapd : Z;
  vs_pgscan_direct : Z;
  vs_pgscan_direct_throttle : Z;
  vs_pgrefill : Z;
}.

(** The fields of [union meminfo] that the modelled functions read. *)
Record meminfo := {
  mi_nr_free_pages : Z;
  mi_shmem : Z;
  mi_total_swap : Z;
  mi_free_swap : Z;
  mi_active_anon : Z;
  mi_inactive_anon : Z;
  mi_cma_free : Z;
  mi_easy_available : Z;
}.

Record zoneinfo_zone := {
  zz_min : Z;
  zz_low : Z;
  zz_high : Z;
  zz_present : Z;
  zz_max_protection : Z;
}.

(** [struct zoneinfo]: the populated prefix of [nodes], each node being the
    populated prefix of its [zones]. *)
Definition zoneinfo := list (list zoneinfo_zone).

Record zone_watermarks := {
  high_wmark : Z;
  low_wmark : Z;
  min_wmark : Z;
}.

(** What [read_proc_status] and the three [parse_status_tag] calls yield. *)
Record proc_status := {
  st_tgid : option Z;
  st_vmrss : option Z;
  st_vmswap : option Z;
}.

(** ** The operating system, as one handler invocation observes it *)

Record os := {
  (* clock_gettime(CLOCK_MONOTONIC_COARSE) at the start of a handler *)
  os_clock : option timespec;
  (* clock_gettime in call_handler, after the handler returned *)
  os_clock_after : timespec;
  (* access("/proc/<pid>/", F_OK) == 0 *)
  os_proc_exists : Z → bool;
  (* /proc/<pid>/status: None when it cannot be read *)
  os_proc_status : Z → option proc_status;
  (* /proc/<pid>/statm: None when it cannot be opened or read, Some None
     when sscanf assigns no rss field *)
  os_proc_statm : Z → option (option Z);
  (* proc_get_name *)
  os_proc_name : Z → option string;
  (* open of /proc/<pid>/oom_score_adj for writing succeeds *)
  os_oom_score_adj_open : Z → bool;
  (* CgroupGetAttributePathForTask("MemSoftLimit", pid) *)
  os_soft_limit_path : Z → option string;
  (* pidfd_open(pid, 0) *)
  os_pidfd_open : Z → Z;
  (* calloc returns a non-null pointer *)
  os_calloc_ok : bool;
  (* epoll_ctl(EPOLL_CTL_ADD, fd) == 0 *)
  os_epoll_add_ok : Z → bool;
  (* reaper.kill({pidfd, pid, uid}, false) *)
  os_reaper_kill : Z → Z → Z → Z;
  (* lmkd_free_memory_before_kill_hook, by pid of the candidate *)
  os_free_memory_before_kill_hook : Z → Z;
  (* vmstat_parse and meminfo_parse: None for a negative return *)
  os_vmstat : option vmstat;
  os_meminfo : option meminfo;
  (* zoneinfo_parse in the n-th pass over update_watermarks (0, then 1) *)
  os_zoneinfo : nat → option zoneinfo;
  (* psi_parse_mem in the n-th pass over update_watermarks: None for a nonzero
     return, Some b for success, b being the outcome of the comparison
     mem_stats[PSI_FULL].avg10 > (float)stall_limit_critical *)
  os_psi_mem : nat → option bool;
}.

(** ** The daemon state *)

(** The configuration globals, set by [update_props] and [init]. *)
Record tunables := {
  use_inkernel_interface : bool;
  has_inkernel_module : bool;
  pidfd_supported : bool;
  per_app_memcg : bool;
  kill_heaviest_task : bool;
  kill_timeout_ms : Z;
  pressure_after_kill_min_score : Z;
  swap_free_low_percentage : Z;
  thrashing_limit_pct : Z;
  thrashing_limit_decay_pct : Z;
  thrashing_critical_pct : Z;
  swap_util_max : Z;
  filecache_min_kb : Z;
  direct_reclaim_threshold_ms : Z;
  swap_compression_ratio : Z;
  lowmem_min_oom_score : Z;
  memevent_listener : bool;                   (* the listener is non-null *)
  mem_event_update_zoneinfo_supported : bool;
  page_k : Z;
}.

Record kill_wait := {
  last_kill_pid_or_fd : Z;
  last_kill_tm : timespec;
}.

Record kill_counters := {
  killcnt_idx : list Z;      (* uint8_t [ADJTOSLOT_COUNT] *)
  killcnt : list Z;          (* uint16_t [MAX_DISTINCT_OOM_ADJ] *)
  killcnt_free_idx : Z;
  killcnt_total : Z;         (* uint32_t *)
}.

Record wakeup_info := {
  wakeup_tm : timespec;
  prev_wakeup_tm : timespec;
  last_event_tm : timespec;
  wakeups_since_event : Z;
  skipped_wakeups : Z;
}.

(** The statics of [__mp_event_psi] and the globals only it writes. *)
Record engine := {
  init_ws_refault : Z;
  prev_workingset_refault : Z;
  base_file_lru : Z;
  init_pgscan_kswapd : Z;
  init_pgscan_direct : Z;
  init_pgrefill : Z;
  killing : bool;
  thrashing_limit : Z;
  wmark_update_tm : timespec;
  wi : wakeup_info;
  thrashing_reset_tm : timespec;
  prev_thrash_growth : Z;
  check_filecache : bool;
  max_thrashing : Z;
  first_kill : bool;
  prev_level : vmpressure_level;
  watermarks : zone_watermarks;
  direct_reclaim_start_tm : timespec;
  kswapd_start_tm : timespec;
  mp_event_count : Z;
}.

(** The state [cmd_target] owns. *)
Record target_tables := {
  lowmem_adj : list Z;
  lowmem_minfree : list Z;
  lowmem_targets_size : Z;
  last_req_tm : timespec;
}.

Record lmkd := {
  cfg : tunables;
  reg : registry;
  kw : kill_wait;
  kc : kill_counters;
  eng : engine;
  tgt : target_tables;
  trace : list event;
}.

Definition set_reg (r : registry) (s : lmkd) : lmkd :=
  {| cfg := cfg s; reg := r; kw := kw s; kc := kc s; eng := eng s;
     tgt := tgt s; trace := trace s |}.

Definition set_kw (k : kill_wait) (s : lmkd) : lmkd :=
  {| cfg := cfg s; reg := reg s; kw := k; kc := kc s; eng := eng s;
     tgt := tgt s; trace := trace s |}.

Definition set_kc (k : kill_counters) (s : lmkd) : lmkd :=
  {| cfg := cfg s; reg := reg s; kw := kw s; kc := k; eng := eng s;
     tgt := tgt s; trace := trace s |}.

Definition set_eng (e : engine) (s : lmkd) : lmkd :=
  {| cfg := cfg s; reg := reg s; kw := kw s; kc := kc s; eng := e;
     tgt := tgt s; trace := trace s |}.

Definition set_tgt (t : target_tables) (s : lmkd) : lmkd :=
  {| cfg := cfg s; reg := reg s; kw := kw s; kc := kc s; eng := eng s;
     tgt := t; trace := trace s |}.

Definition emit (e : event) (s : lmkd) : lmkd :=
  {| cfg := cfg s; reg := reg s; kw := kw s; kc := kc s; eng := eng s;
     tgt := tgt s; trace := e :: trace s |}.

(** ** Registry operations *)

(** [pid_remove]: unlink the first record of the chain that carries the pid
    from the chain and from its score list, close its pidfd unless the
    daemon is waiting on it, and free it. *)
Definition pid_remove (p : Z) (s : lmkd) : Z * lmkd :=
  let r := reg s in
  let hval := pid_hashfn p in
  match chain_find (procs r) p (cells (pidhash r) hval) with
  | None => (-1, s)
  | Some (a, rec) =>
      let r1 := {| procs := procs r;
                   pidhash := <[hval := unlink a (cells (pidhash r) hval)]> (pidhash r);
                   procadjslot_list := procadjslot_list r |} in
      let r2 := proc_unslot a r1 in
      let s1 := set_reg r2 s in
      let s2 := if (0 <=? pidfd rec) && negb (pidfd rec =? last_kill_pid_or_fd (kw s))
                then emit (EvClose (pidfd rec)) s1 else s1 in
      let r3 := {| procs := delete a (procs (reg s2));
                   pidhash := pidhash (reg s2);
                   procadjslot_list := procadjslot_list (reg s2) |} in
      (0, set_reg r3 s2)
  end.

Definition set_valid (b : bool) (p : proc) : proc :=
  {| pid := pid p; pidfd := pidfd p; uid := uid p; oomadj := oomadj p;
     reg_pid := reg_pid p; valid := b |}.

Definition set_reg_pid (q : Z) (p : proc) : proc :=
  {| pid := pid p; pidfd := pidfd p; uid := uid p; oomadj := oomadj p;
     reg_pid := q; valid := valid p |}.

Definition set_oomadj (adj : Z) (p : proc) : proc :=
  {| pid := pid p; pidfd := pidfd p; uid := uid p; oomadj := adj;
     reg_pid := reg_pid p; valid := valid p |}.

Definition store_proc (a : addr) (p : proc) (r : registry) : registry :=
  {| procs := <[a := p]> (procs r);
     pidhash := pidhash r;
     procadjslot_list := procadjslot_list r |}.

Definition pid_invalidate (p : Z) (s : lmkd) : lmkd :=
  match pid_lookup (reg s) p with
  | Some (a, rec) => set_reg (store_proc a (set_valid false rec) (reg s)) s
  | None => s
  end.

(** [claim_record]: the verdict, and the record after the call. *)
Definition claim_record (rec : proc) (caller : Z) : bool * proc :=
  if decide (reg_pid rec = caller) then (true, rec)
  else if decide (reg_pid rec = 0) then (true, set_reg_pid caller rec)
  else (false, rec).

(** [remove_claims] visits every record of every chain. *)
Definition remove_claims (caller : Z) (s : lmkd) : lmkd :=
  let release (rec : proc) :=
    if decide (reg_pid rec = caller) then set_reg_pid 0 rec else rec in
  set_reg {| procs := release <$> procs (reg s);
             pidhash := pidhash (reg s);
             procadjslot_list := procadjslot_list (reg s) |} s.

(** ** PROCPRIO, PROCS_PRIO, PROCREMOVE, PROCPURGE *)

Record lmk_procprio := {
  pp_pid : Z;
  pp_uid : Z;
  pp_oomadj : Z;
  pp_ptype : Z;
}.

(** The sender's credentials, [struct ucred]. *)
Record ucred := { cred_pid : Z; cred_uid : Z }.

(** The soft-limit ladder of [register_oom_adj_proc]: the score the record
    gets and the soft limit multiplier. *)
Definition memcg_score_and_mult (adj : Z) : Z * Z :=
  if 900 <=? adj then (adj, 0)
  else if 800 <=? adj then (adj, 0)
  else if 700 <=? adj then (adj, 0)
  else if 600 <=? adj then (200, 1)
  else if 500 <=? adj then (adj, 0)
  else if 400 <=? adj then (adj, 0)
  else if 300 <=? adj then (adj, 1)
  else if 200 <=? adj then (adj, 8)
  else if 100 <=? adj then (adj, 10)
  else if 0 <=? adj then (adj, 20)
  else (adj, 64).

(** The second half of [register_oom_adj_proc]: create the record or move
    it to the list of its new score. *)
Definition register_record (o : os) (params : lmk_procprio)
    (cred : ucred) (oom_adj_score : Z) (s : lmkd) : lmkd :=
  match pid_lookup (reg s) (pp_pid params) with
  | None =>
      let fd := if pidfd_supported (cfg s) then os_pidfd_open o (pp_pid params) else -1 in
      if pidfd_supported (cfg s) && (fd <? 0) then s
      else if negb (os_calloc_ok o) then s
      else
        let a := fresh (dom (procs (reg s))) in
        let rec := {| pid := pp_pid params; pidfd := fd; uid := pp_uid params;
                      oomadj := oom_adj_score; reg_pid := cred_pid cred;
                      valid := true |} in
        set_reg (proc_insert a rec (reg s)) s
  | Some (a, rec) =>
      let '(ok, rec1) := claim_record rec (cred_pid cred) in
      if negb ok then s
      else
        let r1 := proc_unslot a (store_proc a rec1 (reg s)) in
        let r2 := store_proc a (set_oomadj oom_adj_score rec1) r1 in
        set_reg (proc_slot a oom_adj_score r2) s
  end.

Definition register_oom_adj_proc `{HeaderConstants} (o : os) (params : lmk_procprio)
    (cred : ucred) (s : lmkd) : lmkd :=
  if (pp_ptype params =? PROC_TYPE_APP) && per_app_memcg (cfg s) then
    let '(oom_adj_score, soft_limit_mult) := memcg_score_and_mult (pp_oomadj params) in
    match os_soft_limit_path o (pp_pid params) with
    | None => s
    | Some path =>
        let s1 := emit (EvWriteSoftLimit path (soft_limit_mult * EIGHT_MEGA)) s in
        register_record o params cred oom_adj_score s1
    end
  else register_record o params cred (pp_oomadj params) s.

Definition apply_proc_prio `{HeaderConstants} (o : os) (params : lmk_procprio)
    (cred : ucred) (s : lmkd) : lmkd :=
  if (pp_oomadj params <? OOM_SCORE_ADJ_MIN) || (OOM_SCORE_ADJ_MAX <? pp_oomadj params)
  then s
  else if (pp_ptype params <? PROC_TYPE_FIRST) || (PROC_TYPE_COUNT <=? pp_ptype params)
  then s
  else
    let not_leader :=
      match os_proc_status o (pp_pid params) with
      | Some st =>
          match st_tgid st with
          | Some tgid => negb (tgid =? pp_pid params)
          | None => false
          end
      | None => false
      end in
    if not_leader then s
    else
      let s1 := emit (EvWriteOomScoreAdj (pp_pid params) (pp_oomadj params)) s in
      if negb (os_oom_score_adj_open o (pp_pid params)) then s1
      else if use_inkernel_interface (cfg s1) then emit (EvStoreTaskname (pp_pid params)) s1
      else register_oom_adj_proc o params cred s1.

Definition cmd_procprio `{HeaderConstants} (o : os) (params : lmk_procprio)
    (cred : ucred) (s : lmkd) : lmkd :=
  apply_proc_prio o params cred s.

(** [cmd_procs_prio] after [lmkd_pack_get_procs_prio] unpacked the batch. *)
Definition cmd_procs_prio `{HeaderConstants} (o : os) (batch : list lmk_procprio)
    (cred : ucred) (s : lmkd) : lmkd :=
  foldl (λ acc params, apply_proc_prio o params cred acc) s batch.

(** [cmd_procremove] with the userspace backend; the kernel backend only
    drops the task name. *)
Definition cmd_procremove (p : Z) (cred : ucred) (s : lmkd) : lmkd :=
  if use_inkernel_interface (cfg s) then s
  else
    match pid_lookup (reg s) p with
    | None => s
    | Some (a, rec) =>
        let '(ok, rec1) := claim_record rec (cred_pid cred) in
        if negb ok then s
        else (pid_remove p (set_reg (store_proc a rec1 (reg s)) s)).2
    end.

(** One step of the chain walk of [cmd_procpurge]; a record that an earlier
    step already freed is passed over. *)
Definition purge_one (cred : ucred) (s : lmkd) (a : addr) : lmkd :=
  match procs (reg s) !! a with
  | None => s
  | Some rec =>
      let '(ok, rec1) := claim_record rec (cred_pid cred) in
      if ok then (pid_remove (pid rec1) (set_reg (store_proc a rec1 (reg s)) s)).2
      else s
  end.

Definition cmd_procpurge (cred : ucred) (s : lmkd) : lmkd :=
  if use_inkernel_interface (cfg s) then s
  else
    foldl (λ acc i, foldl (purge_one cred) acc (cells (pidhash (reg acc)) i))
          s (seqZ 0 PIDHASH_SZ).

(** ** Kill counters *)

Definition array_get (l : list Z) (i : Z) : option Z :=
  if i <? 0 then None else l !! Z.to_nat i.

Definition array_set (l : list Z) (i v : Z) : list Z :=
  if i <? 0 then l else <[Z.to_nat i := v]> l.

Definition kill_counters_init : kill_counters :=
  {| killcnt_idx := replicate (Z.to_nat ADJTOSLOT_COUNT) KILLCNT_INVALID_IDX;
     killcnt := replicate (Z.to_nat MAX_DISTINCT_OOM_ADJ) 0;
     killcnt_free_idx := 0;
     killcnt_total := 0 |}.

(** [inc_killcnt].  The slot of a registered record is inside the index
    table; for a slot outside of it the per-score tables are left alone. *)
Definition inc_killcnt (adj : Z) (k : kill_counters) : kill_counters :=
  let slot := ADJTOSLOT adj in
  let total := (killcnt_total k + 1) mod 2 ^ 32 in
  match array_get (killcnt_idx k) slot with
  | None =>
      {| killcnt_idx := killcnt_idx k; killcnt := killcnt k;
         killcnt_free_idx := killcnt_free_idx k; killcnt_total := total |}
  | Some idx =>
      if idx =? KILLCNT_INVALID_IDX then
        if killcnt_free_idx k <? MAX_DISTINCT_OOM_ADJ then
          {| killcnt_idx := array_set (killcnt_idx k) slot (killcnt_free_idx k);
             killcnt := array_set (killcnt k) (killcnt_free_idx k) 1;
             killcnt_free_idx := killcnt_free_idx k + 1;
             killcnt_total := total |}
        else
          {| killcnt_idx := killcnt_idx k; killcnt := killcnt k;
             killcnt_free_idx := killcnt_free_idx k; killcnt_total := total |}
      else
        {| killcnt_idx := killcnt_idx k;
           killcnt := array_set (killcnt k) idx
                        ((default 0 (array_get (killcnt k) idx) + 1) mod 2 ^ 16);
           killcnt_free_idx := killcnt_free_idx k;
           killcnt_total := total |}
  end.

(** The conversion of the [uint32_t] total to the [int] that is returned. *)
Definition int_of_uint32 (x : Z) : Z :=
  if x <? 2 ^ 31 then x else x - 2 ^ 32.

(** The summation loop of [get_killcnt].  [None] stands for a read outside
    of [killcnt_idx] or [killcnt], where C leaves the behaviour undefined,
    and for exhausted fuel. *)
Fixpoint get_killcnt_loop (fuel : nat) (k : kill_counters)
    (min_oomadj max_oomadj count : Z) : option Z :=
  match fuel with
  | O => None
  | S fuel' =>
      if (min_oomadj <=? max_oomadj) && (ADJTOSLOT min_oomadj <? ADJTOSLOT_COUNT) then
        match array_get (killcnt_idx k) (ADJTOSLOT min_oomadj) with
        | None => None
        | Some idx =>
            if idx =? KILLCNT_INVALID_IDX then
              get_killcnt_loop fuel' k (min_oomadj + 1) max_oomadj count
            else
              match array_get (killcnt k) idx with
              | None => None
              | Some c =>
                  get_killcnt_loop fuel' k (min_oomadj + 1) max_oomadj (count + c)
              end
        end
      else Some count
  end.

Definition get_killcnt (k : kill_counters) (min_oomadj max_oomadj : Z) : option Z :=
  if max_oomadj <? min_oomadj then Some 0
  else if OOM_SCORE_ADJ_MAX <? min_oomadj then Some (int_of_uint32 (killcnt_total k))
  else get_killcnt_loop (S (Z.to_nat ADJTOSLOT_COUNT)) k min_oomadj max_oomadj 0.

Definition cmd_getkillcnt (s : lmkd) (min_oomadj max_oomadj : Z) : option Z :=
  if use_inkernel_interface (cfg s) then Some 0
  else get_killcnt (kc s) min_oomadj max_oomadj.

(** ** TARGET *)

(** What ["%d:%d,"] prints for one target. *)
Definition target_piece (minfree adj : Z) : string :=
  pretty minfree +:+ ":" +:+ pretty adj +:+ ",".

Record target_fill := {
  tf_minfree : list Z;
  tf_adj : list Z;
  tf_buf : string;      (* minfree_str up to its terminator *)
  tf_pstr : Z;          (* pstr - minfree_str *)
}.

(** The loop of [cmd_target] over the targets of the packet, from index
    [i] on.  [snprintf] writes at most [pend - pstr - 1] characters and
    returns the length of the whole piece; once [pstr] reaches [pend] the
    loop is left. *)
Fixpoint target_loop `{HeaderConstants} (ts : list (Z * Z)) (i : Z)
    (f : target_fill) : target_fill :=
  match ts with
  | [] => f
  | (minfree, adj) :: ts' =>
      let piece := target_piece minfree adj in
      let room := PROPERTY_VALUE_MAX - tf_pstr f in
      let written := String.substring 0 (Z.to_nat (room - 1)) piece in
      let pstr := tf_pstr f + Z.of_nat (String.length piece) in
      let f1 := {| tf_minfree := array_set (tf_minfree f) i minfree;
                   tf_adj := array_set (tf_adj f) i adj;
                   tf_buf := tf_buf f +:+ written;
                   tf_pstr := pstr |} in
      if PROPERTY_VALUE_MAX <=? pstr then
        {| tf_minfree := tf_minfree f1; tf_adj := tf_adj f1;
           tf_buf := tf_buf f1; tf_pstr := PROPERTY_VALUE_MAX |}
      else target_loop ts' (i + 1) f1
  end.

(** The comma separated list that the [strlcat] loop leaves in a buffer of
    128 bytes. *)
Definition kernel_param (vals : list Z) : string :=
  String.substring 0 127 (String.concat "," (pretty <$> vals)).

Definition INKERNEL_MINFREE_PATH : string :=
  "/sys/module/lowmemorykiller/parameters/minfree".
Definition INKERNEL_ADJ_PATH : string :=
  "/sys/module/lowmemorykiller/parameters/adj".

(** [cmd_target] on the [ntargets] pairs (minfree, oom_adj_score) of the
    packet. *)
Definition cmd_target `{HeaderConstants} (o : os) (targets : list (Z * Z))
    (s : lmkd) : lmkd :=
  let ntargets := Z.of_nat (length targets) in
  if (ntargets <? 1) || (MAX_TARGETS <? ntargets) then s
  else
    match os_clock o with
    | None => s
    | Some curr_tm =>
        if get_time_diff_ms (last_req_tm (tgt s)) curr_tm <? TARGET_UPDATE_MIN_INTERVAL_MS
        then s
        else
          let f := target_loop targets 0
                     {| tf_minfree := lowmem_minfree (tgt s);
                        tf_adj := lowmem_adj (tgt s);
                        tf_buf := ""; tf_pstr := 0 |} in
          let minfree_str := String.substring 0 (Z.to_nat (tf_pstr f - 1)) (tf_buf f) in
          let s1 := set_tgt {| lowmem_adj := tf_adj f;
                               lowmem_minfree := tf_minfree f;
                               lowmem_targets_size := ntargets;
                               last_req_tm := curr_tm |} s in
          let s2 := emit (EvPropertySet "sys.lmk.minfree_levels" minfree_str) s1 in
          if has_inkernel_module (cfg s2) then
            let pick (l : list Z) :=
              (λ v, if use_inkernel_interface (cfg s2) then v else 0)
                <$> take (Z.to_nat ntargets) l in
            emit (EvWriteKernelParam INKERNEL_ADJ_PATH (kernel_param (pick (tf_adj f))))
              (emit (EvWriteKernelParam INKERNEL_MINFREE_PATH
                       (kernel_param (pick (tf_minfree f)))) s2)
          else s2
    end.

(** ** Waiting for a kill *)

Definition is_kill_pending (o : os) (s : lmkd) : bool :=
  if last_kill_pid_or_fd (kw s) <? 0 then false
  else if pidfd_supported (cfg s) then true
  else os_proc_exists o (last_kill_pid_or_fd (kw s)).

Definition is_waiting_for_kill (s : lmkd) : bool :=
  pidfd_supported (cfg s) && (0 <=? last_kill_pid_or_fd (kw s)).

Definition set_last_kill_pid_or_fd (v : Z) (s : lmkd) : lmkd :=
  set_kw {| last_kill_pid_or_fd := v; last_kill_tm := last_kill_tm (kw s) |} s.

Definition set_last_kill_tm (t : timespec) (s : lmkd) : lmkd :=
  set_kw {| last_kill_pid_or_fd := last_kill_pid_or_fd (kw s); last_kill_tm := t |} s.

Definition stop_wait_for_proc_kill (finished : bool) (s : lmkd) : lmkd :=
  let fd := last_kill_pid_or_fd (kw s) in
  if fd <? 0 then s
  else
    let s1 := if pidfd_supported (cfg s)
              then emit (EvClose fd) (emit (EvEpollDel fd) s) else s in
    set_last_kill_pid_or_fd (-1) s1.

Definition start_wait_for_proc_kill (o : os) (pid_or_fd : Z) (s : lmkd) : lmkd :=
  let s1 := if 0 <=? last_kill_pid_or_fd (kw s)
            then stop_wait_for_proc_kill false s else s in
  let s2 := set_last_kill_pid_or_fd pid_or_fd s1 in
  if negb (pidfd_supported (cfg s2)) then s2
  else
    let s3 := emit (EvEpollAdd pid_or_fd) s2 in
    if os_epoll_add_ok o pid_or_fd then s3
    else set_last_kill_pid_or_fd (-1) (emit (EvClose pid_or_fd) s3).

(** ** Victim selection *)

Definition proc_get_size (o : os) (p : Z) : Z :=
  match os_proc_statm o p with
  | None => -1
  | Some None => 0
  | Some (Some rss) => rss
  end.

Record heaviest_scan := {
  hs_state : lmkd;
  hs_maxprocp : option addr;
  hs_maxsize : Z;
}.

(** One round of the scan of [proc_get_heaviest]; an element that a
    [pid_remove] of an earlier round unlinked is not visited. *)
Definition heaviest_step (o : os) (h : heaviest_scan) (a : addr) : heaviest_scan :=
  match procs (reg (hs_state h)) !! a with
  | None => h
  | Some rec =>
      let tasksize := proc_get_size o (pid rec) in
      if tasksize <? 0 then
        {| hs_state := (pid_remove (pid rec) (hs_state h)).2;
           hs_maxprocp := hs_maxprocp h; hs_maxsize := hs_maxsize h |}
      else if hs_maxsize h <? tasksize then
        {| hs_state := hs_state h; hs_maxprocp := Some a; hs_maxsize := tasksize |}
      else h
  end.

Definition proc_get_heaviest (o : os) (adj : Z) (s : lmkd) : option addr * lmkd :=
  match cells (procadjslot_list (reg s)) (ADJTOSLOT adj) with
  | [a] => (Some a, s)
  | l =>
      let h := foldl (heaviest_step o)
                 {| hs_state := s; hs_maxprocp := None; hs_maxsize := 0 |} l in
      (hs_maxprocp h, hs_state h)
  end.

(** [kill_one_process] on the record [rec] that [procp] points to. *)
Definition kill_one_process (o : os) (rec : proc) (min_oom_score : Z)
    (tm : timespec) (s : lmkd) : Z * lmkd :=
  let out (result : Z) (s' : lmkd) := (result, (pid_remove (pid rec) s').2) in
  if negb (valid rec) then out (-1) s
  else
    match os_proc_status o (pid rec) with
    | None => out (-1) s
    | Some st =>
        match st_tgid st with
        | None => out (-1) s
        | Some tgid =>
            if negb (tgid =? pid rec) then out (-1) s
            else
              match st_vmrss st, st_vmswap st, os_proc_name o (pid rec) with
              | Some rss_kb, Some swap_kb, Some taskname =>
                  let result := os_free_memory_before_kill_hook o (pid rec) in
                  if 0 <? result then (result, s)
                  else
                    let s1 := start_wait_for_proc_kill o
                                (if pidfd rec <? 0 then pid rec else pidfd rec) s in
                    let s2 := emit (EvReaperKill (pidfd rec) (pid rec) (uid rec)) s1 in
                    if negb (os_reaper_kill o (pidfd rec) (pid rec) (uid rec) =? 0)
                    then out result (stop_wait_for_proc_kill false s2)
                    else
                      let s3 := set_last_kill_tm tm s2 in
                      let s4 := set_kc (inc_killcnt (oomadj rec) (kc s3)) s3 in
                      let s5 := emit (EvNotifyKill (pid rec) (uid rec) rss_kb) s4 in
                      out (Z.quot rss_kb (page_k (cfg s5))) s5
              | _, _, _ => out (-1) s
              end
        end
    end.

(** The inner [while (true)] of [find_and_kill_process] at score [i].
    [None] stands for exhausted fuel and for a candidate pointer that does
    not point to a record. *)
Fixpoint kill_candidates (fuel : nat) (o : os) (choose_heaviest_task : bool)
    (i min_score_adj : Z) (tm : timespec) (killed_size : Z) (s : lmkd)
  : option (Z * lmkd) :=
  match fuel with
  | O => None
  | S fuel' =>
      let '(procp, s1) :=
        if choose_heaviest_task then proc_get_heaviest o i s
        else (proc_adj_tail (reg s) i, s) in
      match procp with
      | None => Some (killed_size, s1)
      | Some a =>
          match procs (reg s1) !! a with
          | None => None
          | Some rec =>
              let '(ks, s2) := kill_one_process o rec min_score_adj tm s1 in
              if 0 <=? ks then Some (ks, s2)
              else kill_candidates fuel' o choose_heaviest_task i min_score_adj tm ks s2
          end
      end
  end.

(** The [for] loop over the scores, [n] scores from [i] downwards. *)
Fixpoint walk_scores (n : nat) (o : os) (choose_heaviest_task : bool)
    (i min_score_adj : Z) (tm : timespec) (killed_size : Z) (s : lmkd)
  : option (Z * lmkd) :=
  match n with
  | O => Some (killed_size, s)
  | S n' =>
      let choose := choose_heaviest_task || (i <=? PERCEPTIBLE_APP_ADJ) in
      let fuel := S (length (cells (procadjslot_list (reg s)) (ADJTOSLOT i))) in
      match kill_candidates fuel o choose i min_score_adj tm killed_size s with
      | None => None
      | Some (ks, s1) =>
          if negb (ks =? 0) then Some (ks, s1)
          else walk_scores n' o choose (i - 1) min_score_adj tm ks s1
      end
  end.

Definition find_and_kill_process (o : os) (min_score_adj : Z) (tm : timespec)
    (s : lmkd) : option (Z * lmkd) :=
  walk_scores (Z.to_nat (OOM_SCORE_ADJ_MAX - min_score_adj + 1)) o
    (kill_heaviest_task (cfg s)) OOM_SCORE_ADJ_MAX min_score_adj tm 0 s.

(** ** The PSI decision engine *)

Definition get_free_swap (c : tunables) (mi : meminfo) : Z :=
  if negb (swap_compression_ratio c =? 0)
  then Z.min (mi_free_swap mi) (mi_easy_available mi * swap_compression_ratio c)
  else mi_free_swap mi.

Definition calc_swap_utilization (c : tunables) (mi : meminfo) : Z :=
  let swap_used := mi_total_swap mi - get_free_swap c mi in
  let total_swappable :=
    mi_active_anon mi + mi_inactive_anon mi + mi_shmem mi + swap_used in
  if 0 <? total_swappable then Z.quot (swap_used * 100) total_swappable else 0.

Definition get_lowest_watermark (mi : meminfo) (w : zone_watermarks) : zone_watermark :=
  let nr_free_pages := mi_nr_free_pages mi - mi_cma_free mi in
  if nr_free_pages <? min_wmark w then WMARK_MIN
  else if nr_free_pages <? low_wmark w then WMARK_LOW
  else if nr_free_pages <? high_wmark w then WMARK_HIGH
  else WMARK_NONE.

Definition calc_zone_watermarks (zi : zoneinfo) : zone_watermarks :=
  foldl (λ w zone,
           if zz_present zone =? 0 then w
           else {| high_wmark := high_wmark w + (zz_max_protection zone + zz_high zone);
                   low_wmark := low_wmark w + (zz_max_protection zone + zz_low zone);
                   min_wmark := min_wmark w + (zz_max_protection zone + zz_min zone) |})
        {| high_wmark := 0; low_wmark := 0; min_wmark := 0 |}
        (concat zi).

Inductive wakeup_reason := Event | Polling.

Definition record_wakeup_time (tm : timespec) (reason : wakeup_reason)
    (w : wakeup_info) : wakeup_info :=
  match reason with
  | Event =>
      {| wakeup_tm := tm; prev_wakeup_tm := wakeup_tm w; last_event_tm := tm;
         wakeups_since_event := 0; skipped_wakeups := 0 |}
  | Polling =>
      {| wakeup_tm := tm; prev_wakeup_tm := wakeup_tm w;
         last_event_tm := last_event_tm w;
         wakeups_since_event := wakeups_since_event w + 1;
         skipped_wakeups := skipped_wakeups w |}
  end.

(** [union psi_event_data] together with the source that selects its member. *)
Inductive psi_event_data :=
  | PsiLevel (level : vmpressure_level)
  | VendorKillEvent (reason : Z) (min_oom_score_adj : Z).

Definition source_of (d : psi_event_data) : event_source :=
  match d with PsiLevel _ => PSI | VendorKillEvent _ _ => VENDOR end.

Definition level_of (d : psi_event_data) : vmpressure_level :=
  match d with PsiLevel l => l | VendorKillEvent _ _ => VMPRESS_LEVEL_LOW end.

(** The handlers that [call_handler] can be given, by the
    [struct event_handler_info] they are registered with. *)
Inductive handler_info :=
  | vmpressure_hinfo (level : vmpressure_level)
  | kill_done_hinfo
  | kill_fail_hinfo.

Global Instance handler_info_eq_dec : EqDecision handler_info.
Proof. solve_decision. Defined.

Record polling_params := {
  poll_handler : option handler_info;
  paused_handler : option handler_info;
  poll_start_tm : timespec;
  last_poll_tm : timespec;
  polling_interval_ms : Z;
  update : polling_update;
}.

Definition set_update (u : polling_update) (pp : polling_params) : polling_params :=
  {| poll_handler := poll_handler pp; paused_handler := paused_handler pp;
     poll_start_tm := poll_start_tm pp; last_poll_tm := last_poll_tm pp;
     polling_interval_ms := polling_interval_ms pp; update := u |}.

Definition set_polling_interval_ms (ms : Z) (pp : polling_params) : polling_params :=
  {| poll_handler := poll_handler pp; paused_handler := paused_handler pp;
     poll_start_tm := poll_start_tm pp; last_poll_tm := last_poll_tm pp;
     polling_interval_ms := ms; update := update pp |}.

(** Field updates of the engine statics. *)
Definition with_level_and_wi (l : vmpressure_level) (w : wakeup_info) (e : engine) : engine :=
  {| init_ws_refault := init_ws_refault e;
     prev_workingset_refault := prev_workingset_refault e;
     base_file_lru := base_file_lru e;
     init_pgscan_kswapd := init_pgscan_kswapd e;
     init_pgscan_direct := init_pgscan_direct e;
     init_pgrefill := init_pgrefill e;
     killing := killing e;
     thrashing_limit := thrashing_limit e;
     wmark_update_tm := wmark_update_tm e;
     wi := w;
     thrashing_reset_tm := thrashing_reset_tm e;
     prev_thrash_growth := prev_thrash_growth e;
     check_filecache := check_filecache e;
     max_thrashing := max_thrashing e;
     first_kill := first_kill e;
     prev_level := l;
     watermarks := watermarks e;
     direct_reclaim_start_tm := direct_reclaim_start_tm e;
     kswapd_start_tm := kswapd_start_tm e;
     mp_event_count := mp_event_count e |}.

Definition with_mp_event_count (n : Z) (e : engine) : engine :=
  {| init_ws_refault := init_ws_refault e;
     prev_workingset_refault := prev_workingset_refault e;
     base_file_lru := base_file_lru e;
     init_pgscan_kswapd := init_pgscan_kswapd e;
     init_pgscan_direct := init_pgscan_direct e;
     init_pgrefill := init_pgrefill e;
     killing := killing e;
     thrashing_limit := thrashing_limit e;
     wmark_update_tm := wmark_update_tm e;
     wi := wi e;
     thrashing_reset_tm := thrashing_reset_tm e;
     prev_thrash_growth := prev_thrash_growth e;
     check_filecache := check_filecache e;
     max_thrashing := max_thrashing e;
     first_kill := first_kill e;
     prev_level := prev_level e;
     watermarks := watermarks e;
     direct_reclaim_start_tm := direct_reclaim_start_tm e;
     kswapd_start_tm := kswapd_start_tm e;
     mp_event_count := n |}.

(** The thrashing window: baselines, window start, carried growth, limit
    and high-water mark. *)
Definition with_thrashing (init_refault base_lru : Z) (reset_tm : timespec)
    (growth limit maxthr : Z) (e : engine) : engine :=
  {| init_ws_refault := init_refault;
     prev_workingset_refault := prev_workingset_refault e;
     base_file_lru := base_lru;
     init_pgscan_kswapd := init_pgscan_kswapd e;
     init_pgscan_direct := init_pgscan_direct e;
     init_pgrefill := init_pgrefill e;
     killing := killing e;
     thrashing_limit := limit;
     wmark_update_tm := wmark_update_tm e;
     wi := wi e;
     thrashing_reset_tm := reset_tm;
     prev_thrash_growth := growth;
     check_filecache := check_filecache e;
     max_thrashing := maxthr;
     first_kill := first_kill e;
     prev_level := prev_level e;
     watermarks := watermarks e;
     direct_reclaim_start_tm := direct_reclaim_start_tm e;
     kswapd_start_tm := kswapd_start_tm e;
     mp_event_count := mp_event_count e |}.

(** The reclaim baselines and the refault count of the previous wakeup. *)
Definition with_reclaim (kswapd direct refill prev_refault : Z) (e : engine) : engine :=
  {| init_ws_refault := init_ws_refault e;
     prev_workingset_refault := prev_refault;
     base_file_lru := base_file_lru e;
     init_pgscan_kswapd := kswapd;
     init_pgscan_direct := direct;
     init_pgrefill := refill;
     killing := killing e;
     thrashing_limit := thrashing_limit e;
     wmark_update_tm := wmark_update_tm e;
     wi := wi e;
     thrashing_reset_tm := thrashing_reset_tm e;
     prev_thrash_growth := prev_thrash_growth e;
     check_filecache := check_filecache e;
     max_thrashing := max_thrashing e;
     first_kill := first_kill e;
     prev_level := prev_level e;
     watermarks := watermarks e;
     direct_reclaim_start_tm := direct_reclaim_start_tm e;
     kswapd_start_tm := kswapd_start_tm e;
     mp_event_count := mp_event_count e |}.

(** The flags [killing], [check_filecache] and [first_kill]. *)
Definition with_flags (k cf fk : bool) (e : engine) : engine :=
  {| init_ws_refault := init_ws_refault e;
     prev_workingset_refault := prev_workingset_refault e;
     base_file_lru := base_file_lru e;
     init_pgscan_kswapd := init_pgscan_kswapd e;
     init_pgscan_direct := init_pgscan_direct e;
     init_pgrefill := init_pgrefill e;
     killing := k;
     thrashing_limit := thrashing_limit e;
     wmark_update_tm := wmark_update_tm e;
     wi := wi e;
     thrashing_reset_tm := thrashing_reset_tm e;
     prev_thrash_growth := prev_thrash_growth e;
     check_filecache := cf;
     max_thrashing := max_thrashing e;
     first_kill := fk;
     prev_level := prev_level e;
     watermarks := watermarks e;
     direct_reclaim_start_tm := direct_reclaim_start_tm e;
     kswapd_start_tm := kswapd_start_tm e;
     mp_event_count := mp_event_count e |}.

Definition with_watermarks (w : zone_watermarks) (tm : timespec) (e : engine) : engine :=
  {| init_ws_refault := init_ws_refault e;
     prev_workingset_refault := prev_workingset_refault e;
     base_file_lru := base_file_lru e;
     init_pgscan_kswapd := init_pgscan_kswapd e;
     init_pgscan_direct := init_pgscan_direct e;
     init_pgrefill := init_pgrefill e;
     killing := killing e;
     thrashing_limit := thrashing_limit e;
     wmark_update_tm := tm;
     wi := wi e;
     thrashing_reset_tm := thrashing_reset_tm e;
     prev_thrash_growth := prev_thrash_growth e;
     check_filecache := check_filecache e;
     max_thrashing := max_thrashing e;
     first_kill := first_kill e;
     prev_level := prev_level e;
     watermarks := w;
     direct_reclaim_start_tm := direct_reclaim_start_tm e;
     kswapd_start_tm := kswapd_start_tm e;
     mp_event_count := mp_event_count e |}.

Definition with_skipped_wakeups (n : Z) (w : wakeup_info) : wakeup_info :=
  {| wakeup_tm := wakeup_tm w; prev_wakeup_tm := prev_wakeup_tm w;
     last_event_tm := last_event_tm w;
     wakeups_since_event := wakeups_since_event w; skipped_wakeups := n |}.

(** Step 1: a PSI event below the stored level is dropped; otherwise the
    level is stored (event) or reset (polling tick) and the wakeup is
    recorded.  [None] is the [return] of the dropped event. *)
Definition level_lock (d : psi_event_data) (events : Z) (curr_tm : timespec)
    (e : engine) : option engine :=
  match d with
  | VendorKillEvent _ _ => Some e
  | PsiLevel level =>
      let reason := if negb (events =? 0) then Event else Polling in
      if 0 <? events then
        if level_rank level <? level_rank (prev_level e) then None
        else Some (with_level_and_wi level (record_wakeup_time curr_tm reason (wi e)) e)
      else
        Some (with_level_and_wi VMPRESS_LEVEL_LOW
                (record_wakeup_time curr_tm reason (wi e)) e)
  end.

(** Step 2: the condition under which the wakeup is skipped. *)
Definition kill_gate (o : os) (curr_tm : timespec) (s : lmkd) : bool :=
  is_kill_pending o s &&
  ((kill_timeout_ms (cfg s) =? 0) ||
   (get_time_diff_ms (last_kill_tm (kw s)) curr_tm <? kill_timeout_ms (cfg s))).

(** Step 4: the reset on the cycle after a kill. *)
Definition post_kill_reset (curr_tm : timespec) (vs : vmstat)
    (workingset_refault_file : Z) (e : engine) : bool * engine :=
  if killing e then
    (true,
     with_thrashing workingset_refault_file
       (vs_nr_inactive_file vs + vs_nr_active_file vs) curr_tm 0
       (thrashing_limit e) (max_thrashing e)
       (with_flags false (check_filecache e) (first_kill e) e))
  else (false, e).

(** Step 5: the reclaim state; [None] is the early [goto no_kill]. *)
Definition reclaim_step (c : tunables) (d : psi_event_data) (curr_tm : timespec)
    (vs : vmstat) (workingset_refault_file : Z) (e : engine)
  : option (reclaim_state * Z * engine) :=
  let in_direct_reclaim :=
    if memevent_listener c then timespec_is_set (direct_reclaim_start_tm e)
    else negb (vs_pgscan_direct vs =? init_pgscan_direct e) in
  let in_kswapd_reclaim :=
    if memevent_listener c then timespec_is_set (kswapd_start_tm e)
    else negb (vs_pgscan_kswapd vs =? init_pgscan_kswapd e)
         || negb (vs_pgrefill vs =? init_pgrefill e) in
  if in_direct_reclaim then
    Some (DIRECT_RECLAIM,
          get_time_diff_ms (direct_reclaim_start_tm e) curr_tm,
          with_reclaim (vs_pgscan_kswapd vs) (vs_pgscan_direct vs) (vs_pgrefill vs)
            workingset_refault_file e)
  else if in_kswapd_reclaim then
    Some (KSWAPD_RECLAIM, 0,
          with_reclaim (vs_pgscan_kswapd vs) (init_pgscan_direct e) (vs_pgrefill vs)
            workingset_refault_file e)
  else if (workingset_refault_file =? prev_workingset_refault e)
          && bool_decide (source_of d = PSI)
  then None
  else
    Some (NO_RECLAIM, 0,
          with_reclaim (init_pgscan_kswapd e) (init_pgscan_direct e) (init_pgrefill e)
            workingset_refault_file e).

(** Step 6: the thrashing window.  The second component is [thrashing]. *)
Definition update_thrashing (c : tunables) (curr_tm : timespec) (vs : vmstat)
    (workingset_refault_file : Z) (e : engine) : engine * Z :=
  let since_thrashing_reset_ms := get_time_diff_ms (thrashing_reset_tm e) curr_tm in
  let '(e1, thrashing) :=
    if THRASHING_RESET_INTERVAL_MS <? since_thrashing_reset_ms then
      let growth :=
        Z.quot ((workingset_refault_file - init_ws_refault e) * 100)
               (base_file_lru e + 1) in
      let windows_passed :=
        Z.quot since_thrashing_reset_ms THRASHING_RESET_INTERVAL_MS in
      let decayed :=
        if (1 <? windows_passed) || (growth <? thrashing_limit e)
        then Z.shiftr growth windows_passed else growth in
      (with_thrashing workingset_refault_file
         (vs_nr_inactive_file vs + vs_nr_active_file vs) curr_tm decayed
         (thrashing_limit_pct c) (max_thrashing e) e, 0)
    else
      (e, Z.quot ((workingset_refault_file - init_ws_refault e) * 100)
                 (base_file_lru e + 1)) in
  let thrashing := thrashing + prev_thrash_growth e1 in
  if max_thrashing e1 <? thrashing then
    (with_thrashing (init_ws_refault e1) (base_file_lru e1) (thrashing_reset_tm e1)
       (prev_thrash_growth e1) (thrashing_limit e1) thrashing e1, thrashing)
  else (e1, thrashing).

(** The locals of [__mp_event_psi] that are fixed before the label
    [update_watermarks]. *)
Record psi_inputs := {
  in_data : psi_event_data;
  in_events : Z;
  in_curr_tm : timespec;
  in_mi : meminfo;
  in_vs : vmstat;
  in_cycle_after_kill : bool;
  in_swap_is_low : bool;
  in_thrashing : Z;
  in_reclaim : reclaim_state;
  in_direct_reclaim_duration_ms : Z;
}.

(** The locals that the code below [update_watermarks] assigns.  They keep
    their values when the [goto] re-enters that code. *)
Record psi_locals := {
  kill_reason : kill_reasons;
  min_score_adj : Z;
  cut_thrashing_limit : bool;
  critical_stall : bool;
  wmark : zone_watermark;
}.

Definition psi_locals_init : psi_locals :=
  {| kill_reason := NONE; min_score_adj := 0; cut_thrashing_limit := false;
     critical_stall := false; wmark := WMARK_NONE |}.

Inductive pass_result :=
  | PassReturn (e : engine)
  | PassDone (l : psi_locals) (e : engine).

(** Step 9, the chain of conditions, for a PSI source.  The arguments
    [reason0], [score0] and [cut0] are the values the locals have when the
    chain is entered. *)
Definition classify (c : tunables) (x : psi_inputs) (level : vmpressure_level)
    (w : zone_watermark) (reason0 : kill_reasons) (score0 : Z) (cut0 : bool)
    (e : engine) : kill_reasons * Z * bool * engine :=
  let thrashing := in_thrashing x in
  let perceptible_unless (spare : bool) := if spare then PERCEPTIBLE_APP_ADJ + 1 else score0 in
  let mark_filecache := with_flags (killing e) true (first_kill e) e in
  if in_cycle_after_kill x && (wmark_rank w <? wmark_rank WMARK_LOW) then
    (PRESSURE_AFTER_KILL, pressure_after_kill_min_score c, cut0, e)
  else if bool_decide (level = VMPRESS_LEVEL_CRITICAL) && negb (in_events x =? 0) then
    (NOT_RESPONDING, score0, cut0, e)
  else if in_swap_is_low x && (thrashing_limit_pct c <? thrashing) then
    (LOW_SWAP_AND_THRASHING,
     perceptible_unless ((wmark_rank WMARK_MIN <? wmark_rank w)
                         && (thrashing <? thrashing_critical_pct c)),
     cut0, mark_filecache)
  else if in_swap_is_low x && (wmark_rank w <? wmark_rank WMARK_HIGH) then
    (LOW_MEM_AND_SWAP,
     perceptible_unless ((wmark_rank WMARK_MIN <? wmark_rank w)
                         && (thrashing <? thrashing_critical_pct c)),
     cut0, e)
  else if (wmark_rank w <? wmark_rank WMARK_HIGH) && (swap_util_max c <? 100)
          && (swap_util_max c <? calc_swap_utilization c (in_mi x)) then
    (LOW_MEM_AND_SWAP_UTIL, score0, cut0, e)
  else if (wmark_rank w <? wmark_rank WMARK_HIGH) && (thrashing_limit e <? thrashing) then
    (LOW_MEM_AND_THRASHING,
     perceptible_unless (thrashing <? thrashing_critical_pct c), true, mark_filecache)
  else if bool_decide (in_reclaim x = DIRECT_RECLAIM) && (thrashing_limit e <? thrashing) then
    (DIRECT_RECL_AND_THRASHING,
     perceptible_unless (thrashing <? thrashing_critical_pct c), true, mark_filecache)
  else if bool_decide (in_reclaim x = DIRECT_RECLAIM)
          && (0 <? direct_reclaim_threshold_ms c)
          && (direct_reclaim_threshold_ms c <? in_direct_reclaim_duration_ms x) then
    (DIRECT_RECL_STUCK, score0, cut0, e)
  else if check_filecache e then
    let file_lru_kb :=
      (vs_nr_inactive_file (in_vs x) + vs_nr_active_file (in_vs x)) * page_k c in
    if file_lru_kb <? filecache_min_kb c then
      (LOW_FILECACHE_AFTER_THRASHING, PERCEPTIBLE_APP_ADJ + 1, cut0, e)
    else (reason0, score0, cut0, with_flags (killing e) false (first_kill e) e)
  else (reason0, score0, cut0, e).

(** The code from the label [update_watermarks] down to the LOW_MEM check,
    entered for the [n]-th time with the locals [l]. *)
Definition psi_pass `{HeaderConstants} (n : nat) (o : os) (c : tunables)
    (x : psi_inputs) (l : psi_locals) (e : engine) : pass_result :=
  let refresh :=
    (high_wmark (watermarks e) =? 0)
    || (negb (mem_event_update_zoneinfo_supported c)
        && (60000 <? get_time_diff_ms (wmark_update_tm e) (in_curr_tm x))) in
  let refreshed :=
    if refresh then
      match os_zoneinfo o n with
      | None => None
      | Some zi => Some (with_watermarks (calc_zone_watermarks zi) (in_curr_tm x) e)
      end
    else Some e in
  match refreshed with
  | None => PassReturn e
  | Some e1 =>
      let w := get_lowest_watermark (in_mi x) (watermarks e1) in
      let stall := match os_psi_mem o n with
                   | Some b => b
                   | None => critical_stall l
                   end in
      match in_data x with
      | VendorKillEvent vendor_kill_reason vendor_kill_min_oom_score_adj =>
          if (vendor_kill_reason <? 0) || (VENDOR_KILL_REASON_END <? vendor_kill_reason)
             || (vendor_kill_min_oom_score_adj <? 0)
          then PassReturn e1
          else
            PassDone {| kill_reason := VENDOR_KILL vendor_kill_reason;
                        min_score_adj := vendor_kill_min_oom_score_adj;
                        cut_thrashing_limit := cut_thrashing_limit l;
                        critical_stall := stall; wmark := w |} e1
      | PsiLevel level =>
          let '(reason, score, cut, e2) :=
            classify c x level w (kill_reason l) (min_score_adj l)
              (cut_thrashing_limit l) e1 in
          let '(reason1, score1) :=
            if bool_decide (reason = NONE) && (wmark_rank w <? wmark_rank WMARK_HIGH)
            then (LOW_MEM, lowmem_min_oom_score c) else (reason, score) in
          PassDone {| kill_reason := reason1; min_score_adj := score1;
                      cut_thrashing_limit := cut; critical_stall := stall;
                      wmark := w |} e2
      end
  end.

(** What the engine has decided when it reaches the call of
    [find_and_kill_process]. *)
Record kill_decision := {
  kd_reason : kill_reasons;         (* ki.kill_reason *)
  kd_min_score_adj : Z;             (* the argument of find_and_kill_process *)
  kd_cut_thrashing_limit : bool;
  kd_critical_stall : bool;
  kd_wmark : zone_watermark;
  kd_thrashing : Z;
  kd_curr_tm : timespec;
}.

Inductive psi_decision :=
  (* a plain return *)
  | PsiReturn (s : lmkd)
  (* the label no_kill is reached without a call of find_and_kill_process *)
  | PsiNoKill (s : lmkd) (reclaim : reclaim_state) (swap_is_low : bool)
  (* find_and_kill_process is called *)
  | PsiKill (s : lmkd) (reclaim : reclaim_state) (swap_is_low : bool)
            (k : kill_decision).

Definition bump_skipped_wakeups (e : engine) : engine :=
  with_level_and_wi (prev_level e)
    (with_skipped_wakeups (skipped_wakeups (wi e) + 1) (wi e)) e.

Definition decide_kill (x : psi_inputs) (l : psi_locals) (s : lmkd) : psi_decision :=
  PsiKill s (in_reclaim x) (in_swap_is_low x)
    {| kd_reason := kill_reason l;
       kd_min_score_adj := if critical_stall l then 0 else min_score_adj l;
       kd_cut_thrashing_limit := cut_thrashing_limit l;
       kd_critical_stall := critical_stall l;
       kd_wmark := wmark l;
       kd_thrashing := in_thrashing x;
       kd_curr_tm := in_curr_tm x |}.

(** What steps 1 to 5 of [__mp_event_psi] hand over to step 6. *)
Record psi_reached := {
  at_state : lmkd;                 (* the daemon state, engine statics apart *)
  at_engine : engine;              (* the engine statics *)
  at_curr_tm : timespec;
  at_vs : vmstat;
  at_mi : meminfo;
  at_workingset_refault_file : Z;
  at_cycle_after_kill : bool;
  at_swap_is_low : bool;
  at_reclaim : reclaim_state;
  at_direct_reclaim_duration_ms : Z;
}.

Inductive psi_prefix_result :=
  | PrefixDone (dec : psi_decision)
  | PrefixReached (r : psi_reached).

(** Steps 1 to 5: the level lock, the gate of the kill in flight, the two
    parses, the reset after a kill, the swap level and the reclaim state. *)
Definition mp_event_psi_prefix (o : os) (d : psi_event_data) (events : Z)
    (s0 : lmkd) : psi_prefix_result :=
  let s := set_eng (with_mp_event_count (mp_event_count (eng s0) + 1) (eng s0)) s0 in
  let c := cfg s in
  match os_clock o with
  | None => PrefixDone (PsiReturn s)
  | Some curr_tm =>
  match level_lock d events curr_tm (eng s) with
  | None => PrefixDone (PsiReturn s)
  | Some e1 =>
  let s1 := set_eng e1 s in
  if kill_gate o curr_tm s1 then
    PrefixDone (PsiNoKill (set_eng (bump_skipped_wakeups e1) s1) NO_RECLAIM false)
  else
  let s2 := stop_wait_for_proc_kill (negb (is_kill_pending o s1)) s1 in
  match os_vmstat o with
  | None => PrefixDone (PsiReturn s2)
  | Some vs =>
  let workingset_refault_file :=
    if negb (vs_workingset_refault vs =? 0) then vs_workingset_refault vs
    else vs_workingset_refault_file vs in
  match os_meminfo o with
  | None => PrefixDone (PsiReturn s2)
  | Some mi =>
  let '(cycle_after_kill, e3) :=
    post_kill_reset curr_tm vs workingset_refault_file (eng s2) in
  let swap_is_low :=
    if negb (swap_free_low_percentage c =? 0)
    then get_free_swap c mi <? Z.quot (mi_total_swap mi * swap_free_low_percentage c) 100
    else false in
  match reclaim_step c d curr_tm vs workingset_refault_file e3 with
  | None => PrefixDone (PsiNoKill (set_eng e3 s2) NO_RECLAIM swap_is_low)
  | Some (reclaim, direct_reclaim_duration_ms, e4) =>
      PrefixReached
        {| at_state := s2; at_engine := e4; at_curr_tm := curr_tm; at_vs := vs;
           at_mi := mi; at_workingset_refault_file := workingset_refault_file;
           at_cycle_after_kill := cycle_after_kill; at_swap_is_low := swap_is_low;
           at_reclaim := reclaim;
           at_direct_reclaim_duration_ms := direct_reclaim_duration_ms |}
  end end end end end.

(** Steps 6 to 10, down to the call of [find_and_kill_process]. *)
Definition mp_event_psi_suffix `{HeaderConstants} (o : os) (d : psi_event_data)
    (events : Z) (r : psi_reached) : psi_decision :=
  let s2 := at_state r in
  let c := cfg s2 in
  let '(e5, thrashing) :=
    update_thrashing c (at_curr_tm r) (at_vs r) (at_workingset_refault_file r)
      (at_engine r) in
  let x := {| in_data := d; in_events := events; in_curr_tm := at_curr_tm r;
              in_mi := at_mi r; in_vs := at_vs r;
              in_cycle_after_kill := at_cycle_after_kill r;
              in_swap_is_low := at_swap_is_low r; in_thrashing := thrashing;
              in_reclaim := at_reclaim r;
              in_direct_reclaim_duration_ms := at_direct_reclaim_duration_ms r |} in
  match psi_pass 0 o c x psi_locals_init e5 with
  | PassReturn e6 => PsiReturn (set_eng e6 s2)
  | PassDone l1 e6 =>
      if bool_decide (kill_reason l1 = NONE)
      then PsiNoKill (set_eng e6 s2) (at_reclaim r) (at_swap_is_low r)
      else if first_kill e6 then
        (* first_kill = false; watermarks.high_wmark = 0; goto update_watermarks *)
        let e7 :=
          with_watermarks {| high_wmark := 0;
                             low_wmark := low_wmark (watermarks e6);
                             min_wmark := min_wmark (watermarks e6) |}
            (wmark_update_tm e6)
            (with_flags (killing e6) (check_filecache e6) false e6) in
        match psi_pass 1 o c x l1 e7 with
        | PassReturn e8 => PsiReturn (set_eng e8 s2)
        | PassDone l2 e8 =>
            if bool_decide (kill_reason l2 = NONE)
            then PsiNoKill (set_eng e8 s2) (at_reclaim r) (at_swap_is_low r)
            else decide_kill x l2 (set_eng e8 s2)
        end
      else decide_kill x l1 (set_eng e6 s2)
  end.

(** [__mp_event_psi] up to the call of [find_and_kill_process]. *)
Definition mp_event_psi_decide `{HeaderConstants} (o : os) (d : psi_event_data)
    (events : Z) (s0 : lmkd) : psi_decision :=
  match mp_event_psi_prefix o d events s0 with
  | PrefixDone dec => dec
  | PrefixReached r => mp_event_psi_suffix o d events r
  end.

Definition decision_state (dec : psi_decision) : lmkd :=
  match dec with
  | PsiReturn s => s
  | PsiNoKill s _ _ => s
  | PsiKill s _ _ _ => s
  end.

(** The code below the label [no_kill]. *)
Definition no_kill_polling (events : Z) (reclaim : reclaim_state) (swap_is_low : bool)
    (pp : polling_params) (s : lmkd) : polling_params :=
  if is_waiting_for_kill s then set_update POLLING_PAUSE pp
  else
    let pp1 :=
      if negb (events =? 0) || killing (eng s) || bool_decide (reclaim = DIRECT_RECLAIM)
      then set_update POLLING_START pp else pp in
    set_polling_interval_ms
      (if swap_is_low || killing (eng s) then PSI_POLL_PERIOD_SHORT_MS
       else PSI_POLL_PERIOD_LONG_MS) pp1.

(** The bookkeeping after [find_and_kill_process] returned [pages_freed]. *)
Definition after_kill (c : tunables) (k : kill_decision) (pages_freed : Z)
    (e : engine) : engine :=
  if 0 <? pages_freed then
    let limit :=
      if kd_cut_thrashing_limit k
      then Z.quot (thrashing_limit e * (100 - thrashing_limit_decay_pct c)) 100
      else thrashing_limit e in
    with_thrashing (init_ws_refault e) (base_file_lru e) (thrashing_reset_tm e)
      (prev_thrash_growth e) limit 0
      (with_flags true (check_filecache e) (first_kill e) e)
  else e.

(** [__mp_event_psi].  [None] only when victim selection has no defined
    result. *)
Definition mp_event_psi `{HeaderConstants} (o : os) (d : psi_event_data)
    (events : Z) (pp : polling_params) (s : lmkd) : option (lmkd * polling_params) :=
  match mp_event_psi_decide o d events s with
  | PsiReturn s1 => Some (s1, pp)
  | PsiNoKill s1 reclaim swap_is_low =>
      Some (s1, no_kill_polling events reclaim swap_is_low pp s1)
  | PsiKill s1 reclaim swap_is_low k =>
      match find_and_kill_process o (kd_min_score_adj k) (kd_curr_tm k) s1 with
      | None => None
      | Some (pages_freed, s2) =>
          let s3 := set_eng (after_kill (cfg s2) k pages_freed (eng s2)) s2 in
          Some (s3, no_kill_polling events reclaim swap_is_low pp s3)
      end
  end.

(** ** The handler wrapper of the main loop *)

Definition resume_polling (pp : polling_params) (curr_tm : timespec) : polling_params :=
  {| poll_handler := paused_handler pp; paused_handler := None;
     poll_start_tm := curr_tm; last_poll_tm := last_poll_tm pp;
     polling_interval_ms := PSI_POLL_PERIOD_SHORT_MS; update := update pp |}.

Definition run_handler `{HeaderConstants} (o : os) (h : handler_info) (events : Z)
    (pp : polling_params) (s : lmkd) : option (lmkd * polling_params) :=
  match h with
  | vmpressure_hinfo level => mp_event_psi o (PsiLevel level) events pp s
  | kill_done_hinfo =>
      Some (stop_wait_for_proc_kill true s, set_update POLLING_RESUME pp)
  | kill_fail_hinfo =>
      Some (stop_wait_for_proc_kill false s, set_update POLLING_RESUME pp)
  end.

Definition call_handler `{HeaderConstants} (o : os) (h : handler_info)
    (pp : polling_params) (events : Z) (s : lmkd) : option (lmkd * polling_params) :=
  match run_handler o h events (set_update POLLING_DO_NOT_CHANGE pp) s with
  | None => None
  | Some (s1, pp1) =>
      let curr_tm := os_clock_after o in
      let pp2 :=
        if bool_decide (poll_handler pp1 = Some h) then
          {| poll_handler := poll_handler pp1; paused_handler := paused_handler pp1;
             poll_start_tm := poll_start_tm pp1; last_poll_tm := curr_tm;
             polling_interval_ms := polling_interval_ms pp1; update := update pp1 |}
        else pp1 in
      let pp3 :=
        match update pp2 with
        | POLLING_START =>
            {| poll_handler := Some h; paused_handler := paused_handler pp2;
               poll_start_tm := curr_tm; last_poll_tm := curr_tm;
               polling_interval_ms := polling_interval_ms pp2; update := update pp2 |}
        | POLLING_PAUSE =>
            {| poll_handler := None; paused_handler := Some h;
               poll_start_tm := poll_start_tm pp2; last_poll_tm := last_poll_tm pp2;
               polling_interval_ms := polling_interval_ms pp2; update := update pp2 |}
        | POLLING_RESUME => resume_polling pp2 curr_tm
        | POLLING_DO_NOT_CHANGE =>
            if bool_decide (poll_handler pp2 ≠ None)
               && (PSI_WINDOW_SIZE_MS <? get_time_diff_ms (poll_start_tm pp2) curr_tm)
            then
              {| poll_handler := None; paused_handler := paused_handler pp2;
                 poll_start_tm := poll_start_tm pp2; last_poll_tm := last_poll_tm pp2;
                 polling_interval_ms := polling_interval_ms pp2; update := update pp2 |}
            else pp2
        end in
      Some (s1, pp3)
  end.

(** ** The state at startup *)

Definition wakeup_info_init : wakeup_info :=
  {| wakeup_tm := timespec_zero; prev_wakeup_tm := timespec_zero;
     last_event_tm := timespec_zero; wakeups_since_event := 0;
     skipped_wakeups := 0 |}.

Definition engine_init (c : tunables) : engine :=
  {| init_ws_refault := 0;
     prev_workingset_refault := 0;
     base_file_lru := 0;
     init_pgscan_kswapd := 0;
     init_pgscan_direct := 0;
     init_pgrefill := 0;
     killing := false;
     thrashing_limit := thrashing_limit_pct c;
     wmark_update_tm := timespec_zero;
     wi := wakeup_info_init;
     thrashing_reset_tm := timespec_zero;
     prev_thrash_growth := 0;
     check_filecache := false;
     max_thrashing := 0;
     first_kill := true;
     prev_level := VMPRESS_LEVEL_LOW;
     watermarks := {| high_wmark := 0; low_wmark := 0; min_wmark := 0 |};
     direct_reclaim_start_tm := timespec_zero;
     kswapd_start_tm := timespec_zero;
     mp_event_count := 0 |}.

Definition lmkd_init `{HeaderConstants} (c : tunables) : lmkd :=
  {| cfg := c;
     reg := registry_init;
     kw := {| last_kill_pid_or_fd := -1; last_kill_tm := timespec_zero |};
     kc := kill_counters_init;
     eng := engine_init c;
     tgt := {| lowmem_adj := replicate (Z.to_nat MAX_TARGETS) 0;
               lowmem_minfree := replicate (Z.to_nat MAX_TARGETS) 0;
               lowmem_targets_size := 0;
               last_req_tm := timespec_zero |};
     trace := [] |}.

Definition polling_params_init : polling_params :=
  {| poll_handler := None; paused_handler := None;
     poll_start_tm := timespec_zero; last_poll_tm := timespec_zero;
     polling_interval_ms := 0; update := POLLING_DO_NOT_CHANGE |}.

(** ** Well-formedness of the registry and of the kill counters *)

(** The two indexes agree with the store: a record is linked in the chain
    of its pid's hash value and in the list of its score, nothing else is
    linked anywhere, no element is linked twice, and no two records carry
    the same pid. *)
Record reg_wf (r : registry) : Prop := {
  wf_linked : ∀ a rec, procs r !! a = Some rec →
    a ∈ cells (pidhash r) (pid_hashfn (pid rec)) ∧
    a ∈ cells (procadjslot_list r) (ADJTOSLOT (oomadj rec));
  wf_chain : ∀ h a, a ∈ cells (pidhash r) h →
    ∃ rec, procs r !! a = Some rec ∧ pid_hashfn (pid rec) = h;
  wf_slot : ∀ sl a, a ∈ cells (procadjslot_list r) sl →
    ∃ rec, procs r !! a = Some rec ∧ ADJTOSLOT (oomadj rec) = sl;
  wf_chain_nodup : ∀ h, NoDup (cells (pidhash r) h);
  wf_slot_nodup : ∀ sl, NoDup (cells (procadjslot_list r) sl);
  wf_pid_unique : ∀ a a' rec rec', procs r !! a = Some rec →
    procs r !! a' = Some rec' → pid rec = pid rec' → a = a';
}.

(** The two tables have their sizes and every entry of the index table is
    unused or points into [killcnt]. *)
Definition kc_wf (k : kill_counters) : Prop :=
  length (killcnt_idx k) = Z.to_nat ADJTOSLOT_COUNT ∧
  length (killcnt k) = Z.to_nat MAX_DISTINCT_OOM_ADJ ∧
  0 ≤ killcnt_free_idx k ∧
  Forall (λ idx, idx = KILLCNT_INVALID_IDX ∨ 0 ≤ idx < MAX_DISTINCT_OOM_ADJ)
         (killcnt_idx k).

(** The invariant of the daemon state that the properties below rest on. *)
Definition lmkd_wf (s : lmkd) : Prop := reg_wf (reg s) ∧ kc_wf (kc s).

(** The per-score kill counter that the two-level table stores for a
    score, 0 when no counter is assigned to it. *)
Definition score_killcnt (k : kill_counters) (adj : Z) : Z :=
  match array_get (killcnt_idx k) (ADJTOSLOT adj) with
  | Some idx =>
      if idx =? KILLCNT_INVALID_IDX then 0
      else default 0 (array_get (killcnt k) idx)
  | None => 0
  end.

Definition Zsum (l : list Z) : Z := foldr Z.add 0 l.

(** The sum of the per-score counters over the scores [lo .. hi]. *)
Definition killcnt_range_sum (k : kill_counters) (lo hi : Z) : Z :=
  Zsum (score_killcnt k <$> seqZ lo (hi - lo + 1)).

(** ** The daemon as a transition system *)

(** The operations that write the registry, the kill counters, the wait
    state or the TARGET tables: the control commands, the handlers of the
    kill wait, the two pressure handlers, and the invalidation that the
    watchdog thread performs. *)
Inductive lmkd_op :=
  | OpProcPrio (o : os) (params : lmk_procprio) (cred : ucred)
  | OpProcsPrio (o : os) (batch : list lmk_procprio) (cred : ucred)
  | OpProcRemove (p : Z) (cred : ucred)
  | OpProcPurge (cred : ucred)
  | OpTarget (o : os) (targets : list (Z * Z))
  | OpDataClose (peer : Z)                       (* ctrl_data_close: remove_claims *)
  | OpInvalidate (p : Z)                         (* watchdog: pid_invalidate *)
  | OpKillDone                                   (* kill_done_handler *)
  | OpKillFail                                   (* kill_fail_handler *)
  | OpKillTimeout                                (* mainloop: the wait timed out *)
  | OpPressure (o : os) (d : psi_event_data) (events : Z) (pp : polling_params)
  | OpVmpressureKill (o : os) (min_score : Z) (tm : timespec).
                                                 (* mp_event_common: find_and_kill_process *)

Definition run_op `{HeaderConstants} (op : lmkd_op) (s : lmkd) : option lmkd :=
  match op with
  | OpProcPrio o params cred => Some (cmd_procprio o params cred s)
  | OpProcsPrio o batch cred => Some (cmd_procs_prio o batch cred s)
  | OpProcRemove p cred => Some (cmd_procremove p cred s)
  | OpProcPurge cred => Some (cmd_procpurge cred s)
  | OpTarget o targets => Some (cmd_target o targets s)
  | OpDataClose peer => Some (remove_claims peer s)
  | OpInvalidate p => Some (pid_invalidate p s)
  | OpKillDone => Some (stop_wait_for_proc_kill true s)
  | OpKillFail => Some (stop_wait_for_proc_kill false s)
  | OpKillTimeout => Some (stop_wait_for_proc_kill false s)
  | OpPressure o d events pp => fst <$> mp_event_psi o d events pp s
  | OpVmpressureKill o min_score tm => snd <$> find_and_kill_process o min_score tm s
  end.

(** The states the daemon reaches from startup with the tunables [c].
    The last rule stands for the steps of all other code: [update_props]
    and the setup of the monitors, the mem-event listener,
    [mp_event_common] outside of its call of [find_and_kill_process], the
    kernel-poll handler.  They write neither the registry nor the kill
    counters; what they do to the rest of the state is left open. *)
Inductive reachable `{HeaderConstants} (c : tunables) : lmkd → Prop :=
  | reachable_init : reachable c (lmkd_init c)
  | reachable_step op s s' :
      reachable c s → run_op op s = Some s' → reachable c s'
  | reachable_other s s' :
      reachable c s → reg s' = reg s → kc s' = kc s → reachable c s'.

(** ** The min-score table of the specification *)

(** The min-score column of the table of step 9, as the specification
    words it: the reason, the breached watermark and the thrashing level
    determine the score; [vendor_score] is the score a vendor event
    carries. *)
Definition step9_table_min_score (c : tunables) (reason : kill_reasons)
    (w : zone_watermark) (thrashing : Z) (vendor_score : Z) : Z :=
  match reason with
  | NONE => 0
  | VENDOR_KILL _ => vendor_score
  | PRESSURE_AFTER_KILL => pressure_after_kill_min_score c
  | NOT_RESPONDING => 0
  | LOW_SWAP_AND_THRASHING | LOW_MEM_AND_SWAP =>
      if bool_decide (w ≠ WMARK_MIN) && (thrashing <? thrashing_critical_pct c)
      then PERCEPTIBLE_APP_ADJ + 1 else 0
  | LOW_MEM_AND_SWAP_UTIL => 0
  | LOW_MEM_AND_THRASHING | DIRECT_RECL_AND_THRASHING =>
      if thrashing <? thrashing_critical_pct c then PERCEPTIBLE_APP_ADJ + 1 else 0
  | DIRECT_RECL_STUCK => 0
  | LOW_FILECACHE_AFTER_THRASHING => PERCEPTIBLE_APP_ADJ + 1
  | LOW_MEM => lowmem_min_oom_score c
  end.

Definition vendor_score_of (d : psi_event_data) : Z :=
  match d with PsiLevel _ => 0 | VendorKillEvent _ score => score end.

(** ** Predicates used in the statements *)

(** The PROCPRIO arguments that [apply_proc_prio] refuses. *)
Definition procprio_invalid `{HeaderConstants} (params : lmk_procprio) : Prop :=
  pp_oomadj params < OOM_SCORE_ADJ_MIN ∨ OOM_SCORE_ADJ_MAX < pp_oomadj params ∨
  pp_ptype params < PROC_TYPE_FIRST ∨ PROC_TYPE_COUNT ≤ pp_ptype params.



(** The score under which [register_oom_adj_proc] files the record of a
    PROCPRIO: the oomadj of the command, or what the soft-limit ladder
    makes of it for an app under per-app memcg. *)
Definition procprio_score `{HeaderConstants} (c : tunables) (params : lmk_procprio) : Z :=
  if (pp_ptype params =? PROC_TYPE_APP) && per_app_memcg c
  then (memcg_score_and_mult (pp_oomadj params)).1
  else pp_oomadj params.

(** The PROCPRIO gets as far as the registry: the arguments are valid, the
    pid is a thread group leader as far as its status can be read, the
    oom_score_adj file can be opened, the userspace backend is active,
    and the soft limit path resolves where one is needed. *)
Definition procprio_reaches_registry `{HeaderConstants} (o : os)
    (params : lmk_procprio) (s : lmkd) : Prop :=
  ¬ procprio_invalid params ∧
  (∀ st tgid, os_proc_status o (pp_pid params) = Some st →
              st_tgid st = Some tgid → tgid = pp_pid params) ∧
  os_oom_score_adj_open o (pp_pid params) = true ∧
  use_inkernel_interface (cfg s) = false ∧
  ((pp_ptype params =? PROC_TYPE_APP) && per_app_memcg (cfg s) = true →
   is_Some (os_soft_limit_path o (pp_pid params))).

(** The conditions under which [kill_one_process] gets as far as a
    successful [reaper.kill]: the record is valid, the status file shows
    the pid as thread group leader with RSS and swap fields, the command
    line can be read, the hook frees nothing and the reaper reports
    success.  [rss_kb] is the VmRSS value read. *)
Definition kill_succeeds (o : os) (rec : proc) (rss_kb : Z) : Prop :=
  valid rec = true ∧
  (∃ swap_kb, os_proc_status o (pid rec) =
     Some {| st_tgid := Some (pid rec); st_vmrss := Some rss_kb;
             st_vmswap := Some swap_kb |}) ∧
  is_Some (os_proc_name o (pid rec)) ∧
  os_free_memory_before_kill_hook o (pid rec) ≤ 0 ∧
  os_reaper_kill o (pidfd rec) (pid rec) (uid rec) = 0.

(** The state in which a successful [kill_one_process] calls
    [pid_remove]: the wait is started, the kill issued and recorded. *)
Definition kill_committed (o : os) (rec : proc) (rss_kb : Z) (tm : timespec)
    (s : lmkd) : lmkd :=
  let s1 := start_wait_for_proc_kill o
              (if pidfd rec <? 0 then pid rec else pidfd rec) s in
  let s2 := emit (EvReaperKill (pidfd rec) (pid rec) (uid rec)) s1 in
  let s3 := set_last_kill_tm tm s2 in
  let s4 := set_kc (inc_killcnt (oomadj rec) (kc s3)) s3 in
  emit (EvNotifyKill (pid rec) (uid rec) rss_kb) s4.

(** The statics of the thrashing window: the carried growth, the two
    baselines, the window start and the thrashing limit. *)
Definition thrashing_window (e : engine) : Z * Z * Z * timespec * Z :=
  (prev_thrash_growth e, init_ws_refault e, base_file_lru e, thrashing_reset_tm e,
   thrashing_limit e).

(** ** Concrete instances for the examples *)

(** Header constants with which the examples are evaluated. *)
Definition example_headers : HeaderConstants :=
  {| MAX_TARGETS := 6; PROPERTY_VALUE_MAX := 92; PROC_TYPE_FIRST := 0;
     PROC_TYPE_APP := 0; PROC_TYPE_COUNT := 2; VENDOR_KILL_REASON_END := 999 |}.

(** The defaults of [update_props] on a device that is not low-RAM, on a
    kernel with pidfd support and 4 kB pages. *)
Definition example_tunables : tunables :=
  {| use_inkernel_interface := false; has_inkernel_module := false;
     pidfd_supported := true; per_app_memcg := false;
     kill_heaviest_task := false; kill_timeout_ms := 100;
     pressure_after_kill_min_score := 0; swap_free_low_percentage := 10;
     thrashing_limit_pct := 100; thrashing_limit_decay_pct := 10;
     thrashing_critical_pct := 300; swap_util_max := 100;
     filecache_min_kb := 0; direct_reclaim_threshold_ms := 0;
     swap_compression_ratio := 1; lowmem_min_oom_score := 701;
     memevent_listener := false; mem_event_update_zoneinfo_supported := false;
     page_k := 4 |}.

Definition at_ms (ms : Z) : timespec :=
  {| tv_sec := ms `div` 1000; tv_nsec := (ms `mod` 1000) * 1000000 |}.

(** A process that is alive, with 4000 kB resident. *)
Definition alive (p : Z) : option proc_status :=
  Some {| st_tgid := Some p; st_vmrss := Some 4000; st_vmswap := Some 0 |}.

(** An operating system in which every call succeeds, at the time [now]
    (in ms), with the given proc file contents. *)
Definition example_os (now : Z) (vs : option vmstat) (mi : option meminfo)
    (zi : nat → option zoneinfo) (status : Z → option proc_status) : os :=
  {| os_clock := Some (at_ms now);
     os_clock_after := at_ms now;
     os_proc_exists := λ _, true;
     os_proc_status := status;
     os_proc_statm := λ _, Some (Some 1000);
     os_proc_name := λ _, Some "app";
     os_oom_score_adj_open := λ _, true;
     os_soft_limit_path := λ _, None;
     os_pidfd_open := λ p, p + 1000;
     os_calloc_ok := true;
     os_epoll_add_ok := λ _, true;
     os_reaper_kill := λ _ _ _, 0;
     os_free_memory_before_kill_hook := λ _, 0;
     os_vmstat := vs;
     os_meminfo := mi;
     os_zoneinfo := zi;
     os_psi_mem := λ _, Some false |}.

Definition example_vmstat (kswapd : Z) : vmstat :=
  {| vs_nr_free_pages := 0; vs_nr_inactive_file := 5000; vs_nr_active_file := 5000;
     vs_workingset_refault := 0; vs_workingset_refault_file := 700;
     vs_pgscan_kswapd := kswapd; vs_pgscan_direct := 0;
     vs_pgscan_direct_throttle := 0; vs_pgrefill := 0 |}.

Definition example_meminfo (free free_swap : Z) : meminfo :=
  {| mi_nr_free_pages := free; mi_shmem := 100; mi_total_swap := 100000;
     mi_free_swap := free_swap; mi_active_anon := 20000; mi_inactive_anon := 20000;
     mi_cma_free := 0; mi_easy_available := free + 5000 |}.

Definition one_zone (mn lo hi : Z) : zoneinfo :=
  [[ {| zz_min := mn; zz_low := lo; zz_high := hi; zz_present := 1;
        zz_max_protection := 0 |} ]].

(** Plenty of free memory and swap, kswapd at work, watermarks
    1000/2000/3000 pages. *)
Definition os_calm (now : Z) : os :=
  example_os now (Some (example_vmstat 50)) (Some (example_meminfo 9000 50000))
    (λ _, Some (one_zone 1000 2000 3000)) alive.

(** Ten seconds later: 1500 free pages, 5 % of the swap free, and the
    zone watermarks raised to 1600/2400/3200 pages. *)
Definition os_tight : os :=
  example_os 110000 (Some (example_vmstat 80)) (Some (example_meminfo 1500 5000))
    (λ _, Some (one_zone 1600 2400 3200)) alive.


(** As [os_calm], but /proc/10/status can no longer be read. *)
Definition os_pid10_gone (now : Z) : os :=
  example_os now (Some (example_vmstat 50)) (Some (example_meminfo 9000 50000))
    (λ _, Some (one_zone 1000 2000 3000)) (λ p, if p =? 10 then None else alive p).

Definition example_cred : ucred := {| cred_pid := 1; cred_uid := 1000 |}.

Definition example_procprio (p adj : Z) : lmk_procprio :=
  {| pp_pid := p; pp_uid := 10000 + p; pp_oomadj := adj; pp_ptype := 0 |}.

(** Startup, then PROCPRIO for pid 20 at score 800 and pid 10 at score 900. *)
Definition state_two_procs : lmkd :=
  let H := example_headers in
  cmd_procprio (os_calm 99000) (example_procprio 10 900) example_cred
    (cmd_procprio (os_calm 99000) (example_procprio 20 800) example_cred
       (lmkd_init example_tunables)).

(** Startup, then a MEDIUM event at 100 s that finds the memory calm. *)
Definition state_after_calm_event : lmkd :=
  let H := example_headers in
  decision_state
    (mp_event_psi_decide (os_calm 100000) (PsiLevel VMPRESS_LEVEL_MEDIUM) 1
       (lmkd_init example_tunables)).

(** Two registered processes, then a CRITICAL event at 100 s: pid 10 is
    killed and the daemon waits on its pidfd. *)
Definition state_kill_in_flight : option (lmkd * polling_params) :=
  let H := example_headers in
  call_handler (os_calm 100000) (vmpressure_hinfo VMPRESS_LEVEL_CRITICAL)
    polling_params_init 1 state_two_procs.

(** One kill at score 900 counted. *)
Definition counters_one_kill : kill_counters := inc_killcnt 900 kill_counters_init.

(** ** Proof automation *)

(** Case split on the equality of two table keys; in the equal case the
    second is replaced by the first everywhere. *)
Ltac case_key k k' :=
  destruct (decide (k = k')) as [Heq|Hh]; [try rewrite <- Heq in *|].

(** ** Vocabulary for the properties of the trace *)

(** The calls that [stop_wait_for_proc_kill], [start_wait_for_proc_kill]
    and [pid_remove] make. *)
Definition is_wait_event (ev : event) : bool :=
  match ev with
  | EvClose _ | EvEpollAdd _ | EvEpollDel _ => true
  | _ => false
  end.

Definition is_reaper_kill (ev : event) : bool :=
  match ev with EvReaperKill _ _ _ => true | _ => false end.



(** The guards that [kill_one_process] passes before it calls
    [reaper.kill] on a record. *)
Definition kill_attempted (o : os) (rec : proc) : bool :=
  valid rec &&
  match os_proc_status o (pid rec) with
  | Some st =>
      match st_tgid st, st_vmrss st, st_vmswap st with
      | Some tgid, Some _, Some _ =>
          (tgid =? pid rec) && bool_decide (is_Some (os_proc_name o (pid rec)))
          && (os_free_memory_before_kill_hook o (pid rec) <=? 0)
      | _, _, _ => false
      end
  | None => false
  end.
(** The RSS that [kill_one_process] reads for a pid, in kB. *)
Definition status_rss_kb (o : os) (p : Z) : Z :=
  default 0 (os_proc_status o p ≫= st_vmrss).

(** [s'] has no record, chain element or score-list element that [s] has
    not, the records it has are as they were, and the chains and lists
    keep their order. *)
Definition registry_shrinks (r r' : registry) : Prop :=
  procs r' ⊆ procs r ∧
  (∀ h, cells (pidhash r') h `sublist_of` cells (pidhash r) h) ∧
  (∀ slot, cells (procadjslot_list r') slot `sublist_of` cells (procadjslot_list r) slot).


(** The reaper calls of a piece of trace are calls on records of [r]
    that passed the guards and have a score in the range. *)
Definition signals_within (o : os) (min_score : Z) (r : registry) (new : list event) : Prop :=
  ∀ fd p u, EvReaperKill fd p u ∈ new →
    ∃ a rec, procs r !! a = Some rec ∧ pid rec = p ∧ pidfd rec = fd ∧ uid rec = u ∧
             kill_attempted o rec = true ∧ min_score ≤ oomadj rec ≤ OOM_SCORE_ADJ_MAX.

(** A record that [kill_one_process] gives up on before the kill: the
    watchdog invalidated it, its status file cannot be read or has no
    Tgid, the Tgid is not the pid (the pid was reused by a thread), the
    VmRSS or VmSwap field is missing (a zombie), or the command line
    cannot be read. *)
Definition record_stale (o : os) (rec : proc) : Prop :=
  valid rec = false ∨
  os_proc_status o (pid rec) = None ∨
  (∃ st, os_proc_status o (pid rec) = Some st ∧
         (st_tgid st = None ∨ (∃ tgid, st_tgid st = Some tgid ∧ tgid ≠ pid rec) ∨
          st_vmrss st = None ∨ st_vmswap st = None)) ∨
  os_proc_name o (pid rec) = None.


(** ** Vocabulary for the kill counters *)

(** The kill counters after kills at the scores [adjs], the latest
    first. *)
Definition kills_counted (adjs : list Z) : kill_counters :=
  foldr inc_killcnt kill_counters_init adjs.

(** How many of the kills were at the score [adj]. *)
Definition count_score (adjs : list Z) (adj : Z) : Z :=
  Z.of_nat (length (filter (λ a, a = adj) adjs)).

(** The two-level table holds exactly the counts of the kills [adjs]:
    the scores killed at have distinct entries of [killcnt], assigned in
    the order of their first kill, and the other scores have none. *)
Definition kc_exact (k : kill_counters) (adjs : list Z) : Prop :=
  kc_wf k ∧
  killcnt_free_idx k = Z.of_nat (length (remove_dups adjs)) ∧
  (∀ adj, OOM_SCORE_ADJ_MIN ≤ adj ≤ OOM_SCORE_ADJ_MAX → adj ∉ adjs →
     killcnt_idx k !! Z.to_nat (ADJTOSLOT adj) = Some KILLCNT_INVALID_IDX) ∧
  (∀ adj, OOM_SCORE_ADJ_MIN ≤ adj ≤ OOM_SCORE_ADJ_MAX → adj ∈ adjs →
     ∃ idx, killcnt_idx k !! Z.to_nat (ADJTOSLOT adj) = Some idx ∧
            0 ≤ idx < killcnt_free_idx k ∧
            killcnt k !! Z.to_nat idx = Some (count_score adjs adj)) ∧
  (∀ adj adj' idx,
     OOM_SCORE_ADJ_MIN ≤ adj ≤ OOM_SCORE_ADJ_MAX →
     OOM_SCORE_ADJ_MIN ≤ adj' ≤ OOM_SCORE_ADJ_MAX →
     killcnt_idx k !! Z.to_nat (ADJTOSLOT adj) = Some idx →
     killcnt_idx k !! Z.to_nat (ADJTOSLOT adj') = Some idx →
     idx ≠ KILLCNT_INVALID_IDX → adj = adj').

(** ** Vocabulary for the scan of a score list *)

(** The scan of [proc_get_heaviest], started in the state [s0], after it
    visited the elements [seen]: the records it removed are those of
    [seen] whose statm cannot be read, [hs_maxsize] bounds the sizes seen
    and [hs_maxprocp] is a record of that size. *)
Definition scan_inv `{HeaderConstants} (o : os) (s0 : lmkd) (seen : list addr)
    (h : heaviest_scan) : Prop :=
  lmkd_wf (hs_state h) ∧
  (∀ b, b ∉ seen → procs (reg (hs_state h)) !! b = procs (reg s0) !! b) ∧
  (∀ b rec, procs (reg (hs_state h)) !! b = Some rec → procs (reg s0) !! b = Some rec) ∧
  (∀ b rec, b ∈ seen → procs (reg s0) !! b = Some rec →
            (procs (reg (hs_state h)) !! b = None ↔ proc_get_size o (pid rec) < 0)) ∧
  0 ≤ hs_maxsize h ∧
  (∀ b rec, b ∈ seen → procs (reg s0) !! b = Some rec →
            proc_get_size o (pid rec) ≤ hs_maxsize h) ∧
  match hs_maxprocp h with
  | Some a => a ∈ seen ∧ 0 < hs_maxsize h ∧
              ∃ rec, procs (reg s0) !! a = Some rec ∧
                     procs (reg (hs_state h)) !! a = Some rec ∧
                     proc_get_size o (pid rec) = hs_maxsize h
  | None => hs_maxsize h = 0
  end.

(** ** More example states *)

(** Startup, then PROCPRIO at score 900 for the pids 30, 20 and 10. *)
Definition state_three_at_900 : lmkd :=
  let H := example_headers in
  cmd_procprio (os_calm 99000) (example_procprio 10 900) example_cred
    (cmd_procprio (os_calm 99000) (example_procprio 20 900) example_cred
       (cmd_procprio (os_calm 99000) (example_procprio 30 900) example_cred
          (lmkd_init example_tunables))).

(** As [os_calm], with 500 resident pages for pid 10, 700 for pid 30 and
    an unreadable statm for pid 20. *)
Definition os_sizes (now : Z) : os :=
  let o := os_calm now in
  {| os_clock := os_clock o;
     os_clock_after := os_clock_after o;
     os_proc_exists := os_proc_exists o;
     os_proc_status := os_proc_status o;
     os_proc_statm := λ p, if p =? 10 then Some (Some 500)
                           else if p =? 20 then None
                           else Some (Some 700);
     os_proc_name := os_proc_name o;
     os_oom_score_adj_open := os_oom_score_adj_open o;
     os_soft_limit_path := os_soft_limit_path o;
     os_pidfd_open := os_pidfd_open o;
     os_calloc_ok := os_calloc_ok o;
     os_epoll_add_ok := os_epoll_add_ok o;
     os_reaper_kill := os_reaper_kill o;
     os_free_memory_before_kill_hook := os_free_memory_before_kill_hook o;
     os_vmstat := os_vmstat o;
     os_meminfo := os_meminfo o;
     os_zoneinfo := os_zoneinfo o;
     os_psi_mem := os_psi_mem o |}.

(** ** Vocabulary for the ownership of records *)

(** The registry commands, sent by the client with the credentials
    [cred]. *)
Definition client_command (cred : ucred) (op : lmkd_op) : Prop :=
  match op with
  | OpProcPrio _ _ cred' | OpProcsPrio _ _ cred' | OpProcRemove _ cred'
  | OpProcPurge cred' => cred' = cred
  | _ => False
  end.

(** ** Vocabulary for the engine statics *)



(** ** Vocabulary for the bounds of the registry *)

(** Every record has a score between -1000 and 1000. *)
Definition scores_in_range (r : registry) : Prop :=
  map_Forall (λ _ rec, OOM_SCORE_ADJ_MIN ≤ oomadj rec ≤ OOM_SCORE_ADJ_MAX) (procs r).


(** ** The watchdog *)

(** What a [struct proc *] into a score list points to: the anchor of the
    list or a record. *)
Inductive adj_link := LinkHead | LinkProc (a : addr).

(** The loop of [proc_adj_prev], from the tail towards the head: [back]
    holds the element [curr] and the elements before it, nearest first.
    The result is [curr->prev] of the first element with the pid, or
    NULL ([Some None]) when the head is reached.  [None] stands for the
    read of a record that is not allocated. *)
Fixpoint proc_adj_prev_walk (ps : gmap addr proc) (p : Z) (back : list addr)
  : option (option adj_link) :=
  match back with
  | [] => Some None
  | a :: rest =>
      match ps !! a with
      | None => None
      | Some rec =>
          if decide (pid rec = p)
          then Some (Some (match rest with [] => LinkHead | b :: _ => LinkProc b end))
          else proc_adj_prev_walk ps p rest
      end
  end.

(** [proc_adj_prev].  For an empty list [adjslot_tail] returns NULL, which
    the loop dereferences: [None]. *)
Definition proc_adj_prev (r : registry) (oomadj p : Z) : option (option adj_link) :=
  match cells (procadjslot_list r) (ADJTOSLOT oomadj) with
  | [] => None
  | l => proc_adj_prev_walk (procs r) p (reverse l)
  end.

(** [find_victim]: [Some None] for false, [Some (Some target)] for true
    with the copy of the record. *)
Definition find_victim (r : registry) (oom_score prev_pid : Z) : option (option proc) :=
  let tail := LinkProc <$> proc_adj_tail r oom_score in
  let procp :=
    if prev_pid =? 0 then Some tail
    else
      match proc_adj_prev r oom_score prev_pid with
      | None => None
      | Some None => Some tail
      | Some (Some l) => Some (Some l)
      end in
  match procp with
  | None => None
  | Some None | Some (Some LinkHead) => Some None
  | Some (Some (LinkProc a)) =>
      match procs r !! a with
      | None => None
      | Some rec => Some (Some rec)
      end
  end.

(** The loop of [watchdog_callback], run while the main thread is stuck
    and the registry does not change.  [kill_sync] is
    [reaper.kill({pidfd, pid, uid}, true)].  The result holds the targets
    whose kill failed, in the order of the calls, and the target that was
    killed, if one was. *)
Fixpoint watchdog_loop (fuel : nat) (kill_sync : Z → Z → Z → Z) (r : registry)
    (oom_score prev_pid : Z) (tried : list proc) : option (list proc * option proc) :=
  match fuel with
  | O => None
  | S fuel' =>
      if oom_score <? 0 then Some (tried, None)
      else
        match find_victim r oom_score prev_pid with
        | None => None
        | Some None => watchdog_loop fuel' kill_sync r (oom_score - 1) 0 tried
        | Some (Some target) =>
            if valid target then
              if kill_sync (pidfd target) (pid target) (uid target) =? 0
              then Some (tried, Some target)
              else watchdog_loop fuel' kill_sync r oom_score (pid target) (tried ++ [target])
            else watchdog_loop fuel' kill_sync r oom_score (pid target) tried
        end
  end.

Definition watchdog_callback (fuel : nat) (kill_sync : Z → Z → Z → Z) (s : lmkd)
  : option (list proc * option proc * lmkd) :=
  match watchdog_loop fuel kill_sync (reg s) OOM_SCORE_ADJ_MAX 0 [] with
  | None => None
  | Some (tried, None) => Some (tried, None, s)
  | Some (tried, Some target) => Some (tried, Some target, pid_invalidate (pid target) s)
  end.

(** *** The order in which the watchdog looks at the records *)

(** The records of a score, from the tail of the list to its head. *)
Definition score_candidates (r : registry) (score : Z) : list proc :=
  omap (λ a, procs r !! a) (reverse (cells (procadjslot_list r) (ADJTOSLOT score))).

(** The records of the scores [n - 1] down to 0. *)
Fixpoint candidates_below (r : registry) (n : nat) : list proc :=
  match n with
  | O => []
  | S n' => score_candidates r (Z.of_nat n') ++ candidates_below r n'
  end.

(** The scan of a list of candidates: the invalid ones are passed over,
    the valid ones are killed one by one until a kill succeeds. *)
Fixpoint watchdog_scan (kill_sync : Z → Z → Z → Z) (cands : list proc)
  : list proc * option proc :=
  match cands with
  | [] => ([], None)
  | t :: rest =>
      if valid t then
        if kill_sync (pidfd t) (pid t) (uid t) =? 0 then ([], Some t)
        else let '(tried, killed) := watchdog_scan kill_sync rest in (t :: tried, killed)
      else watchdog_scan kill_sync rest
  end.

(** The iterations the loop makes over the scores [n - 1] down to 0 when
    no kill succeeds. *)
Fixpoint watchdog_steps (r : registry) (n : nat) : nat :=
  match n with
  | O => O
  | S n' => S (length (cells (procadjslot_list r) (ADJTOSLOT (Z.of_nat n')))) + watchdog_steps r n'
  end.

(** ** Vocabulary for TARGET *)

(** What the [snprintf] calls of [cmd_target] print for the targets, one
    after the other. *)
Definition target_pieces (targets : list (Z * Z)) : string :=
  foldr (λ t acc, target_piece t.1 t.2 +:+ acc) "" targets.

(** The levels as minfree:adj pairs, separated by commas. *)
Definition minfree_levels (targets : list (Z * Z)) : string :=
  String.concat "," ((λ t, pretty t.1 +:+ ":" +:+ pretty t.2) <$> targets).

(** ** The tunables: [update_props] *)

(** The system properties as [update_props] reads them.  A lookup gives
    [None] for a property that is not set or cannot be parsed, where
    [property_get_int32] and its like return the default. *)
Record properties := {
  device_config_int32 : string → option Z;   (* persist.device_config.lmkd_native.<name> *)
  ro_lmk_int32 : string → option Z;          (* ro.lmk.<name> *)
  device_config_int64 : string → option Z;
  ro_lmk_int64 : string → option Z;
  device_config_bool : string → option bool;
  ro_lmk_bool : string → option bool;
  ro_config_low_ram : option bool;
  ro_config_per_app_memcg : option bool;
  update_props_hook_ok : bool;               (* lmkd_update_props_hook() *)
}.

(** [GET_LMK_PROPERTY(type, name, def)]. *)
Definition GET_LMK_PROPERTY {A} (device_config ro_lmk : string → option A)
    (name : string) (def : A) : A :=
  default (default def (ro_lmk name)) (device_config name).

Definition clamp (low high value : Z) : Z := Z.max (Z.min value high) low.

(** The conversion of an [int64_t] or [unsigned long] to [int]. *)
Definition int_of_long (v : Z) : Z :=
  let w := v mod 2 ^ 32 in if w <? 2 ^ 31 then w else w - 2 ^ 32.

(** The conversion of an [int32_t] to [unsigned long]. *)
Definition ulong_of_int32 (v : Z) : Z := v mod 2 ^ 64.

Definition DEF_LOW_SWAP : Z := 10.
Definition DEF_THRASHING_LOWRAM : Z := 30.
Definition DEF_THRASHING : Z := 100.
Definition DEF_THRASHING_DECAY_LOWRAM : Z := 50.
Definition DEF_THRASHING_DECAY : Z := 10.
Definition DEF_DIRECT_RECL_THRESH_MS : Z := 0.
Definition DEF_SWAP_COMP_RATIO : Z := 1.
Definition DEF_LOWMEM_MIN_SCORE : Z := PREVIOUS_APP_ADJ + 1.

(** [update_props], as far as it writes tunables of the model: the return
    value and the tunables.  [c0] gives the tunables that other code
    sets.  [None] stands for the signed overflow of
    [thrashing_limit_pct * 3]. *)
Definition update_props (p : properties) (c0 : tunables) : option (bool * tunables) :=
  let int32 := GET_LMK_PROPERTY (device_config_int32 p) (ro_lmk_int32 p) in
  let int64 := GET_LMK_PROPERTY (device_config_int64 p) (ro_lmk_int64 p) in
  let bool := GET_LMK_PROPERTY (device_config_bool p) (ro_lmk_bool p) in
  let kill_heaviest := bool "kill_heaviest_task" false in
  let low_ram_device := default false (ro_config_low_ram p) in
  let kill_timeout := ulong_of_int32 (int32 "kill_timeout_ms" 100) in
  let after_kill_min_score :=
    int_of_long (ulong_of_int32 (int32 "pressure_after_kill_min_score" 0)) in
  let memcg := default low_ram_device (ro_config_per_app_memcg p) in
  let swap_free_low := clamp 0 100 (int32 "swap_free_low_percentage" DEF_LOW_SWAP) in
  let thrashing_limit :=
    Z.max 0 (int32 "thrashing_limit"
               (if low_ram_device then DEF_THRASHING_LOWRAM else DEF_THRASHING)) in
  let thrashing_decay :=
    clamp 0 100 (int32 "thrashing_limit_decay"
                   (if low_ram_device then DEF_THRASHING_DECAY_LOWRAM
                    else DEF_THRASHING_DECAY)) in
  if 2 ^ 31 <=? thrashing_limit * 3 then None
  else
    let thrashing_critical :=
      Z.max 0 (int32 "thrashing_limit_critical" (thrashing_limit * 3)) in
    let util_max := clamp 0 100 (int32 "swap_util_max" 100) in
    let filecache := int64 "filecache_min_kb" 0 in
    let direct_reclaim :=
      int_of_long (int64 "direct_reclaim_threshold_ms" DEF_DIRECT_RECL_THRESH_MS) in
    let compression :=
      int_of_long (int64 "swap_compression_ratio" DEF_SWAP_COMP_RATIO) in
    let lowmem_min :=
      Z.max (PERCEPTIBLE_APP_ADJ + 1)
            (int32 "lowmem_min_oom_score" DEF_LOWMEM_MIN_SCORE) in
    Some (update_props_hook_ok p,
          {| use_inkernel_interface := use_inkernel_interface c0;
             has_inkernel_module := has_inkernel_module c0;
             pidfd_supported := pidfd_supported c0;
             per_app_memcg := memcg;
             kill_heaviest_task := kill_heaviest;
             kill_timeout_ms := kill_timeout;
             pressure_after_kill_min_score := after_kill_min_score;
             swap_free_low_percentage := swap_free_low;
             thrashing_limit_pct := thrashing_limit;
             thrashing_limit_decay_pct := thrashing_decay;
             thrashing_critical_pct := thrashing_critical;
             swap_util_max := util_max;
             filecache_min_kb := filecache;
             direct_reclaim_threshold_ms := direct_reclaim;
             swap_compression_ratio := compression;
             lowmem_min_oom_score := lowmem_min;
             memevent_listener := memevent_listener c0;
             mem_event_update_zoneinfo_supported := mem_event_update_zoneinfo_supported c0;
             page_k := page_k c0 |}).

(** The values that the property functions return fit their types. *)
Definition properties_typed (p : properties) : Prop :=
  (∀ name v, device_config_int32 p name = Some v → - 2 ^ 31 ≤ v < 2 ^ 31) ∧
  (∀ name v, ro_lmk_int32 p name = Some v → - 2 ^ 31 ≤ v < 2 ^ 31) ∧
  (∀ name v, device_config_int64 p name = Some v → - 2 ^ 63 ≤ v < 2 ^ 63) ∧
  (∀ name v, ro_lmk_int64 p name = Some v → - 2 ^ 63 ≤ v < 2 ^ 63).

(** No property is set. *)
Definition no_properties : properties :=
  {| device_config_int32 := λ _, None; ro_lmk_int32 := λ _, None;
     device_config_int64 := λ _, None; ro_lmk_int64 := λ _, None;
     device_config_bool := λ _, None; ro_lmk_bool := λ _, None;
     ro_config_low_ram := None; ro_config_per_app_memcg := None;
     update_props_hook_ok := true |}.

(** ** The data connections *)

Definition MAX_DATA_CONN : Z := 3.

(** [struct sock_event_handler_info], without the handler. *)
Record sock_event_handler_info := {
  sock : Z;
  sock_pid : Z;               (* the pid of the peer, as of its last packet *)
  async_event_mask : Z;
}.

Record ctrl := {
  data_sock : list sock_event_handler_info;
  maxevents : Z;
}.

Definition set_sock (v : Z) (d : sock_event_handler_info) : sock_event_handler_info :=
  {| sock := v; sock_pid := sock_pid d; async_event_mask := async_event_mask d |}.

Definition set_async_event_mask (v : Z) (d : sock_event_handler_info)
  : sock_event_handler_info :=
  {| sock := sock d; sock_pid := sock_pid d; async_event_mask := v |}.

(** The loop of [get_free_dsock] from the index [i] on. *)
Fixpoint get_free_dsock_from (i : Z) (ds : list sock_event_handler_info) : Z :=
  match ds with
  | [] => -1
  | d :: ds' => if sock d <? 0 then i else get_free_dsock_from (i + 1) ds'
  end.

Definition get_free_dsock (cs : ctrl) : Z := get_free_dsock_from 0 (data_sock cs).

(** [ctrl_data_close].  [None] stands for an index outside of
    [data_sock]. *)
Definition ctrl_data_close (dsock_idx : Z) (st : ctrl * lmkd) : option (ctrl * lmkd) :=
  let '(cs, s) := st in
  if dsock_idx <? 0 then None
  else
    match data_sock cs !! Z.to_nat dsock_idx with
    | None => None
    | Some d =>
        let s1 := emit (EvEpollDel (sock d)) s in
        let s2 := emit (EvClose (sock d)) s1 in
        let cs1 := {| data_sock := <[Z.to_nat dsock_idx := set_sock (-1) d]> (data_sock cs);
                      maxevents := maxevents cs - 1 |} in
        Some (cs1, remove_claims (sock_pid d) s2)
    end.

(** [ctrl_connect_handler]; [accepted] is what [accept] returns and
    [epoll_add_ok] tells whether [epoll_ctl] takes the new socket. *)
Definition ctrl_connect_handler (accepted : Z) (epoll_add_ok : bool)
    (st : ctrl * lmkd) : option (ctrl * lmkd) :=
  let free_dsock_idx := get_free_dsock st.1 in
  let dropped :=
    if free_dsock_idx <? 0
    then (λ st1, (st1, 0)) <$>
           foldl (λ acc i, acc ≫= ctrl_data_close i) (Some st) (seqZ 0 MAX_DATA_CONN)
    else Some (st, free_dsock_idx) in
  match dropped with
  | None => None
  | Some ((cs, s), idx) =>
      match data_sock cs !! Z.to_nat idx with
      | None => None
      | Some d =>
          let with_sock (d' : sock_event_handler_info) :=
            {| data_sock := <[Z.to_nat idx := d']> (data_sock cs);
               maxevents := maxevents cs |} in
          if accepted <? 0 then Some (with_sock (set_sock accepted d), s)
          else
            let d1 := set_async_event_mask 0 (set_sock accepted d) in
            let s1 := emit (EvEpollAdd accepted) s in
            if epoll_add_ok
            then Some ({| data_sock := data_sock (with_sock d1);
                          maxevents := maxevents cs + 1 |}, s1)
            else ctrl_data_close idx (with_sock d1, s1)
      end
  end.

(** The peers whose claims a registry record can lose to
    [remove_claims]. *)
Definition release_claims (peers : list Z) (rec : proc) : proc :=
  if bool_decide (reg_pid rec ∈ peers) then set_reg_pid 0 rec else rec.

(** ** More proof automation *)


(** The two outcomes of [apply_proc_prio] for the registry. *)
Ltac prio_stays :=
  eexists; split; [|split; [|split; [|split; [|left; reflexivity]]]]; done.
Ltac prio_registers :=
  eexists; split; [|split; [|split; [|split; [|right; split; [done|]; eexists; reflexivity]]]];
  done.

(** * Properties *)

(** ** The registry: chains, score lists and the invariant *)

Section Registry.

Lemma cells_insert_eq m k l : cells (<[k:=l]> m) k = l.
Proof. unfold cells. by rewrite lookup_insert_eq. Qed.

Lemma cells_insert_ne m k k' l : k ≠ k' → cells (<[k:=l]> m) k' = cells m k'.
Proof. intros. unfold cells. by rewrite lookup_insert_ne. Qed.

Lemma cells_unlink m a k : cells (unlink a <$> m) k = unlink a (cells m k).
Proof. unfold cells. rewrite lookup_fmap. by destruct (m !! k). Qed.

Lemma cells_empty k : cells ∅ k = [].
Proof. unfold cells. by rewrite lookup_empty. Qed.

Lemma elem_of_unlink a x l : x ∈ unlink a l ↔ x ∈ l ∧ x ≠ a.
Proof. unfold unlink. rewrite list_elem_of_filter. tauto. Qed.

Lemma NoDup_unlink a l : NoDup l → NoDup (unlink a l).
Proof. apply NoDup_filter. Qed.

Lemma not_elem_of_unlink a l : a ∉ unlink a l.
Proof. rewrite elem_of_unlink. tauto. Qed.

Lemma chain_find_Some ps p l a rec :
  chain_find ps p l = Some (a, rec) → a ∈ l ∧ ps !! a = Some rec ∧ pid rec = p.
Proof.
  induction l as [|b l IH]; [done|]. cbn.
  destruct (ps !! b) as [r|] eqn:Hb.
  - destruct (decide (pid r = p)) as [Hp|Hp].
    + intros [= <- <-]. split; [left|done].
    + intros Hf. destruct (IH Hf) as (? & ? & ?). split; [by right|done].
  - intros Hf. destruct (IH Hf) as (? & ? & ?). split; [by right|done].
Qed.

Lemma chain_find_None ps p l a rec :
  chain_find ps p l = None → a ∈ l → ps !! a = Some rec → pid rec ≠ p.
Proof.
  induction l as [|b l IH]; [by rewrite elem_of_nil|]. cbn.
  intros Hf Hin Ha. apply elem_of_cons in Hin as [->|Hin].
  - rewrite Ha in Hf. by destruct (decide (pid rec = p)).
  - apply IH; [|done..].
    destruct (ps !! b) as [r|]; [|done].
    by destruct (decide (pid r = p)).
Qed.

Lemma chain_find_unique ps l a rec :
  a ∈ l → ps !! a = Some rec →
  (∀ b rec', b ∈ l → ps !! b = Some rec' → pid rec' = pid rec → b = a) →
  chain_find ps (pid rec) l = Some (a, rec).
Proof.
  induction l as [|b l IH]; [by rewrite elem_of_nil|]. cbn.
  intros Hin Ha Huniq.
  destruct (ps !! b) as [r|] eqn:Hb.
  - destruct (decide (pid r = pid rec)) as [Hp|Hp].
    + assert (b = a) as -> by (eapply Huniq; [left|done..]).
      rewrite Ha in Hb. by injection Hb as <-.
    + apply elem_of_cons in Hin as [->|Hin]; [congruence|].
      apply IH; [done..|]. intros b' rec' Hb' ??. eapply Huniq; [by right|done..].
  - apply elem_of_cons in Hin as [->|Hin]; [congruence|].
    apply IH; [done..|]. intros b' rec' Hb' ??. eapply Huniq; [by right|done..].
Qed.

Lemma pid_lookup_Some r p a rec :
  pid_lookup r p = Some (a, rec) →
  a ∈ cells (pidhash r) (pid_hashfn p) ∧ procs r !! a = Some rec ∧ pid rec = p.
Proof. apply chain_find_Some. Qed.

Lemma reg_wf_lookup r a rec :
  reg_wf r → procs r !! a = Some rec → pid_lookup r (pid rec) = Some (a, rec).
Proof.
  intros Hwf Ha. unfold pid_lookup. apply chain_find_unique; [|done|].
  - by apply (wf_linked _ Hwf).
  - intros b rec' _ Hb Hp. by eapply (wf_pid_unique _ Hwf).
Qed.

Lemma reg_wf_lookup_None r p a rec :
  reg_wf r → pid_lookup r p = None → procs r !! a = Some rec → pid rec ≠ p.
Proof.
  intros Hwf Hnone Ha Hp. subst p.
  by rewrite (reg_wf_lookup _ _ _ Hwf Ha) in Hnone.
Qed.

Lemma reg_wf_slot_iff r a rec sl :
  reg_wf r → procs r !! a = Some rec →
  a ∈ cells (procadjslot_list r) sl ↔ sl = oomadj rec + 1000.
Proof.
  intros Hwf Ha. split.
  - intros Hin. destruct (wf_slot _ Hwf _ _ Hin) as (rec' & Ha' & <-).
    rewrite Ha in Ha'. injection Ha' as <-. unfold ADJTOSLOT, OOM_SCORE_ADJ_MIN. lia.
  - intros ->. destruct (wf_linked _ Hwf _ _ Ha) as [_ Hin].
    unfold ADJTOSLOT, OOM_SCORE_ADJ_MIN in Hin.
    by replace (oomadj rec + 1000) with (oomadj rec + - -1000) by lia.
Qed.

Lemma reg_wf_init : reg_wf registry_init.
Proof.
  split; cbn.
  - intros a rec. by rewrite lookup_empty.
  - intros h a. rewrite cells_empty. by rewrite elem_of_nil.
  - intros sl a. rewrite cells_empty. by rewrite elem_of_nil.
  - intros h. rewrite cells_empty. constructor.
  - intros sl. rewrite cells_empty. constructor.
  - intros a a' rec rec'. by rewrite lookup_empty.
Qed.

(** Overwriting a record without touching its pid and score. *)
Lemma reg_wf_store r a rec rec' :
  reg_wf r → procs r !! a = Some rec →
  pid rec' = pid rec → oomadj rec' = oomadj rec →
  reg_wf (store_proc a rec' r).
Proof.
  intros Hwf Ha Hp Hadj. split; cbn.
  - intros b rb. rewrite lookup_insert_Some. intros [[<- <-]|[Hne Hb]].
    + rewrite Hp, Hadj. by apply (wf_linked _ Hwf).
    + by apply (wf_linked _ Hwf).
  - intros h b Hin. destruct (wf_chain _ Hwf _ _ Hin) as (rb & Hb & Hh).
    destruct (decide (b = a)) as [->|Hne].
    + exists rec'. rewrite lookup_insert_eq. split; [done|]. congruence.
    + exists rb. by rewrite lookup_insert_ne.
  - intros sl b Hin. destruct (wf_slot _ Hwf _ _ Hin) as (rb & Hb & Hh).
    destruct (decide (b = a)) as [->|Hne].
    + exists rec'. rewrite lookup_insert_eq. split; [done|]. congruence.
    + exists rb. by rewrite lookup_insert_ne.
  - apply (wf_chain_nodup _ Hwf).
  - apply (wf_slot_nodup _ Hwf).
  - intros b b' rb rb'. rewrite !lookup_insert_Some.
    intros [[<- <-]|[Hne Hb]] [[<- <-]|[Hne' Hb']] Hpid; [done|..].
    + eapply (wf_pid_unique _ Hwf); [done..|congruence].
    + eapply (wf_pid_unique _ Hwf); [done..|congruence].
    + by eapply (wf_pid_unique _ Hwf).
Qed.

(** Rewriting every record without touching pids and scores. *)
Lemma reg_wf_fmap r (f : proc → proc) :
  (∀ rec, pid (f rec) = pid rec ∧ oomadj (f rec) = oomadj rec) →
  reg_wf r →
  reg_wf {| procs := f <$> procs r; pidhash := pidhash r;
            procadjslot_list := procadjslot_list r |}.
Proof.
  intros Hf Hwf. split; cbn.
  - intros b rb. rewrite lookup_fmap_Some. intros (rb0 & <- & Hb).
    destruct (Hf rb0) as [-> ->]. by apply (wf_linked _ Hwf).
  - intros h b Hin. destruct (wf_chain _ Hwf _ _ Hin) as (rb & Hb & Hh).
    exists (f rb). rewrite lookup_fmap, Hb. split; [done|].
    by destruct (Hf rb) as [-> _].
  - intros sl b Hin. destruct (wf_slot _ Hwf _ _ Hin) as (rb & Hb & Hh).
    exists (f rb). rewrite lookup_fmap, Hb. split; [done|].
    by destruct (Hf rb) as [_ ->].
  - apply (wf_chain_nodup _ Hwf).
  - apply (wf_slot_nodup _ Hwf).
  - intros b b' rb rb'. rewrite !lookup_fmap_Some.
    intros (rb0 & <- & Hb) (rb0' & <- & Hb') Hpid.
    eapply (wf_pid_unique _ Hwf); [done..|].
    destruct (Hf rb0) as [<- _]. by destruct (Hf rb0') as [<- _].
Qed.

(** Unlinking a record from both indexes and freeing it. *)
Lemma reg_wf_remove r a rec :
  reg_wf r → procs r !! a = Some rec →
  reg_wf {| procs := delete a (procs r);
            pidhash := <[pid_hashfn (pid rec) :=
                           unlink a (cells (pidhash r) (pid_hashfn (pid rec)))]> (pidhash r);
            procadjslot_list := unlink a <$> procadjslot_list r |}.
Proof.
  intros Hwf Ha. remember (pid_hashfn (pid rec)) as h eqn:Hh0. split; cbn.
  - intros b rb. rewrite lookup_delete_Some. intros [Hne Hb].
    destruct (wf_linked _ Hwf _ _ Hb) as [Hc Hs]. split.
    + case_key h (pid_hashfn (pid rb)).
      * rewrite cells_insert_eq, elem_of_unlink. split; [done|congruence].
      * by rewrite cells_insert_ne.
    + rewrite cells_unlink, elem_of_unlink. split; [done|congruence].
  - intros h' b. case_key h (h').
    + rewrite cells_insert_eq, elem_of_unlink. intros [Hin Hne].
      destruct (wf_chain _ Hwf _ _ Hin) as (rb & Hb & Hhb).
      exists rb. by rewrite lookup_delete_ne.
    + rewrite cells_insert_ne by done. intros Hin.
      destruct (wf_chain _ Hwf _ _ Hin) as (rb & Hb & Hhb).
      exists rb. split; [|done]. rewrite lookup_delete_ne; [done|].
      intros ->. rewrite Ha in Hb. injection Hb as <-. congruence.
  - intros sl b. rewrite cells_unlink, elem_of_unlink. intros [Hin Hne].
    destruct (wf_slot _ Hwf _ _ Hin) as (rb & Hb & Hhb).
    exists rb. by rewrite lookup_delete_ne.
  - intros h'. case_key h (h').
    + rewrite cells_insert_eq. apply NoDup_unlink, (wf_chain_nodup _ Hwf).
    + rewrite cells_insert_ne by done. apply (wf_chain_nodup _ Hwf).
  - intros sl. rewrite cells_unlink. apply NoDup_unlink, (wf_slot_nodup _ Hwf).
  - intros b b' rb rb'. rewrite !lookup_delete_Some. intros [_ Hb] [_ Hb'].
    by apply (wf_pid_unique _ Hwf).
Qed.

(** Entering a new record under a pid that no record carries. *)
Lemma reg_wf_insert r a rec :
  reg_wf r → procs r !! a = None →
  (∀ b rb, procs r !! b = Some rb → pid rb ≠ pid rec) →
  reg_wf (proc_insert a rec r).
Proof.
  intros Hwf Ha Hfresh.
  assert (Hnc : ∀ h, a ∉ cells (pidhash r) h).
  { intros h Hin. destruct (wf_chain _ Hwf _ _ Hin) as (? & ? & _). congruence. }
  assert (Hns : ∀ sl, a ∉ cells (procadjslot_list r) sl).
  { intros sl Hin. destruct (wf_slot _ Hwf _ _ Hin) as (? & ? & _). congruence. }
  unfold proc_insert, proc_slot.
  remember (pid_hashfn (pid rec)) as h eqn:Hh0.
  remember (ADJTOSLOT (oomadj rec)) as sl eqn:Hsl0.
  split; cbn.
  - intros b rb. rewrite lookup_insert_Some. intros [[<- <-]|[Hne Hb]].
    + rewrite <- Hh0, <- Hsl0, !cells_insert_eq. split; left.
    + destruct (wf_linked _ Hwf _ _ Hb) as [Hc Hs]. split.
      * case_key h (pid_hashfn (pid rb)).
        -- rewrite cells_insert_eq. by right.
        -- by rewrite cells_insert_ne.
      * case_key sl (ADJTOSLOT (oomadj rb)).
        -- rewrite cells_insert_eq. by right.
        -- by rewrite cells_insert_ne.
  - intros h' b. case_key h (h').
    + rewrite cells_insert_eq, elem_of_cons. intros [->|Hin].
      * exists rec. by rewrite lookup_insert_eq.
      * destruct (wf_chain _ Hwf _ _ Hin) as (rb & Hb & Hhb).
        exists rb. split; [|done]. rewrite lookup_insert_ne; [done|congruence].
    + rewrite cells_insert_ne by done. intros Hin.
      destruct (wf_chain _ Hwf _ _ Hin) as (rb & Hb & Hhb).
      exists rb. split; [|done]. rewrite lookup_insert_ne; [done|congruence].
  - intros sl' b. case_key sl (sl').
    + rewrite cells_insert_eq, elem_of_cons. intros [->|Hin].
      * exists rec. by rewrite lookup_insert_eq.
      * destruct (wf_slot _ Hwf _ _ Hin) as (rb & Hb & Hhb).
        exists rb. split; [|done]. rewrite lookup_insert_ne; [done|congruence].
    + rewrite cells_insert_ne by done. intros Hin.
      destruct (wf_slot _ Hwf _ _ Hin) as (rb & Hb & Hhb).
      exists rb. split; [|done]. rewrite lookup_insert_ne; [done|congruence].
  - intros h'. case_key h (h').
    + rewrite cells_insert_eq. constructor; [apply Hnc|apply (wf_chain_nodup _ Hwf)].
    + rewrite cells_insert_ne by done. apply (wf_chain_nodup _ Hwf).
  - intros sl'. case_key sl (sl').
    + rewrite cells_insert_eq. constructor; [apply Hns|apply (wf_slot_nodup _ Hwf)].
    + rewrite cells_insert_ne by done. apply (wf_slot_nodup _ Hwf).
  - intros b b' rb rb'. rewrite !lookup_insert_Some.
    intros [[<- <-]|[Hne Hb]] [[<- <-]|[Hne' Hb']] Hpid; [done|..].
    + exfalso. by eapply Hfresh.
    + exfalso. by eapply Hfresh.
    + by eapply (wf_pid_unique _ Hwf).
Qed.

(** Moving a record to the list of a new score. *)
Lemma reg_wf_rescore r a rec rec1 adj :
  reg_wf r → procs r !! a = Some rec → pid rec1 = pid rec →
  reg_wf (proc_slot a adj
            (store_proc a (set_oomadj adj rec1)
               (proc_unslot a (store_proc a rec1 r)))).
Proof.
  intros Hwf Ha Hp. unfold proc_slot, store_proc, proc_unslot. cbn.
  remember (ADJTOSLOT adj) as sl eqn:Hsl0.
  split; cbn.
  - intros b rb. rewrite insert_insert_eq, lookup_insert_Some.
    intros [[<- <-]|[Hne Hb]].
    + cbn. rewrite <- ?Hsl0, cells_insert_eq. split; [|left].
      rewrite Hp. by apply (wf_linked _ Hwf).
    + destruct (wf_linked _ Hwf _ _ Hb) as [Hc Hs]. split; [done|].
      case_key sl (ADJTOSLOT (oomadj rb)).
      * rewrite cells_insert_eq, cells_unlink. right. by rewrite elem_of_unlink.
      * rewrite cells_insert_ne by done. by rewrite cells_unlink, elem_of_unlink.
  - intros h b Hin. rewrite insert_insert_eq.
    destruct (wf_chain _ Hwf _ _ Hin) as (rb & Hb & Hhb).
    destruct (decide (b = a)) as [->|Hne].
    + eexists. rewrite lookup_insert_eq. split; [done|]. cbn. congruence.
    + exists rb. by rewrite lookup_insert_ne.
  - intros sl' b. rewrite insert_insert_eq.
    case_key sl (sl').
    + rewrite cells_insert_eq, cells_unlink, elem_of_cons, elem_of_unlink.
      intros [->|[Hin Hne]].
      * eexists. by rewrite lookup_insert_eq.
      * destruct (wf_slot _ Hwf _ _ Hin) as (rb & Hb & Hhb).
        exists rb. by rewrite lookup_insert_ne.
    + rewrite cells_insert_ne by done. rewrite cells_unlink, elem_of_unlink.
      intros [Hin Hne]. destruct (wf_slot _ Hwf _ _ Hin) as (rb & Hb & Hhb).
      exists rb. by rewrite lookup_insert_ne.
  - apply (wf_chain_nodup _ Hwf).
  - intros sl'. case_key sl (sl').
    + rewrite cells_insert_eq, cells_unlink. constructor; [apply not_elem_of_unlink|].
      apply NoDup_unlink, (wf_slot_nodup _ Hwf).
    + rewrite cells_insert_ne by done. rewrite cells_unlink.
      apply NoDup_unlink, (wf_slot_nodup _ Hwf).
  - intros b b' rb rb'. rewrite insert_insert_eq, !lookup_insert_Some.
    intros [[<- <-]|[Hne Hb]] [[<- <-]|[Hne' Hb']] Hpid; [done|..]; cbn in Hpid.
    + eapply (wf_pid_unique _ Hwf); [done..|congruence].
    + eapply (wf_pid_unique _ Hwf); [done..|congruence].
    + by eapply (wf_pid_unique _ Hwf).
Qed.

End Registry.

(** ** The invariant is kept by every operation *)

Section Preservation.
Context `{HeaderConstants}.

Lemma foldl_preserves {A B} (P : A → Prop) (f : A → B → A) (l : list B) (a : A) :
  P a → (∀ a b, P a → P (f a b)) → P (foldl f a l).
Proof. intros Ha Hf. revert a Ha. induction l; cbn; auto. Qed.

Lemma kc_wf_init : kc_wf kill_counters_init.
Proof.
  unfold kc_wf, kill_counters_init. cbn [killcnt_idx killcnt killcnt_free_idx].
  rewrite !length_replicate. repeat split; [lia|].
  apply Forall_replicate. by left.
Qed.

Lemma inc_killcnt_wf adj k : kc_wf k → kc_wf (inc_killcnt adj k).
Proof.
  intros (Hl1 & Hl2 & Hfree & Hall). unfold inc_killcnt.
  destruct (array_get (killcnt_idx k) (ADJTOSLOT adj)) as [idx|] eqn:Hget; [|done].
  destruct (idx =? KILLCNT_INVALID_IDX) eqn:Hidx.
  - destruct (killcnt_free_idx k <? MAX_DISTINCT_OOM_ADJ) eqn:Hroom; [|done].
    unfold kc_wf, array_set. cbn [killcnt_idx killcnt killcnt_free_idx].
    repeat case_match; rewrite ?length_insert; repeat split; try done; try lia.
    apply Forall_insert; [done|]. right. lia.
  - unfold kc_wf, array_set. cbn [killcnt_idx killcnt killcnt_free_idx].
    repeat case_match; rewrite ?length_insert; done.
Qed.

Lemma pid_remove_None p s :
  pid_lookup (reg s) p = None → pid_remove p s = (-1, s).
Proof. unfold pid_lookup, pid_remove. by intros ->. Qed.

Lemma pid_remove_Some p s a rec :
  pid_lookup (reg s) p = Some (a, rec) →
  pid_remove p s =
    (0, set_reg {| procs := delete a (procs (reg s));
                   pidhash := <[pid_hashfn p := unlink a (cells (pidhash (reg s)) (pid_hashfn p))]>
                                (pidhash (reg s));
                   procadjslot_list := unlink a <$> procadjslot_list (reg s) |}
          (if (0 <=? pidfd rec) && negb (pidfd rec =? last_kill_pid_or_fd (kw s))
           then emit (EvClose (pidfd rec)) s else s)).
Proof.
  unfold pid_lookup, pid_remove. intros ->.
  by destruct ((0 <=? pidfd rec) && negb (pidfd rec =? last_kill_pid_or_fd (kw s))).
Qed.


Lemma pid_remove_wf p s : lmkd_wf s → lmkd_wf (pid_remove p s).2.
Proof.
  intros [Hr Hk].
  destruct (pid_lookup (reg s) p) as [[a rec]|] eqn:Hl.
  - rewrite (pid_remove_Some _ _ _ _ Hl). split; cbn.
    + destruct (pid_lookup_Some _ _ _ _ Hl) as (_ & Ha & <-).
      by apply reg_wf_remove.
    + by destruct (_ && _).
  - by rewrite (pid_remove_None _ _ Hl).
Qed.

Lemma stop_wait_tables b s :
  reg (stop_wait_for_proc_kill b s) = reg s ∧ kc (stop_wait_for_proc_kill b s) = kc s ∧
  cfg (stop_wait_for_proc_kill b s) = cfg s ∧ eng (stop_wait_for_proc_kill b s) = eng s.
Proof. unfold stop_wait_for_proc_kill. by repeat case_match. Qed.

Lemma start_wait_tables o fd s :
  reg (start_wait_for_proc_kill o fd s) = reg s ∧
  kc (start_wait_for_proc_kill o fd s) = kc s ∧
  cfg (start_wait_for_proc_kill o fd s) = cfg s ∧
  eng (start_wait_for_proc_kill o fd s) = eng s.
Proof.
  unfold start_wait_for_proc_kill.
  destruct (stop_wait_tables false s) as (Hr & Hk & Hc & He).
  repeat case_match; cbn; rewrite ?Hr, ?Hk, ?Hc, ?He; done.
Qed.

Lemma lmkd_wf_tables s s' : reg s' = reg s → kc s' = kc s → lmkd_wf s → lmkd_wf s'.
Proof. unfold lmkd_wf. by intros -> ->. Qed.

Lemma pid_invalidate_wf p s : lmkd_wf s → lmkd_wf (pid_invalidate p s).
Proof.
  intros [Hr Hk]. unfold pid_invalidate.
  destruct (pid_lookup (reg s) p) as [[a rec]|] eqn:Hl; [|done].
  destruct (pid_lookup_Some _ _ _ _ Hl) as (_ & Ha & _).
  split; [|done]. cbn. by eapply reg_wf_store.
Qed.

Lemma remove_claims_wf peer s : lmkd_wf s → lmkd_wf (remove_claims peer s).
Proof.
  intros [Hr Hk]. split; [|done]. cbn. apply reg_wf_fmap; [|done].
  intros rec. by destruct (decide (reg_pid rec = peer)).
Qed.

Lemma claim_record_keeps rec caller :
  pid (claim_record rec caller).2 = pid rec ∧
  oomadj (claim_record rec caller).2 = oomadj rec ∧
  pidfd (claim_record rec caller).2 = pidfd rec.
Proof. unfold claim_record. by repeat case_match. Qed.

Lemma register_record_wf o params cred score s :
  lmkd_wf s → lmkd_wf (register_record o params cred score s).
Proof.
  intros [Hr Hk]. unfold register_record.
  destruct (pid_lookup (reg s) (pp_pid params)) as [[a rec]|] eqn:Hl.
  - destruct (claim_record rec (cred_pid cred)) as [ok rec1] eqn:Hc.
    destruct ok; [|done]. cbn [negb].
    destruct (pid_lookup_Some _ _ _ _ Hl) as (_ & Ha & _).
    split; [|done]. cbn.
    eapply reg_wf_rescore; [done..|].
    pose proof (claim_record_keeps rec (cred_pid cred)) as (Hp & _).
    by rewrite Hc in Hp.
  - destruct (pidfd_supported (cfg s) && _); [done|].
    destruct (negb (os_calloc_ok o)); [done|].
    split; [|done]. cbn. apply reg_wf_insert; [done|..].
    + apply not_elem_of_dom, is_fresh.
    + intros b rb Hb. cbn. by eapply reg_wf_lookup_None.
Qed.

Lemma apply_proc_prio_wf o params cred s :
  lmkd_wf s → lmkd_wf (apply_proc_prio o params cred s).
Proof.
  intros Hwf. unfold apply_proc_prio, register_oom_adj_proc.
  repeat case_match; try done; try (by apply register_record_wf).
Qed.

Lemma cmd_procs_prio_wf o batch cred s :
  lmkd_wf s → lmkd_wf (cmd_procs_prio o batch cred s).
Proof.
  intros Hwf. unfold cmd_procs_prio. apply foldl_preserves; [done|].
  intros. by apply apply_proc_prio_wf.
Qed.

Lemma store_claimed_wf a rec caller s :
  lmkd_wf s → procs (reg s) !! a = Some rec →
  lmkd_wf (set_reg (store_proc a (claim_record rec caller).2 (reg s)) s).
Proof.
  intros [Hr Hk] Ha. split; [|done]. cbn.
  destruct (claim_record_keeps rec caller) as (Hp & Hadj & _).
  by eapply reg_wf_store.
Qed.

Lemma cmd_procremove_wf p cred s : lmkd_wf s → lmkd_wf (cmd_procremove p cred s).
Proof.
  intros Hwf. unfold cmd_procremove.
  destruct (use_inkernel_interface (cfg s)); [done|].
  destruct (pid_lookup (reg s) p) as [[a rec]|] eqn:Hl; [|done].
  destruct (claim_record rec (cred_pid cred)) as [ok rec1] eqn:Hc.
  destruct ok; [|done]. cbn [negb].
  apply pid_remove_wf.
  destruct (pid_lookup_Some _ _ _ _ Hl) as (_ & Ha & _).
  pose proof (store_claimed_wf a rec (cred_pid cred) s Hwf Ha) as Hs.
  by rewrite Hc in Hs.
Qed.

Lemma purge_one_wf cred s a : lmkd_wf s → lmkd_wf (purge_one cred s a).
Proof.
  intros Hwf. unfold purge_one.
  destruct (procs (reg s) !! a) as [rec|] eqn:Ha; [|done].
  destruct (claim_record rec (cred_pid cred)) as [ok rec1] eqn:Hc.
  destruct ok; [|done].
  apply pid_remove_wf.
  pose proof (store_claimed_wf a rec (cred_pid cred) s Hwf Ha) as Hs.
  by rewrite Hc in Hs.
Qed.

Lemma cmd_procpurge_wf cred s : lmkd_wf s → lmkd_wf (cmd_procpurge cred s).
Proof.
  intros Hwf. unfold cmd_procpurge.
  destruct (use_inkernel_interface (cfg s)); [done|].
  apply foldl_preserves; [done|]. intros acc i Hacc.
  apply foldl_preserves; [done|]. intros. by apply purge_one_wf.
Qed.

Lemma cmd_target_tables o targets s :
  reg (cmd_target o targets s) = reg s ∧ kc (cmd_target o targets s) = kc s.
Proof. unfold cmd_target. by repeat case_match. Qed.

End Preservation.

Section PreservationKill.
Context `{HeaderConstants}.

Lemma kill_committed_tables o rec rss_kb tm s :
  reg (kill_committed o rec rss_kb tm s) = reg s ∧
  kc (kill_committed o rec rss_kb tm s) = inc_killcnt (oomadj rec) (kc s) ∧
  cfg (kill_committed o rec rss_kb tm s) = cfg s.
Proof.
  unfold kill_committed. cbn.
  by destruct (start_wait_tables o (if pidfd rec <? 0 then pid rec else pidfd rec) s)
    as (-> & -> & -> & _).
Qed.

(** A successful [kill_one_process], spelled out. *)
Lemma kill_one_process_success o rec rss_kb min_score tm s :
  kill_succeeds o rec rss_kb →
  kill_one_process o rec min_score tm s =
    (Z.quot rss_kb (page_k (cfg s)),
     (pid_remove (pid rec) (kill_committed o rec rss_kb tm s)).2).
Proof.
  intros (Hvalid & (swap_kb & Hst) & [name Hname] & Hhook & Hkill).
  unfold kill_one_process. rewrite Hvalid, Hst. cbn [negb st_tgid st_vmrss st_vmswap].
  rewrite Z.eqb_refl, Hname. cbn [negb].
  destruct (0 <? os_free_memory_before_kill_hook o (pid rec)) eqn:E; [lia|].
  rewrite Hkill. cbn [Z.eqb negb].
  unfold kill_committed. f_equal. cbn.
  by destruct (start_wait_tables o (if pidfd rec <? 0 then pid rec else pidfd rec) s)
    as (_ & _ & -> & _).
Qed.

Lemma kill_one_process_wf o rec min_score tm s :
  lmkd_wf s → lmkd_wf (kill_one_process o rec min_score tm s).2.
Proof.
  intros Hwf. unfold kill_one_process.
  assert (Hstart : ∀ fd, lmkd_wf (start_wait_for_proc_kill o fd s)).
  { intros fd. destruct (start_wait_tables o fd s) as (Hr & Hk & _).
    by eapply lmkd_wf_tables. }
  repeat case_match; cbn [snd]; try (by apply pid_remove_wf); try done.
  all: apply pid_remove_wf.
  all: try match goal with
           | |- lmkd_wf (stop_wait_for_proc_kill ?b ?s1) =>
               destruct (stop_wait_tables b s1) as (Hr & Hk & _);
               eapply lmkd_wf_tables; [exact Hr|exact Hk|]
           end.
  all: split; cbn;
    [apply (proj1 (Hstart _))|try apply inc_killcnt_wf; apply (proj2 (Hstart _))].
Qed.

Lemma heaviest_step_wf o h a :
  lmkd_wf (hs_state h) → lmkd_wf (hs_state (heaviest_step o h a)).
Proof.
  intros Hwf. unfold heaviest_step.
  repeat case_match; cbn; try done. by apply pid_remove_wf.
Qed.

Lemma proc_get_heaviest_wf o adj s :
  lmkd_wf s → lmkd_wf (proc_get_heaviest o adj s).2.
Proof.
  intros Hwf. unfold proc_get_heaviest.
  assert (Hfold : ∀ l, lmkd_wf (hs_state (foldl (heaviest_step o)
                     {| hs_state := s; hs_maxprocp := None; hs_maxsize := 0 |} l))).
  { intros l. apply (foldl_preserves (λ h, lmkd_wf (hs_state h))); [done|].
    intros. by apply heaviest_step_wf. }
  destruct (cells _ _) as [|a [|b l]]; cbn [snd]; [apply (Hfold [])|done|apply Hfold].
Qed.

Lemma kill_candidates_wf fuel o heaviest i min_score tm ks s r s' :
  lmkd_wf s →
  kill_candidates fuel o heaviest i min_score tm ks s = Some (r, s') →
  lmkd_wf s'.
Proof.
  revert ks s. induction fuel as [|fuel IH]; [done|]. intros ks s Hwf. cbn.
  destruct (if heaviest then proc_get_heaviest o i s else (proc_adj_tail (reg s) i, s))
    as [procp s1] eqn:Hcand.
  assert (Hwf1 : lmkd_wf s1).
  { destruct heaviest.
    - pose proof (proc_get_heaviest_wf o i s Hwf) as Hh. by rewrite Hcand in Hh.
    - by injection Hcand as _ <-. }
  destruct procp as [a|]; [|by intros [= _ <-]].
  destruct (procs (reg s1) !! a) as [rec|]; [|done].
  destruct (kill_one_process o rec min_score tm s1) as [ks' s2] eqn:Hkill.
  assert (Hwf2 : lmkd_wf s2).
  { pose proof (kill_one_process_wf o rec min_score tm s1 Hwf1) as Hk. by rewrite Hkill in Hk. }
  destruct (0 <=? ks'); [by intros [= _ <-]|]. by apply IH.
Qed.

Lemma walk_scores_wf n o heaviest i min_score tm ks s r s' :
  lmkd_wf s →
  walk_scores n o heaviest i min_score tm ks s = Some (r, s') →
  lmkd_wf s'.
Proof.
  revert heaviest i ks s.
  induction n as [|n IH]; intros heaviest i ks s Hwf; cbn [walk_scores].
  - by intros [= _ <-].
  - match goal with
    | |- context [kill_candidates ?f ?a ?b ?c ?d ?e ?g ?h] =>
        destruct (kill_candidates f a b c d e g h) as [[ks' s1]|] eqn:Hk; [|done]
    end.
    apply kill_candidates_wf in Hk; [|done].
    destruct (negb (ks' =? 0)); [by intros [= _ <-]|]. by apply IH.
Qed.

Lemma find_and_kill_process_wf o min_score tm s r s' :
  lmkd_wf s → find_and_kill_process o min_score tm s = Some (r, s') → lmkd_wf s'.
Proof. unfold find_and_kill_process. apply walk_scores_wf. Qed.

(** The engine reads the registry and the kill counters only through
    victim selection. *)
Lemma prefix_tables o d events s :
  match mp_event_psi_prefix o d events s with
  | PrefixDone dec =>
      reg (decision_state dec) = reg s ∧ kc (decision_state dec) = kc s ∧
      (∀ s1 rc sw k, dec ≠ PsiKill s1 rc sw k)
  | PrefixReached r => reg (at_state r) = reg s ∧ kc (at_state r) = kc s
  end.
Proof.
  unfold mp_event_psi_prefix.
  destruct (os_clock o) as [curr_tm|]; [|done].
  destruct (level_lock _ _ _ _) as [e1|]; [|done].
  destruct (kill_gate _ _ _); [done|].
  match goal with
  | |- context [stop_wait_for_proc_kill ?b ?s1] =>
      destruct (stop_wait_tables b s1) as (Hr & Hk & _);
      generalize dependent (stop_wait_for_proc_kill b s1)
  end.
  intros s2 Hr Hk. cbn in Hr, Hk.
  destruct (os_vmstat o) as [vs|]; [|done].
  destruct (os_meminfo o) as [mi|]; [|done].
  destruct (post_kill_reset _ _ _ _) as [cycle e3].
  destruct (reclaim_step _ _ _ _ _ _) as [[[reclaim dur] e4]|]; done.
Qed.

Lemma suffix_tables o d events r :
  reg (decision_state (mp_event_psi_suffix o d events r)) = reg (at_state r) ∧
  kc (decision_state (mp_event_psi_suffix o d events r)) = kc (at_state r).
Proof.
  unfold mp_event_psi_suffix.
  destruct (update_thrashing _ _ _ _ _) as [e5 thrashing].
  destruct (psi_pass 0 _ _ _ _ _) as [e6|l1 e6]; [done|].
  destruct (bool_decide _); [done|].
  destruct (first_kill e6); [|done].
  destruct (psi_pass 1 _ _ _ _ _) as [e8|l2 e8]; [done|].
  by destruct (bool_decide _).
Qed.

Lemma decide_tables o d events s :
  reg (decision_state (mp_event_psi_decide o d events s)) = reg s ∧
  kc (decision_state (mp_event_psi_decide o d events s)) = kc s.
Proof.
  unfold mp_event_psi_decide.
  pose proof (prefix_tables o d events s) as Hp.
  destruct (mp_event_psi_prefix o d events s) as [dec|r]; [by destruct Hp as (? & ? & _)|].
  destruct Hp as [<- <-]. apply suffix_tables.
Qed.

Lemma mp_event_psi_wf o d events pp s s' pp' :
  lmkd_wf s → mp_event_psi o d events pp s = Some (s', pp') → lmkd_wf s'.
Proof.
  intros Hwf. unfold mp_event_psi.
  destruct (decide_tables o d events s) as [Hr Hk].
  destruct (mp_event_psi_decide o d events s) as [s1|s1 rc sw|s1 rc sw k]; cbn in Hr, Hk.
  - intros [= <- _]. by eapply lmkd_wf_tables.
  - intros [= <- _]. by eapply lmkd_wf_tables.
  - destruct (find_and_kill_process _ _ _ _) as [[pages s2]|] eqn:Hf; [|done].
    intros [= <- _].
    apply find_and_kill_process_wf in Hf; [|by eapply lmkd_wf_tables].
    done.
Qed.

Lemma run_op_wf op s s' : lmkd_wf s → run_op op s = Some s' → lmkd_wf s'.
Proof.
  intros Hwf. destruct op; cbn.
  - intros [= <-]. by apply apply_proc_prio_wf.
  - intros [= <-]. by apply cmd_procs_prio_wf.
  - intros [= <-]. by apply cmd_procremove_wf.
  - intros [= <-]. by apply cmd_procpurge_wf.
  - intros [= <-]. destruct (cmd_target_tables o targets s). by eapply lmkd_wf_tables.
  - intros [= <-]. by apply remove_claims_wf.
  - intros [= <-]. by apply pid_invalidate_wf.
  - intros [= <-]. destruct (stop_wait_tables true s) as (? & ? & _). by eapply lmkd_wf_tables.
  - intros [= <-]. destruct (stop_wait_tables false s) as (? & ? & _). by eapply lmkd_wf_tables.
  - intros [= <-]. destruct (stop_wait_tables false s) as (? & ? & _). by eapply lmkd_wf_tables.
  - destruct (mp_event_psi o d events pp s) as [[s1 pp1]|] eqn:Hrun; [|done].
    intros [= <-]. by eapply mp_event_psi_wf.
  - destruct (find_and_kill_process o min_score tm s) as [[pages s1]|] eqn:Hrun;
      [|done].
    intros [= <-]. by eapply find_and_kill_process_wf.
Qed.

Lemma lmkd_init_wf c : lmkd_wf (lmkd_init c).
Proof. split; [apply reg_wf_init|apply kc_wf_init]. Qed.

Lemma reachable_wf c s : reachable c s → lmkd_wf s.
Proof.
  induction 1 as [|op s s' _ IH Hrun|s s' _ IH Hreg Hkc]; [apply lmkd_init_wf| |].
  - by eapply run_op_wf.
  - by apply (lmkd_wf_tables s).
Qed.

End PreservationKill.

(** ** Victim selection always returns *)

Section Totality.
Context `{HeaderConstants}.

Lemma length_unlink_le a l : (length (unlink a l) ≤ length l)%nat.
Proof. apply length_filter. Qed.

Lemma length_unlink_lt a l : a ∈ l → (length (unlink a l) < length l)%nat.
Proof. intros Hin. apply (length_filter_lt _ _ a); [done|]. naive_solver. Qed.

(** What [pid_remove] does to the store and to the score lists when the
    registry is well formed. *)
Lemma pid_remove_shrinks p s :
  lmkd_wf s →
  let s' := (pid_remove p s).2 in
  (∀ a rec, procs (reg s') !! a = Some rec → procs (reg s) !! a = Some rec) ∧
  (∀ sl, (length (cells (procadjslot_list (reg s')) sl)
          ≤ length (cells (procadjslot_list (reg s)) sl))%nat) ∧
  (∀ a rec, procs (reg s') !! a = Some rec → pid rec ≠ p).
Proof.
  intros [Hr Hk] s'. subst s'.
  destruct (pid_lookup (reg s) p) as [[a rec]|] eqn:Hl.
  - rewrite (pid_remove_Some _ _ _ _ Hl). cbn.
    destruct (pid_lookup_Some _ _ _ _ Hl) as (_ & Ha & Hp).
    split; [|split].
    + intros b rb. rewrite lookup_delete_Some. tauto.
    + intros sl. rewrite cells_unlink. apply length_unlink_le.
    + intros b rb. rewrite lookup_delete_Some. intros [Hne Hb] Hpb.
      apply Hne. eapply (wf_pid_unique _ Hr); [done..|congruence].
  - rewrite (pid_remove_None _ _ Hl). cbn. split; [done|]. split; [done|].
    intros b rb Hb. by eapply reg_wf_lookup_None.
Qed.

Lemma pid_remove_shortens_list s a rec sl :
  lmkd_wf s → procs (reg s) !! a = Some rec →
  a ∈ cells (procadjslot_list (reg s)) sl →
  (length (cells (procadjslot_list (reg (pid_remove (pid rec) s).2)) sl)
   < length (cells (procadjslot_list (reg s)) sl))%nat.
Proof.
  intros [Hr Hk] Ha Hin.
  rewrite (pid_remove_Some _ _ _ _ (reg_wf_lookup _ _ _ Hr Ha)). cbn.
  rewrite cells_unlink. by apply length_unlink_lt.
Qed.

(** [kill_one_process] either skips the kill on a positive hook result or
    ends in [pid_remove] on a state with the same registry. *)
Lemma kill_one_process_shape o rec min_score tm s :
  (0 < (kill_one_process o rec min_score tm s).1) ∨
  ∃ s1, reg s1 = reg s ∧
        (kill_one_process o rec min_score tm s).2 = (pid_remove (pid rec) s1).2.
Proof.
  unfold kill_one_process.
  repeat case_match; cbn [fst snd];
    try (right; exists s; split; reflexivity);
    try (left; lia).
  all: right; eexists; (split; [|reflexivity]).
  all: repeat match goal with
              | |- context [stop_wait_for_proc_kill ?b ?s1] =>
                  rewrite (proj1 (stop_wait_tables b s1))
              | |- context [start_wait_for_proc_kill ?o ?fd ?s1] =>
                  rewrite (proj1 (start_wait_tables o fd s1))
              | _ => progress cbn
              end.
  all: reflexivity.
Qed.

(** A failed attempt takes the candidate off its score list. *)
Lemma kill_one_process_failed o rec min_score tm s a sl :
  lmkd_wf s → procs (reg s) !! a = Some rec →
  a ∈ cells (procadjslot_list (reg s)) sl →
  (kill_one_process o rec min_score tm s).1 < 0 →
  (length (cells (procadjslot_list (reg (kill_one_process o rec min_score tm s).2)) sl)
   < length (cells (procadjslot_list (reg s)) sl))%nat.
Proof.
  intros [Hr Hk] Ha Hin Hneg.
  destruct (kill_one_process_shape o rec min_score tm s) as [Hpos|(s1 & Hreg & ->)];
    [lia|].
  assert (Hl : pid_lookup (reg s1) (pid rec) = Some (a, rec))
    by (rewrite Hreg; by apply reg_wf_lookup).
  rewrite (pid_remove_Some _ _ _ _ Hl). cbn. rewrite Hreg, cells_unlink.
  by apply length_unlink_lt.
Qed.

(** The scan of [proc_get_heaviest]: the record it returns is one of the
    list and still in the store, and the scan only takes records away. *)
Lemma heaviest_scan_keeps o l : ∀ h,
  NoDup l → lmkd_wf (hs_state h) →
  (∀ a, hs_maxprocp h = Some a → (a ∉ l) ∧ is_Some (procs (reg (hs_state h)) !! a)) →
  let h' := foldl (heaviest_step o) h l in
  (∀ a, hs_maxprocp h' = Some a →
        (a ∈ l ∨ hs_maxprocp h = Some a) ∧
        is_Some (procs (reg (hs_state h')) !! a)) ∧
  (∀ a rec, procs (reg (hs_state h')) !! a = Some rec →
            procs (reg (hs_state h)) !! a = Some rec) ∧
  (∀ sl, (length (cells (procadjslot_list (reg (hs_state h'))) sl)
          ≤ length (cells (procadjslot_list (reg (hs_state h))) sl))%nat).
Proof.
  induction l as [|a l IH]; intros h Hnd Hwf Hmax; cbn.
  - split; [|done]. intros b Hb. split; [by right|]. by apply Hmax.
  - apply NoDup_cons in Hnd as [Hal Hnd].
    assert (Hstep : lmkd_wf (hs_state (heaviest_step o h a)) ∧
      (∀ b, hs_maxprocp (heaviest_step o h a) = Some b →
            (b = a ∨ hs_maxprocp h = Some b) ∧
            (b ∉ l) ∧ is_Some (procs (reg (hs_state (heaviest_step o h a))) !! b)) ∧
      (∀ b rec, procs (reg (hs_state (heaviest_step o h a))) !! b = Some rec →
                procs (reg (hs_state h)) !! b = Some rec) ∧
      (∀ sl, (length (cells (procadjslot_list (reg (hs_state (heaviest_step o h a)))) sl)
              ≤ length (cells (procadjslot_list (reg (hs_state h))) sl))%nat)).
    { split; [by apply heaviest_step_wf|].
      unfold heaviest_step.
      destruct (procs (reg (hs_state h)) !! a) as [rec|] eqn:Ha.
      - destruct (proc_get_size o (pid rec) <? 0) eqn:Hsz; cbn.
        + destruct Hwf as [Hr Hk].
          rewrite (pid_remove_Some _ _ _ _ (reg_wf_lookup _ _ _ Hr Ha)). cbn.
          split; [|split].
          * intros b Hb. destruct (Hmax b Hb) as [Hbl Hbs].
            split; [by right|]. split; [by intros ?; apply Hbl; right|].
            rewrite lookup_delete_ne; [done|]. intros ->. apply Hbl. left.
          * intros b rb. rewrite lookup_delete_Some. tauto.
          * intros sl. rewrite cells_unlink. apply length_unlink_le.
        + destruct (hs_maxsize h <? proc_get_size o (pid rec)); cbn.
          * split; [|done]. intros b [= <-]. split; [by left|].
            split; [done|]. by rewrite Ha.
          * split; [|done]. intros b Hb. destruct (Hmax b Hb) as [Hbl Hbs].
            split; [by right|]. split; [by intros ?; apply Hbl; right|done].
      - split; [|done]. intros b Hb. destruct (Hmax b Hb) as [Hbl Hbs].
        split; [by right|]. split; [by intros ?; apply Hbl; right|done]. }
    destruct Hstep as (Hwf' & Hmax' & Hsub & Hlen).
    destruct (IH (heaviest_step o h a) Hnd Hwf') as (H1 & H2 & H3).
    { intros b Hb. by apply Hmax'. }
    split; [|split].
    + intros b Hb. destruct (H1 b Hb) as [[Hin|Hprev] Hs]; (split; [|done]).
      * left. by right.
      * destruct (Hmax' b Hprev) as ([->|Hh] & _); [left; left|by right].
    + intros b rb Hb. by apply Hsub, H2.
    + intros sl. etrans; [apply H3|apply Hlen].
Qed.

Lemma proc_get_heaviest_keeps o adj s :
  lmkd_wf s →
  (∀ a, fst (proc_get_heaviest o adj s) = Some a →
        ∃ rec, procs (reg (snd (proc_get_heaviest o adj s))) !! a = Some rec ∧
               a ∈ cells (procadjslot_list (reg (snd (proc_get_heaviest o adj s))))
                         (ADJTOSLOT adj)) ∧
  (length (cells (procadjslot_list (reg (snd (proc_get_heaviest o adj s))))
                 (ADJTOSLOT adj))
   ≤ length (cells (procadjslot_list (reg s)) (ADJTOSLOT adj)))%nat.
Proof.
  intros Hwf. pose proof Hwf as [Hr Hk].
  assert (Hgen :
    let h := foldl (heaviest_step o)
               {| hs_state := s; hs_maxprocp := None; hs_maxsize := 0 |}
               (cells (procadjslot_list (reg s)) (ADJTOSLOT adj)) in
    (∀ a, hs_maxprocp h = Some a →
          ∃ rec, procs (reg (hs_state h)) !! a = Some rec ∧
                 a ∈ cells (procadjslot_list (reg (hs_state h))) (ADJTOSLOT adj)) ∧
    (length (cells (procadjslot_list (reg (hs_state h))) (ADJTOSLOT adj))
     ≤ length (cells (procadjslot_list (reg s)) (ADJTOSLOT adj)))%nat).
  { pose proof (heaviest_scan_keeps o
      (cells (procadjslot_list (reg s)) (ADJTOSLOT adj))
      {| hs_state := s; hs_maxprocp := None; hs_maxsize := 0 |}
      (wf_slot_nodup _ Hr _) Hwf) as Hscan.
    cbn in Hscan. destruct Hscan as (H1 & H2 & H3); [done|].
    pose proof (foldl_preserves (λ h, lmkd_wf (hs_state h)) (heaviest_step o)
      (cells (procadjslot_list (reg s)) (ADJTOSLOT adj))
      {| hs_state := s; hs_maxprocp := None; hs_maxsize := 0 |}
      Hwf (λ h a Hh, heaviest_step_wf o h a Hh)) as [Hr' _].
    split; [|apply H3].
    intros a Ha. destruct (H1 a Ha) as [Hin [rec Hrec]].
    destruct Hin as [Hin|Hin]; [|discriminate Hin].
    exists rec. split; [done|].
    pose proof (H2 _ _ Hrec) as Hold.
    destruct (wf_slot _ Hr _ _ Hin) as (rec0 & Hrec0 & Hsl).
    assert (rec0 = rec) as -> by congruence.
    pose proof (proj2 (wf_linked _ Hr' _ _ Hrec)) as Hl.
    rewrite Hsl in Hl. exact Hl. }
  unfold proc_get_heaviest.
  destruct (cells (procadjslot_list (reg s)) (ADJTOSLOT adj)) as [|a [|b l]] eqn:Hc;
    cbn [fst snd].
  - apply Hgen.
  - split; [|by rewrite Hc]. intros a' [= <-].
    destruct (wf_slot _ Hr (ADJTOSLOT adj) a) as (rec & Hrec & _);
      [rewrite Hc; left|].
    exists rec. split; [done|]. rewrite Hc. left.
  - apply Hgen.
Qed.

(** The inner loop of [find_and_kill_process] ends: every failed attempt
    shortens the score list. *)
Lemma kill_candidates_total o heaviest i min_score tm : ∀ fuel ks s,
  lmkd_wf s →
  (length (cells (procadjslot_list (reg s)) (ADJTOSLOT i)) < fuel)%nat →
  is_Some (kill_candidates fuel o heaviest i min_score tm ks s).
Proof.
  induction fuel as [|fuel IH]; intros ks s Hwf Hlen; [lia|].
  cbn [kill_candidates].
  assert (Hsel : ∃ procp s1,
    (if heaviest then proc_get_heaviest o i s else (proc_adj_tail (reg s) i, s))
      = (procp, s1) ∧ lmkd_wf s1 ∧
    (length (cells (procadjslot_list (reg s1)) (ADJTOSLOT i))
     ≤ length (cells (procadjslot_list (reg s)) (ADJTOSLOT i)))%nat ∧
    (∀ a, procp = Some a →
          ∃ rec, procs (reg s1) !! a = Some rec ∧
                 a ∈ cells (procadjslot_list (reg s1)) (ADJTOSLOT i))).
  { destruct heaviest.
    - destruct (proc_get_heaviest o i s) as [procp s1] eqn:Hh.
      exists procp, s1. split; [done|].
      pose proof (proc_get_heaviest_wf o i s Hwf) as Hwf1.
      pose proof (proc_get_heaviest_keeps o i s Hwf) as [Hk1 Hk2].
      rewrite Hh in Hwf1, Hk1, Hk2. cbn in *. done.
    - exists (proc_adj_tail (reg s) i), s. split; [done|]. split; [done|].
      split; [done|]. intros a Ha. unfold proc_adj_tail in Ha.
      apply last_Some_elem_of in Ha. destruct Hwf as [Hr _].
      destruct (wf_slot _ Hr _ _ Ha) as (rec & Hrec & _). by exists rec. }
  destruct Hsel as (procp & s1 & -> & Hwf1 & Hlen1 & Hcand).
  destruct procp as [a|]; [|done].
  destruct (Hcand a eq_refl) as (rec & Hrec & Hin). rewrite Hrec.
  destruct (kill_one_process o rec min_score tm s1) as [ks' s2] eqn:Hk.
  destruct (0 <=? ks') eqn:Hks; [done|].
  apply IH.
  - pose proof (kill_one_process_wf o rec min_score tm s1 Hwf1) as Hwf2.
    by rewrite Hk in Hwf2.
  - pose proof (kill_one_process_failed o rec min_score tm s1 a (ADJTOSLOT i)
                  Hwf1 Hrec Hin) as Hshort.
    rewrite Hk in Hshort. cbn in Hshort.
    assert (ks' < 0) as Hneg by lia. specialize (Hshort Hneg). lia.
Qed.

Lemma walk_scores_total o tm min_score : ∀ n heaviest i ks s,
  lmkd_wf s → is_Some (walk_scores n o heaviest i min_score tm ks s).
Proof.
  induction n as [|n IH]; intros heaviest i ks s Hwf; [done|].
  cbn [walk_scores].
  destruct (kill_candidates_total o (heaviest || (i <=? PERCEPTIBLE_APP_ADJ)) i
              min_score tm
              (S (length (cells (procadjslot_list (reg s)) (ADJTOSLOT i)))) ks s Hwf)
    as [[ks' s1] Hkc]; [lia|].
  rewrite Hkc. destruct (negb (ks' =? 0)); [done|].
  apply IH. by eapply kill_candidates_wf.
Qed.

(** Victim selection returns on every well-formed state. *)
Lemma find_and_kill_process_total o min_score tm s :
  lmkd_wf s → is_Some (find_and_kill_process o min_score tm s).
Proof. intros Hwf. by apply walk_scores_total. Qed.

(** The decision engine returns on every well-formed state. *)
Lemma mp_event_psi_total o d events pp s :
  lmkd_wf s → is_Some (mp_event_psi o d events pp s).
Proof.
  intros Hwf. unfold mp_event_psi.
  pose proof (decide_tables o d events s) as Ht.
  destruct (mp_event_psi_decide o d events s) as [s1|s1 r sw|s1 r sw k]; [done..|].
  destruct (find_and_kill_process_total o (kd_min_score_adj k) (kd_curr_tm k) s1)
    as [[pages s2] ->]; [|done].
  cbn in Ht. destruct Ht as [Hreg Hkc]. by apply (lmkd_wf_tables s).
Qed.

(** Every operation has a next state wherever the daemon can be. *)
Lemma run_op_total c op s : reachable c s → is_Some (run_op op s).
Proof.
  intros Hr. apply reachable_wf in Hr.
  destruct op; cbn; try done.
  - destruct (mp_event_psi_total o d events pp s Hr) as [[s' pp'] ->]. done.
  - destruct (find_and_kill_process_total o min_score tm s Hr) as [[r s'] ->]. done.
Qed.
End Totality.

(** ** One record, one score list (C5) *)

Section OneBucket.
Context `{HeaderConstants}.

Lemma cmd_procprio_reaches o params cred s :
  procprio_reaches_registry o params s →
  ∃ s1, reg s1 = reg s ∧ kc s1 = kc s ∧ cfg s1 = cfg s ∧
        cmd_procprio o params cred s =
        register_record o params cred (procprio_score (cfg s) params) s1.
Proof.
  intros (Hvalid & Hleader & Hopen & Huser & Hpath).
  unfold cmd_procprio, apply_proc_prio, procprio_invalid in *.
  destruct (pp_oomadj params <? OOM_SCORE_ADJ_MIN) eqn:E1; [lia|].
  destruct (OOM_SCORE_ADJ_MAX <? pp_oomadj params) eqn:E2; [lia|].
  destruct (pp_ptype params <? PROC_TYPE_FIRST) eqn:E3; [lia|].
  destruct (PROC_TYPE_COUNT <=? pp_ptype params) eqn:E4; [lia|].
  cbn [orb].
  assert (Hnl : match os_proc_status o (pp_pid params) with
                | Some st => match st_tgid st with
                             | Some tgid => negb (tgid =? pp_pid params)
                             | None => false
                             end
                | None => false
                end = false).
  { destruct (os_proc_status o (pp_pid params)) as [st|] eqn:Hst; [|done].
    destruct (st_tgid st) as [tgid|] eqn:Htg; [|done].
    rewrite (Hleader st tgid eq_refl Htg). by rewrite Z.eqb_refl. }
  rewrite Hnl, Hopen. cbn [negb]. cbn [cfg emit]. rewrite Huser.
  unfold register_oom_adj_proc, procprio_score. cbn [cfg emit].
  destruct ((pp_ptype params =? PROC_TYPE_APP) && per_app_memcg (cfg s)) eqn:Hm.
  - destruct (memcg_score_and_mult (pp_oomadj params)) as [score mult].
    destruct (Hpath eq_refl) as [path ->].
    eexists. split; [|split; [|split; [|reflexivity]]]; done.
  - eexists. split; [|split; [|split; [|reflexivity]]]; done.
Qed.

Lemma register_record_rescores o params cred score s a rec :
  lmkd_wf s → procs (reg s) !! a = Some rec → pp_pid params = pid rec →
  (claim_record rec (cred_pid cred)).1 = true →
  ∃ rec', procs (reg (register_record o params cred score s)) !! a = Some rec' ∧
          pid rec' = pid rec ∧ oomadj rec' = score.
Proof.
  intros [Hr Hk] Ha Hp Hclaim. unfold register_record.
  rewrite Hp, (reg_wf_lookup _ _ _ Hr Ha).
  destruct (claim_record rec (cred_pid cred)) as [ok rec1] eqn:Hc.
  cbn in Hclaim. subst ok. cbn [negb].
  pose proof (claim_record_keeps rec (cred_pid cred)) as (Hp1 & _).
  rewrite Hc in Hp1. cbn in Hp1.
  eexists. cbn. rewrite lookup_insert_eq. done.
Qed.

Lemma register_record_inserts o params cred score s :
  lmkd_wf s → pid_lookup (reg s) (pp_pid params) = None →
  (pidfd_supported (cfg s) = true → 0 ≤ os_pidfd_open o (pp_pid params)) →
  os_calloc_ok o = true →
  ∃ a rec, pid_lookup (reg (register_record o params cred score s)) (pp_pid params)
             = Some (a, rec) ∧
           oomadj rec = score ∧ reg_pid rec = cred_pid cred ∧ valid rec = true.
Proof.
  intros Hwf Hnone Hfd Hcalloc.
  pose proof (register_record_wf o params cred score s Hwf) as [Hr' _].
  revert Hr'. unfold register_record. rewrite Hnone, Hcalloc. cbn [negb]. cbv zeta.
  set (fd := if pidfd_supported (cfg s) then os_pidfd_open o (pp_pid params) else -1).
  assert (Hskip : pidfd_supported (cfg s) && (fd <? 0) = false).
  { subst fd. destruct (pidfd_supported (cfg s)); [|done]. cbn. specialize (Hfd eq_refl). lia. }
  rewrite Hskip.
  set (rec := {| pid := pp_pid params; pidfd := fd; uid := pp_uid params;
                 oomadj := score; reg_pid := cred_pid cred; valid := true |}).
  intros Hr'. exists (fresh (dom (procs (reg s)))), rec. split; [|done].
  apply (reg_wf_lookup _ (fresh (dom (procs (reg s)))) rec Hr').
  cbn. by rewrite lookup_insert_eq.
Qed.

(** C5.  In every state the daemon reaches, a record that is in the store
    (its pid was inserted and not removed since) is found by [pid_lookup]
    under its pid, and it is linked in the score list with index
    oomadj + 1000 and in no other, once.  A PROCPRIO for its pid that gets
    as far as the registry and is allowed by [claim_record] leaves the
    record with the new score, linked in the list of the new score and in
    no other.  A PROCPRIO for a pid without record, when pidfd_open and
    the allocation succeed, makes [pid_lookup] find a record for it. *)
Theorem registry_one_bucket c s a rec :
  reachable c s →
  procs (reg s) !! a = Some rec →
  pid_lookup (reg s) (pid rec) = Some (a, rec) ∧
  (∀ slot, a ∈ cells (procadjslot_list (reg s)) slot ↔ slot = oomadj rec + 1000) ∧
  NoDup (cells (procadjslot_list (reg s)) (oomadj rec + 1000)) ∧
  (∀ o params cred,
     pp_pid params = pid rec →
     procprio_reaches_registry o params s →
     (claim_record rec (cred_pid cred)).1 = true →
     let s' := cmd_procprio o params cred s in
     ∃ rec', procs (reg s') !! a = Some rec' ∧
             pid_lookup (reg s') (pid rec) = Some (a, rec') ∧
             oomadj rec' = procprio_score (cfg s) params ∧
             ∀ slot, a ∈ cells (procadjslot_list (reg s')) slot
                     ↔ slot = procprio_score (cfg s) params + 1000) ∧
  (∀ o params cred,
     pid_lookup (reg s) (pp_pid params) = None →
     procprio_reaches_registry o params s →
     (pidfd_supported (cfg s) = true → 0 ≤ os_pidfd_open o (pp_pid params)) →
     os_calloc_ok o = true →
     ∃ a' rec', pid_lookup (reg (cmd_procprio o params cred s)) (pp_pid params)
                  = Some (a', rec') ∧
                oomadj rec' = procprio_score (cfg s) params).
Proof.
  intros Hreach Ha.
  pose proof (reachable_wf c s Hreach) as [Hr Hk].
  split; [by apply reg_wf_lookup|].
  split; [intros slot; by apply reg_wf_slot_iff|].
  split; [apply (wf_slot_nodup _ Hr)|].
  split.
  - intros o params cred Hp Hgo Hclaim s'.
    destruct (cmd_procprio_reaches o params cred s Hgo) as (s1 & Hr1 & Hk1 & Hc1 & Heq).
    assert (Hwf1 : lmkd_wf s1) by (split; [by rewrite Hr1|by rewrite Hk1]).
    assert (Ha1 : procs (reg s1) !! a = Some rec) by (by rewrite Hr1).
    destruct (register_record_rescores o params cred (procprio_score (cfg s) params)
                s1 a rec Hwf1 Ha1 Hp Hclaim) as (rec' & Ha' & Hp' & Hadj').
    pose proof (register_record_wf o params cred (procprio_score (cfg s) params) s1 Hwf1)
      as [Hr' _].
    subst s'. rewrite Heq. exists rec'.
    split; [done|]. split; [rewrite <- Hp'; exact (reg_wf_lookup _ _ _ Hr' Ha')|].
    split; [done|]. intros slot.
    pose proof (reg_wf_slot_iff _ _ _ slot Hr' Ha') as Hiff. by rewrite Hadj' in Hiff.
  - intros o params cred Hnone Hgo Hfd Hcalloc.
    destruct (cmd_procprio_reaches o params cred s Hgo) as (s1 & Hr1 & Hk1 & Hc1 & Heq).
    assert (Hwf1 : lmkd_wf s1) by (split; [by rewrite Hr1|by rewrite Hk1]).
    rewrite Heq.
    destruct (register_record_inserts o params cred (procprio_score (cfg s) params) s1 Hwf1)
      as (a' & rec' & Hl & Hadj & _); [by rewrite Hr1|by rewrite Hc1|done|].
    by exists a', rec'.
Qed.

End OneBucket.

Lemma state_two_procs_reachable :
  let H := example_headers in reachable example_tunables state_two_procs.
Proof.
  intros H.
  eapply (reachable_step _ (OpProcPrio (os_calm 99000) (example_procprio 10 900) example_cred)).
  - eapply (reachable_step _ (OpProcPrio (os_calm 99000) (example_procprio 20 800) example_cred));
      [apply reachable_init|reflexivity].
  - reflexivity.
Qed.

Lemma registry_one_bucket_witness :
  let H := example_headers in
  let rec := {| pid := 10; pidfd := 1010; uid := 10010; oomadj := 900;
                reg_pid := 1; valid := true |} in
  procs (reg state_two_procs) !! 1%nat = Some rec ∧
  pid_lookup (reg state_two_procs) 10 = Some (1%nat, rec) ∧
  (∀ slot, 1%nat ∈ cells (procadjslot_list (reg state_two_procs)) slot ↔ slot = 1900).
Proof.
  intros H rec.
  assert (Ha : procs (reg state_two_procs) !! 1%nat = Some rec) by reflexivity.
  destruct (registry_one_bucket example_tunables state_two_procs 1%nat rec
              state_two_procs_reachable Ha) as (Hl & Hs & _).
  split; [exact Ha|]. split; [exact Hl|exact Hs].
Defined.

(** ** Removal after a kill and the pidfd (C6) *)

Section KillRemoval.
Context `{HeaderConstants}.

Lemma removed_pid_not_found s a rec :
  reg_wf (reg s) → procs (reg s) !! a = Some rec →
  let s' := (pid_remove (pid rec) s).2 in
  pid_lookup (reg s') (pid rec) = None ∧
  procs (reg s') !! a = None ∧
  (∀ h, a ∉ cells (pidhash (reg s')) h) ∧
  (∀ slot, a ∉ cells (procadjslot_list (reg s')) slot) ∧
  trace s' =
    (if (0 <=? pidfd rec) && negb (pidfd rec =? last_kill_pid_or_fd (kw s))
     then EvClose (pidfd rec) :: trace s else trace s) ∧
  kw s' = kw s ∧ cfg s' = cfg s.
Proof.
  intros Hwf Ha s'. subst s'.
  rewrite (pid_remove_Some _ _ _ _ (reg_wf_lookup _ _ _ Hwf Ha)). cbn [snd].
  split; [|split; [|split; [|split; [|split]]]].
  - destruct (pid_lookup _ (pid rec)) as [[b rb]|] eqn:Hl; [|done]. exfalso.
    apply pid_lookup_Some in Hl as (_ & Hb & Hp). cbn in Hb.
    apply lookup_delete_Some in Hb as [Hne Hb].
    apply Hne. symmetry. by eapply (wf_pid_unique _ Hwf).
  - cbn. apply lookup_delete_eq.
  - intros h. cbn. destruct (decide (pid_hashfn (pid rec) = h)) as [<-|Hh].
    + rewrite cells_insert_eq. apply not_elem_of_unlink.
    + rewrite cells_insert_ne by done. intros Hin.
      destruct (wf_chain _ Hwf _ _ Hin) as (rb & Hb & Hhb). congruence.
  - intros slot. cbn. rewrite cells_unlink. apply not_elem_of_unlink.
  - cbn. by destruct (_ && _).
  - cbn. by destruct (_ && _).
Qed.

(** A record whose pidfd is the kill in flight keeps the fd open through
    its removal; [stop_wait_for_proc_kill] closes it. *)
Lemma in_flight_fd_survives_removal s a rec :
  reg_wf (reg s) → procs (reg s) !! a = Some rec →
  0 ≤ pidfd rec → pidfd rec = last_kill_pid_or_fd (kw s) →
  let s' := (pid_remove (pid rec) s).2 in
  trace s' = trace s ∧
  last_kill_pid_or_fd (kw s') = pidfd rec ∧
  ∀ finished,
    pidfd_supported (cfg s) = true →
    trace (stop_wait_for_proc_kill finished s') =
      EvClose (pidfd rec) :: EvEpollDel (pidfd rec) :: trace s' ∧
    last_kill_pid_or_fd (kw (stop_wait_for_proc_kill finished s')) = -1.
Proof.
  intros Hwf Ha Hfd Hflight s'.
  destruct (removed_pid_not_found s a rec Hwf Ha) as (_ & _ & _ & _ & Htrace & Hkw & Hcfg).
  fold s' in Htrace, Hkw, Hcfg. clearbody s'.
  assert (Hkeep : (0 <=? pidfd rec) && negb (pidfd rec =? last_kill_pid_or_fd (kw s)) = false).
  { apply andb_false_iff. right. apply negb_false_iff. lia. }
  rewrite Hkeep in Htrace.
  split; [done|]. split; [by rewrite Hkw|].
  intros finished Hsup. unfold stop_wait_for_proc_kill.
  rewrite Hkw, Hcfg, <- Hflight.
  destruct (pidfd rec <? 0) eqn:E; [lia|]. by rewrite Hsup.
Qed.

(** C6.  In a reachable state, when [kill_one_process] gets a successful
    [reaper.kill] for the record of p, it returns the freed RSS in pages
    and leaves a state in which [pid_lookup] no longer finds p and the
    record is linked in no hash chain and no score list.  Its removal
    closes the record's pidfd exactly when there is one (pidfd >= 0) and
    it is not the fd stored as kill in flight at that moment.  A pidfd
    that is the kill in flight is not closed by the removal and remains
    the stored fd; [stop_wait_for_proc_kill] is what closes it, and
    clears the wait. *)
Theorem kill_removes_record c s a rec o rss_kb min_score tm :
  reachable c s →
  procs (reg s) !! a = Some rec →
  kill_succeeds o rec rss_kb →
  let committed := kill_committed o rec rss_kb tm s in
  let in_flight := last_kill_pid_or_fd (kw committed) in
  let s' := (kill_one_process o rec min_score tm s).2 in
  (kill_one_process o rec min_score tm s).1 = Z.quot rss_kb (page_k (cfg s)) ∧
  pid_lookup (reg s') (pid rec) = None ∧
  (∀ h, a ∉ cells (pidhash (reg s')) h) ∧
  (∀ slot, a ∉ cells (procadjslot_list (reg s')) slot) ∧
  trace s' =
    (if (0 <=? pidfd rec) && negb (pidfd rec =? in_flight)
     then EvClose (pidfd rec) :: trace committed else trace committed) ∧
  (0 ≤ pidfd rec → pidfd rec = in_flight →
     trace s' = trace committed ∧
     last_kill_pid_or_fd (kw s') = pidfd rec ∧
     ∀ finished,
       pidfd_supported (cfg s) = true →
       trace (stop_wait_for_proc_kill finished s') =
         EvClose (pidfd rec) :: EvEpollDel (pidfd rec) :: trace s' ∧
       last_kill_pid_or_fd (kw (stop_wait_for_proc_kill finished s')) = -1).
Proof.
  intros Hreach Ha Hok. cbv zeta.
  pose proof (reachable_wf c s Hreach) as [Hr Hk].
  pose proof (kill_one_process_success o rec rss_kb min_score tm s Hok) as Hrun.
  destruct (kill_committed_tables o rec rss_kb tm s) as (Hrc & _ & Hcc).
  generalize dependent (kill_committed o rec rss_kb tm s). intros committed Hrun Hrc Hcc.
  generalize dependent (kill_one_process o rec min_score tm s). intros result ->.
  cbn [fst snd].
  assert (Hrw : reg_wf (reg committed)) by (by rewrite Hrc).
  assert (Hac : procs (reg committed) !! a = Some rec) by (by rewrite Hrc).
  destruct (removed_pid_not_found committed a rec Hrw Hac)
    as (Hgone & _ & Hchain & Hslot & Htrace & _).
  split; [done|]. split; [done|]. split; [done|]. split; [done|].
  split; [exact Htrace|].
  intros Hfd Hflight. rewrite <- Hcc.
  exact (in_flight_fd_survives_removal committed a rec Hrw Hac Hfd Hflight).
Qed.

End KillRemoval.

Lemma kill_removes_record_witness :
  let H := example_headers in
  let rec := {| pid := 10; pidfd := 1010; uid := 10010; oomadj := 900;
                reg_pid := 1; valid := true |} in
  let s' := (kill_one_process (os_calm 100000) rec 0 (at_ms 100000) state_two_procs).2 in
  kill_succeeds (os_calm 100000) rec 4000 ∧
  pid_lookup (reg s') 10 = None ∧
  trace s' = EvNotifyKill 10 10010 4000 :: EvReaperKill 1010 10 10010 :: EvEpollAdd 1010
               :: trace state_two_procs.
Proof.
  intros H rec s'.
  assert (Ha : procs (reg state_two_procs) !! 1%nat = Some rec) by reflexivity.
  assert (Hok : kill_succeeds (os_calm 100000) rec 4000).
  { split; [reflexivity|]. split; [by exists 0|]. split; [by eexists|].
    split; [cbn; lia|reflexivity]. }
  destruct (kill_removes_record example_tunables state_two_procs 1%nat rec (os_calm 100000)
              4000 0 (at_ms 100000) state_two_procs_reachable Ha Hok)
    as (_ & Hgone & _ & _ & Htrace & _).
  split; [exact Hok|]. split; [exact Hgone|].
  etransitivity; [exact Htrace|]. reflexivity.
Defined.

(** ** GETKILLCNT (C7) *)

Section KillCount.

Lemma killcnt_range_sum_cons k lo hi :
  lo ≤ hi → killcnt_range_sum k lo hi = score_killcnt k lo + killcnt_range_sum k (lo + 1) hi.
Proof.
  intros Hle. unfold killcnt_range_sum.
  rewrite (seqZ_cons lo) by lia. cbn.
  by replace (Z.pred (hi - lo + 1)) with (hi - (lo + 1) + 1) by lia.
Qed.

Lemma killcnt_range_sum_empty k lo hi : hi < lo → killcnt_range_sum k lo hi = 0.
Proof. intros Hlt. unfold killcnt_range_sum. by rewrite seqZ_nil by lia. Qed.

Lemma get_killcnt_loop_sum k hi :
  kc_wf k →
  ∀ (n fuel : nat) lo count,
    n = Z.to_nat (Z.min hi OOM_SCORE_ADJ_MAX - lo + 1) → (n < fuel)%nat →
    OOM_SCORE_ADJ_MIN ≤ lo →
    get_killcnt_loop fuel k lo hi count =
      Some (count + killcnt_range_sum k lo (Z.min hi OOM_SCORE_ADJ_MAX)).
Proof.
  intros (Hl1 & Hl2 & Hfree & Hall).
  assert (Hslot : ∀ lo, ADJTOSLOT lo = lo + 1000) by (intros; unfold ADJTOSLOT, OOM_SCORE_ADJ_MIN; lia).
  assert (Hcount : ADJTOSLOT_COUNT = 2001) by reflexivity.
  assert (Hmax : OOM_SCORE_ADJ_MAX = 1000) by reflexivity.
  assert (Hmin : OOM_SCORE_ADJ_MIN = -1000) by reflexivity.
  assert (Hdist : MAX_DISTINCT_OOM_ADJ = 32) by reflexivity.
  rewrite Hcount in Hl1. rewrite Hdist in Hl2, Hall. rewrite Hmax, Hmin.
  induction n as [|n IH]; intros fuel lo count Hn Hfuel Hlo;
    (destruct fuel as [|fuel]; [lia|]); cbn [get_killcnt_loop].
  - assert ((lo <=? hi) && (ADJTOSLOT lo <? ADJTOSLOT_COUNT) = false) as ->
      by (rewrite Hslot, Hcount; apply andb_false_iff; lia).
    rewrite killcnt_range_sum_empty by lia. f_equal; lia.
  - assert ((lo <=? hi) && (ADJTOSLOT lo <? ADJTOSLOT_COUNT) = true) as ->
      by (rewrite Hslot, Hcount; apply andb_true_iff; lia).
    rewrite killcnt_range_sum_cons by lia.
    unfold score_killcnt, array_get. rewrite Hslot.
    destruct (lo + 1000 <? 0) eqn:E; [lia|].
    destruct (killcnt_idx k !! Z.to_nat (lo + 1000)) as [idx|] eqn:Hidx.
    2: { apply lookup_ge_None in Hidx. lia. }
    pose proof (proj1 (Forall_lookup _ _) Hall _ _ Hidx) as Hrange. cbn in Hrange.
    destruct (idx =? KILLCNT_INVALID_IDX) eqn:Hinv.
    + rewrite (IH fuel (lo + 1) count) by lia. f_equal; lia.
    + destruct Hrange as [->|Hrange]; [done|].
      destruct (idx <? 0) eqn:E2; [lia|].
      destruct (killcnt k !! Z.to_nat idx) as [cnt|] eqn:Hcnt.
      2: { apply lookup_ge_None in Hcnt. lia. }
      rewrite (IH fuel (lo + 1) (count + cnt)) by lia. cbn. f_equal; lia.
Qed.

(** C7, as the code has it.  With the userspace backend, in a reachable
    state: a request with min_adj > max_adj is answered 0, whatever
    min_adj is; a request with min_adj <= max_adj and min_adj > 1000 is
    answered the total kill counter (as the int it converts to); a
    request with -1000 <= min_adj <= max_adj, min_adj <= 1000, is
    answered the sum of the per-score kill counters of the scores from
    min_adj to max_adj that exist, i.e. up to 1000. *)
Theorem getkillcnt_reply `{HeaderConstants} c s min_adj max_adj :
  reachable c s →
  use_inkernel_interface (cfg s) = false →
  (max_adj < min_adj → cmd_getkillcnt s min_adj max_adj = Some 0) ∧
  (min_adj ≤ max_adj → OOM_SCORE_ADJ_MAX < min_adj →
     cmd_getkillcnt s min_adj max_adj = Some (int_of_uint32 (killcnt_total (kc s)))) ∧
  (min_adj ≤ max_adj → OOM_SCORE_ADJ_MIN ≤ min_adj ≤ OOM_SCORE_ADJ_MAX →
     cmd_getkillcnt s min_adj max_adj =
       Some (killcnt_range_sum (kc s) min_adj (Z.min max_adj OOM_SCORE_ADJ_MAX))).
Proof.
  intros Hreach Huser.
  pose proof (reachable_wf c s Hreach) as [_ Hk].
  unfold cmd_getkillcnt, get_killcnt. rewrite Huser.
  split; [|split].
  - intros Hlt. by destruct (max_adj <? min_adj) eqn:E; [|lia].
  - intros Hle Hbig. destruct (max_adj <? min_adj) eqn:E; [lia|].
    by destruct (OOM_SCORE_ADJ_MAX <? min_adj) eqn:E2; [|lia].
  - intros Hle [Hlo Hhi]. destruct (max_adj <? min_adj) eqn:E; [lia|].
    destruct (OOM_SCORE_ADJ_MAX <? min_adj) eqn:E2; [lia|].
    rewrite (get_killcnt_loop_sum (kc s) max_adj Hk _ _ min_adj 0 eq_refl); [done| |done].
    unfold ADJTOSLOT_COUNT, ADJTOSLOT, OOM_SCORE_ADJ_MIN, OOM_SCORE_ADJ_MAX in *. lia.
Qed.

End KillCount.

Lemma call_handler_is_pressure_op `{HeaderConstants} o level pp events s s' pp' :
  call_handler o (vmpressure_hinfo level) pp events s = Some (s', pp') →
  run_op (OpPressure o (PsiLevel level) events (set_update POLLING_DO_NOT_CHANGE pp)) s
    = Some s'.
Proof.
  unfold call_handler, run_handler, run_op.
  destruct (mp_event_psi _ _ _ _ _) as [[s1 pp1]|]; [|done].
  by intros [= <- _].
Qed.

Lemma state_kill_in_flight_reachable :
  let H := example_headers in
  ∃ s pp, state_kill_in_flight = Some (s, pp) ∧ reachable example_tunables s.
Proof.
  intros H.
  destruct state_kill_in_flight as [[s pp]|] eqn:Hs; [|by vm_compute in Hs].
  exists s, pp. split; [reflexivity|].
  eapply reachable_step; [apply state_two_procs_reachable|].
  by eapply call_handler_is_pressure_op.
Qed.

(** The claim C7 has the total for every min_adj > 1000, and a sum for
    every range.  After one kill (total 1), the request (1001, 0) is
    answered 0, because min_adj > max_adj is tested first; and the request
    (-1001, 1000) makes the loop read the index table at slot -1, outside
    of it, where the reply is not defined. *)
Lemma getkillcnt_total_not_for_empty_range :
  let H := example_headers in
  ∃ s pp,
    state_kill_in_flight = Some (s, pp) ∧
    use_inkernel_interface (cfg s) = false ∧
    killcnt_total (kc s) = 1 ∧
    cmd_getkillcnt s 1001 0 = Some 0 ∧
    cmd_getkillcnt s 1001 0 ≠ Some (int_of_uint32 (killcnt_total (kc s))) ∧
    cmd_getkillcnt s (-1001) 1000 = None.
Proof.
  intros H.
  destruct state_kill_in_flight as [[s pp]|] eqn:Hs; [|by vm_compute in Hs].
  vm_compute in Hs. injection Hs as <- <-.
  eexists _, _. split; [reflexivity|].
  split; [reflexivity|]. split; [reflexivity|]. split; [reflexivity|].
  split; [discriminate|reflexivity].
Qed.

Lemma getkillcnt_reply_witness :
  let H := example_headers in
  ∃ s pp,
    state_kill_in_flight = Some (s, pp) ∧
    use_inkernel_interface (cfg s) = false ∧
    cmd_getkillcnt s 1001 1001 = Some 1 ∧
    cmd_getkillcnt s 0 5000 = Some 1 ∧
    cmd_getkillcnt s 0 899 = Some 0.
Proof.
  intros H.
  destruct state_kill_in_flight_reachable as (s & pp & Hs & Hreach).
  assert (Huser : use_inkernel_interface (cfg s) = false).
  { vm_compute in Hs. by injection Hs as <- <-. }
  exists s, pp. split; [exact Hs|]. split; [exact Huser|].
  destruct (getkillcnt_reply example_tunables s 1001 1001 Hreach Huser) as (_ & Htotal & _).
  destruct (getkillcnt_reply example_tunables s 0 5000 Hreach Huser) as (_ & _ & Hall).
  destruct (getkillcnt_reply example_tunables s 0 899 Hreach Huser) as (_ & _ & Hlow).
  rewrite Htotal, Hall, Hlow by (unfold OOM_SCORE_ADJ_MIN, OOM_SCORE_ADJ_MAX; lia).
  vm_compute in Hs. injection Hs as <- <-.
  split; [reflexivity|]. split; vm_compute; reflexivity.
Defined.

(** ** PROCPRIO argument checks (C10) *)

Section ProcPrio.
Context `{HeaderConstants}.

Lemma apply_proc_prio_invalid o params cred s :
  procprio_invalid params → apply_proc_prio o params cred s = s.
Proof.
  unfold procprio_invalid, apply_proc_prio. intros Hbad.
  destruct (pp_oomadj params <? OOM_SCORE_ADJ_MIN) eqn:E1; [done|].
  destruct (OOM_SCORE_ADJ_MAX <? pp_oomadj params) eqn:E2; [done|].
  destruct (pp_ptype params <? PROC_TYPE_FIRST) eqn:E3; [done|].
  destruct (PROC_TYPE_COUNT <=? pp_ptype params) eqn:E4; [done|].
  exfalso. lia.
Qed.

Lemma cmd_procs_prio_app o l1 l2 cred s :
  cmd_procs_prio o (l1 ++ l2) cred s =
  cmd_procs_prio o l2 cred (cmd_procs_prio o l1 cred s).
Proof. unfold cmd_procs_prio. apply foldl_app. Qed.

(** C10.  A PROCPRIO whose oomadj is outside [-1000, 1000] or whose
    process type is outside the enumeration leaves the daemon state as it
    was: nothing is added to the trace, so no write of oom_score_adj is
    attempted, and the registry is unchanged.  As an entry of a PROCS_PRIO
    batch it has the effect of not being in the batch. *)
Theorem procprio_invalid_rejected o params cred s :
  procprio_invalid params →
  cmd_procprio o params cred s = s ∧
  trace (cmd_procprio o params cred s) = trace s ∧
  reg (cmd_procprio o params cred s) = reg s ∧
  (∀ before after,
      cmd_procs_prio o (before ++ params :: after) cred s =
      cmd_procs_prio o (before ++ after) cred s).
Proof.
  intros Hbad.
  assert (Hs : cmd_procprio o params cred s = s)
    by (by apply apply_proc_prio_invalid).
  rewrite Hs. repeat split.
  intros before after. rewrite !cmd_procs_prio_app.
  change (params :: after) with ([params] ++ after).
  rewrite cmd_procs_prio_app. f_equal.
  cbn. by apply apply_proc_prio_invalid.
Qed.

End ProcPrio.

Lemma procprio_invalid_rejected_witness :
  let H := example_headers in
  let params := example_procprio 10 1001 in
  procprio_invalid params ∧
  cmd_procprio (os_calm 99000) params example_cred state_two_procs = state_two_procs.
Proof.
  intros H params.
  assert (Hbad : procprio_invalid params) by (right; left; reflexivity).
  split; [exact Hbad|].
  exact (proj1 (procprio_invalid_rejected (os_calm 99000) params example_cred
                  state_two_procs Hbad)).
Defined.

(** ** TARGET rate limit (C9) *)

Section Target.
Context `{HeaderConstants}.




End Target.


(** ** The thrashing window (C3) *)

Section Thrashing.
Context `{HeaderConstants}.


(** Inside a window step 6 leaves the window as it is. *)
Lemma update_thrashing_inside c curr_tm vs refault e :
  get_time_diff_ms (thrashing_reset_tm e) curr_tm ≤ THRASHING_RESET_INTERVAL_MS →
  thrashing_window (update_thrashing c curr_tm vs refault e).1 = thrashing_window e ∧
  (update_thrashing c curr_tm vs refault e).2 =
    Z.quot ((refault - init_ws_refault e) * 100) (base_file_lru e + 1)
    + prev_thrash_growth e.
Proof.
  intros Hin. unfold update_thrashing.
  destruct (THRASHING_RESET_INTERVAL_MS <? _) eqn:E; [lia|].
  cbn -[Z.quot]. by destruct (max_thrashing e <? _).
Qed.




Lemma prefix_reached_cfg o d events s r :
  mp_event_psi_prefix o d events s = PrefixReached r → cfg (at_state r) = cfg s.
Proof.
  unfold mp_event_psi_prefix.
  repeat case_match; try discriminate.
  all: intros [= <-]; cbn [at_state].
  all: by rewrite (proj1 (proj2 (proj2 (stop_wait_tables _ _)))).
Qed.


End Thrashing.


(** ** The gate of the kill in flight (C2) *)

Section Gate.
Context `{HeaderConstants}.




End Gate.



(** ** The min score handed to victim selection (C1) *)

Section MinScore.
Context `{HeaderConstants}.

Lemma wmark_above_min w :
  (wmark_rank WMARK_MIN <? wmark_rank w) = bool_decide (w ≠ WMARK_MIN).
Proof. by destruct w. Qed.

(** Entered with the initial values of the locals, the chain of step 9
    yields the score of the table for the reason it yields. *)
Lemma classify_first_pass c x level w e reason score cut e' :
  classify c x level w NONE 0 false e = (reason, score, cut, e') →
  score = step9_table_min_score c reason w (in_thrashing x) 0.
Proof.
  unfold classify. rewrite wmark_above_min.
  repeat match goal with
         | |- context [if ?b then _ else _] => destruct b eqn:?
         end;
    intros [= <- <- <- <-]; cbn;
    rewrite ?Heqb, ?Heqb0, ?Heqb1, ?Heqb2, ?Heqb3, ?Heqb4, ?Heqb5, ?Heqb6; try reflexivity.
Qed.

(** Where the chain of step 9 is run once, which is every kill but the
    first of the daemon's life, the score handed to victim selection is
    the one of the table, or 0 under a critical stall. *)
Lemma min_score_single_pass o d events r s rc sw k :
  first_kill (at_engine r) = false →
  mp_event_psi_suffix o d events r = PsiKill s rc sw k →
  kd_min_score_adj k =
    if kd_critical_stall k then 0
    else step9_table_min_score (cfg (at_state r)) (kd_reason k) (kd_wmark k)
           (kd_thrashing k) (vendor_score_of d).
Proof.
  intros Hfk. unfold mp_event_psi_suffix.
  destruct (update_thrashing _ _ _ _ _) as [e5 thrashing] eqn:Hthr.
  assert (Hfk5 : first_kill e5 = false).
  { revert Hthr. unfold update_thrashing.
    repeat match goal with
           | |- context [if ?b then _ else _] => destruct b
           end; intros [= <- _]; exact Hfk. }
  unfold psi_pass.
  set (x := {| in_data := d |}).
  destruct (if _ || _ then _ else Some e5) as [e1|] eqn:Href; [|done].
  assert (Hfk1 : first_kill e1 = false).
  { revert Href. destruct (_ || _); [|by intros [= <-]].
    destruct (os_zoneinfo o 0); [|done]. by intros [= <-]. }
  cbn [in_data x].
  destruct d as [level|vreason vscore].
  - destruct (classify _ _ _ _ _ _ _ _) as [[[reason score] cut] e2] eqn:Hcl.
    assert (Hfk2 : first_kill e2 = false).
    { revert Hcl. unfold classify.
      repeat match goal with
             | |- context [if ?b then _ else _] => destruct b
             end; intros [= _ _ _ <-]; exact Hfk1. }
    apply classify_first_pass in Hcl.
    cbn [psi_locals_init kill_reason min_score_adj cut_thrashing_limit critical_stall].
    destruct (bool_decide (reason = NONE) && _) eqn:Hlow.
    + cbn. rewrite Hfk2. unfold decide_kill. intros [= _ _ _ <-]. cbn.
      by destruct (os_psi_mem o 0) as [[]|].
    + cbn [kill_reason]. destruct (bool_decide (reason = NONE)); [done|].
      rewrite Hfk2. unfold decide_kill. intros [= _ _ _ <-]. cbn.
      rewrite Hcl. by destruct (os_psi_mem o 0) as [[]|].
  - destruct ((vreason <? 0) || (VENDOR_KILL_REASON_END <? vreason) || (vscore <? 0));
      [done|].
    cbn. rewrite Hfk1. unfold decide_kill. intros [= _ _ _ <-]. cbn.
    by destruct (os_psi_mem o 0) as [[]|].
Qed.

(** On every path to a kill, the first kill included, a critical stall
    lowers the score to 0. *)
Lemma critical_stall_lowers_min_score o d events r s rc sw k :
  mp_event_psi_suffix o d events r = PsiKill s rc sw k →
  kd_critical_stall k = true → kd_min_score_adj k = 0.
Proof.
  unfold mp_event_psi_suffix.
  destruct (update_thrashing _ _ _ _ _) as [e5 thrashing].
  destruct (psi_pass 0 _ _ _ _ _) as [e6|l1 e6]; [done|].
  destruct (bool_decide (kill_reason l1 = NONE)); [done|].
  destruct (first_kill e6).
  - destruct (psi_pass 1 _ _ _ _ _) as [e8|l2 e8]; [done|].
    destruct (bool_decide (kill_reason l2 = NONE)); [done|].
    unfold decide_kill. intros [= _ _ _ <-]. cbn. by intros ->.
  - unfold decide_kill. intros [= _ _ _ <-]. cbn. by intros ->.
Qed.

End MinScore.

(** C1 at the input where the code departs from it.  The daemon has
    refreshed its watermarks on a calm MEDIUM event at 100 s
    ([state_after_calm_event], first_kill still set).  At 110 s a MEDIUM
    event finds 1500 free pages and 5 % of the swap free.  Against the
    stored watermarks 1000/2000/3000 that is WMARK_LOW: step 9 picks
    LOW_MEM_AND_SWAP with score 201.  Being the first kill, the
    watermarks are re-read (now 1600/2400/3200, so WMARK_MIN) and step 9
    is re-entered; it picks LOW_MEM_AND_SWAP again and, the watermark no
    longer being above MIN, assigns no score: the 201 of the first pass
    is what [find_and_kill_process] gets, where the table has 0. *)
Theorem first_kill_passes_stale_min_score :
  let H := example_headers in
  reachable example_tunables state_after_calm_event ∧
  ∃ s rc sw k,
    mp_event_psi_decide os_tight (PsiLevel VMPRESS_LEVEL_MEDIUM) 1 state_after_calm_event
      = PsiKill s rc sw k ∧
    kd_reason k = LOW_MEM_AND_SWAP ∧
    kd_wmark k = WMARK_MIN ∧
    kd_critical_stall k = false ∧
    kd_min_score_adj k = 201 ∧
    step9_table_min_score example_tunables (kd_reason k) (kd_wmark k) (kd_thrashing k) 0 = 0.
Proof.
  intros H. split.
  - eapply (reachable_step _ (OpPressure (os_calm 100000) (PsiLevel VMPRESS_LEVEL_MEDIUM) 1
                                polling_params_init));
      [apply reachable_init|].
    vm_compute. reflexivity.
  - eexists _, _, _, _. split; [vm_compute; reflexivity|].
    cbn. repeat split.
Qed.

(** ** The stored pressure level (C8) *)


(** ** The walk over the scores (C4) *)

(** C4 at the input where the code departs from it.  Pid 10 is
    registered at score 900 and pid 20 at score 800; pid 10 has died and
    its status file is gone.  The walk from 1000 down to 0 reaches score
    900, the attempt on pid 10 fails and removes its record, the list of
    score 900 is then empty, and the -1 of the failed attempt ends the
    walk: no kill is issued, although pid 20 is alive and eligible, as
    the next call shows, which kills it and returns its 1000 pages. *)
Theorem dead_record_ends_the_walk :
  let H := example_headers in
  let o := os_pid10_gone 100000 in
  reachable example_tunables state_two_procs ∧
  ∃ s' s'',
    find_and_kill_process o 0 (at_ms 100000) state_two_procs = Some (-1, s') ∧
    pid_lookup (reg s') 10 = None ∧
    is_Some (pid_lookup (reg s') 20) ∧
    trace s' = EvClose 1010 :: trace state_two_procs ∧
    find_and_kill_process o 0 (at_ms 100000) s' = Some (1000, s'') ∧
    EvReaperKill 1020 20 10020 ∈ trace s''.
Proof.
  intros H o. split; [apply state_two_procs_reachable|].
  eexists _, _.
  split; [vm_compute; reflexivity|].
  split; [vm_compute; reflexivity|].
  split; [vm_compute; eexists; reflexivity|].
  split; [vm_compute; reflexivity|].
  split; [vm_compute; reflexivity|].
  vm_compute. apply list_elem_of_In. cbn. tauto.
Qed.

(** * Properties beyond the claims *)

(** ** What victim selection does to the trace and to the tables *)

Section KillTrace.
Context `{HeaderConstants}.

Lemma filter_wait_nil new :
  Forall (λ ev, is_wait_event ev = true) new →
  filter (λ ev, is_wait_event ev = false) new = [].
Proof.
  induction 1 as [|ev new Hev _ IH]; [done|].
  rewrite filter_cons. destruct (decide (is_wait_event ev = false)); [congruence|done].
Qed.

Lemma stop_wait_trace b s :
  ∃ new, trace (stop_wait_for_proc_kill b s) = new ++ trace s ∧
         Forall (λ ev, is_wait_event ev = true) new.
Proof.
  unfold stop_wait_for_proc_kill.
  destruct (last_kill_pid_or_fd (kw s) <? 0); [by exists []|].
  destruct (pidfd_supported (cfg s)); cbn.
  - eexists [_; _]. split; [done|]. by repeat constructor.
  - by exists [].
Qed.

Lemma start_wait_trace o fd s :
  ∃ new, trace (start_wait_for_proc_kill o fd s) = new ++ trace s ∧
         Forall (λ ev, is_wait_event ev = true) new.
Proof.
  unfold start_wait_for_proc_kill.
  destruct (stop_wait_trace false s) as (new0 & Hnew0 & Hall0).
  destruct (stop_wait_tables false s) as (_ & _ & Hcfg & _).
  destruct (0 <=? last_kill_pid_or_fd (kw s)); cbn.
  - rewrite Hcfg. destruct (pidfd_supported (cfg s)); cbn.
    + destruct (os_epoll_add_ok o fd); cbn; rewrite Hnew0.
      * exists (EvEpollAdd fd :: new0). split; [done|]. by constructor.
      * exists (EvClose fd :: EvEpollAdd fd :: new0). split; [done|].
        by repeat constructor.
    + by exists new0.
  - destruct (pidfd_supported (cfg s)); cbn.
    + destruct (os_epoll_add_ok o fd); cbn.
      * exists [EvEpollAdd fd]. split; [done|]. by repeat constructor.
      * exists [EvClose fd; EvEpollAdd fd]. split; [done|]. by repeat constructor.
    + by exists [].
Qed.

Lemma pid_remove_trace p s :
  ∃ new, trace (pid_remove p s).2 = new ++ trace s ∧
         Forall (λ ev, is_wait_event ev = true) new.
Proof.
  unfold pid_remove.
  destruct (chain_find _ _ _) as [[a rec]|]; [|by exists []]. cbn.
  destruct (_ && _); cbn.
  - eexists [_]. split; [done|]. by repeat constructor.
  - by exists [].
Qed.

Lemma pid_remove_rest p s :
  cfg (pid_remove p s).2 = cfg s ∧ kc (pid_remove p s).2 = kc s ∧
  kw (pid_remove p s).2 = kw s ∧ eng (pid_remove p s).2 = eng s ∧
  tgt (pid_remove p s).2 = tgt s.
Proof.
  unfold pid_remove.
  destruct (chain_find _ _ _) as [[a rec]|]; [|done]. cbn.
  by destruct (_ && _).
Qed.

(** [kill_one_process], by what it does besides the bookkeeping of the
    wait: nothing, a kill that failed, or a kill that is counted and
    reported. *)
Lemma kill_one_process_events o rec min_score tm s :
  let r := kill_one_process o rec min_score tm s in
  let killed := kill_attempted o rec
                && (os_reaper_kill o (pidfd rec) (pid rec) (uid rec) =? 0) in
  cfg r.2 = cfg s ∧ tgt r.2 = tgt s ∧ eng r.2 = eng s ∧
  kc r.2 = (if killed then inc_killcnt (oomadj rec) (kc s) else kc s) ∧
  ∃ new, trace r.2 = new ++ trace s ∧
    filter (λ ev, is_wait_event ev = false) new =
      (if kill_attempted o rec then
         if os_reaper_kill o (pidfd rec) (pid rec) (uid rec) =? 0
         then [EvNotifyKill (pid rec) (uid rec) (status_rss_kb o (pid rec));
               EvReaperKill (pidfd rec) (pid rec) (uid rec)]
         else [EvReaperKill (pidfd rec) (pid rec) (uid rec)]
       else []).
Proof.
  cbv zeta.
  assert (Hout : ∀ (result : Z) s1 (newk : list event) k,
    cfg s1 = cfg s → tgt s1 = tgt s → eng s1 = eng s → kc s1 = k →
    (∃ new, trace s1 = new ++ trace s ∧
            filter (λ ev, is_wait_event ev = false) new = newk) →
    let r := (result, (pid_remove (pid rec) s1).2) in
    cfg r.2 = cfg s ∧ tgt r.2 = tgt s ∧ eng r.2 = eng s ∧ kc r.2 = k ∧
    ∃ new, trace r.2 = new ++ trace s ∧
           filter (λ ev, is_wait_event ev = false) new = newk).
  { intros result s1 newk k Hc Ht He Hk (new1 & Hnew1 & Hf1). cbn [snd].
    destruct (pid_remove_rest (pid rec) s1) as (-> & -> & _ & -> & ->).
    destruct (pid_remove_trace (pid rec) s1) as (new2 & -> & Hall2).
    repeat (split; [done|]).
    exists (new2 ++ new1). rewrite Hnew1, app_assoc. split; [done|].
    by rewrite filter_app, (filter_wait_nil _ Hall2). }
  assert (Hnone : ∃ new, trace s = new ++ trace s ∧
                         filter (λ ev, is_wait_event ev = false) new = [])
    by (by exists []).
  unfold kill_one_process, kill_attempted, status_rss_kb.
  destruct (valid rec); cbn [negb andb]; [|by apply Hout].
  destruct (os_proc_status o (pid rec)) as [st|]; [|by apply Hout].
  cbn [mbind option_bind].
  destruct (st_tgid st) as [tgid|]; [|by apply Hout].
  destruct (tgid =? pid rec); cbn [negb andb].
  2: { destruct (st_vmrss st), (st_vmswap st); by apply Hout. }
  destruct (st_vmrss st) as [rss_kb|]; [|by apply Hout].
  destruct (st_vmswap st) as [swap_kb|]; [|by apply Hout].
  destruct (os_proc_name o (pid rec)) as [name|]; [|by apply Hout].
  rewrite bool_decide_eq_true_2 by done. cbn [andb default].
  destruct (0 <? os_free_memory_before_kill_hook o (pid rec)) eqn:Ehook.
  { assert ((os_free_memory_before_kill_hook o (pid rec) <=? 0) = false) as -> by lia.
    cbn [fst snd andb]. repeat (split; [done|]). by exists []. }
  assert ((os_free_memory_before_kill_hook o (pid rec) <=? 0) = true) as -> by lia.
  cbn [andb].
  set (fd := if pidfd rec <? 0 then pid rec else pidfd rec).
  destruct (start_wait_tables o fd s) as (Hr1 & Hk1 & Hc1 & He1).
  destruct (start_wait_trace o fd s) as (new1 & Hnew1 & Hall1).
  assert (Ht1 : tgt (start_wait_for_proc_kill o fd s) = tgt s).
  { unfold start_wait_for_proc_kill, stop_wait_for_proc_kill.
    repeat case_match; reflexivity. }
  destruct (os_reaper_kill o (pidfd rec) (pid rec) (uid rec) =? 0); cbn [negb].
  - apply Hout; cbn; try done.
    + by rewrite Hk1.
    + eexists (_ :: _ :: new1). rewrite Hnew1. split; [done|].
      rewrite !filter_cons. cbn.
      by rewrite (filter_wait_nil _ Hall1).
  - match goal with
    | |- context [stop_wait_for_proc_kill false ?s2] =>
        destruct (stop_wait_tables false s2) as (_ & Hk2 & Hc2 & He2);
        destruct (stop_wait_trace false s2) as (new2 & Hnew2 & Hall2);
        assert (Ht2 : tgt (stop_wait_for_proc_kill false s2) = tgt s2)
          by (unfold stop_wait_for_proc_kill; repeat case_match; reflexivity)
    end.
    apply Hout; cbn in *; try congruence.
    eexists (new2 ++ _ :: new1). rewrite Hnew2, Hnew1, <- app_assoc. split; [done|].
    rewrite filter_app, filter_cons, (filter_wait_nil _ Hall2). cbn.
    by rewrite (filter_wait_nil _ Hall1).
Qed.

End KillTrace.

(** The steps of [find_and_kill_process]: a removal by the scan of
    [proc_get_heaviest], or [kill_one_process] on a record of a score
    between [min_score] and 1000.  A relation that holds across each of
    them, and is reflexive and transitive, holds across the walk. *)
Section Walk.
Context `{HeaderConstants}.
Variables (o : os) (min_score : Z) (tm : timespec).
Variable R : lmkd → lmkd → Prop.
Hypothesis R_refl : ∀ s, R s s.
Hypothesis R_trans : ∀ s1 s2 s3, lmkd_wf s1 → lmkd_wf s2 → R s1 s2 → R s2 s3 → R s1 s3.
Hypothesis R_scan : ∀ s a rec,
  lmkd_wf s → procs (reg s) !! a = Some rec → proc_get_size o (pid rec) < 0 →
  R s (pid_remove (pid rec) s).2.
Hypothesis R_kill : ∀ s a rec,
  lmkd_wf s → procs (reg s) !! a = Some rec →
  min_score ≤ oomadj rec ≤ OOM_SCORE_ADJ_MAX →
  R s (kill_one_process o rec min_score tm s).2.

Lemma heaviest_step_rel h a :
  lmkd_wf (hs_state h) → R (hs_state h) (hs_state (heaviest_step o h a)).
Proof.
  intros Hwf. unfold heaviest_step.
  destruct (procs (reg (hs_state h)) !! a) as [rec|] eqn:Ha; [|done].
  destruct (proc_get_size o (pid rec) <? 0) eqn:Hsz; cbn.
  - apply (R_scan _ a rec); [done..|lia].
  - by destruct (hs_maxsize h <? proc_get_size o (pid rec)).
Qed.

Lemma heaviest_fold_rel l : ∀ h,
  lmkd_wf (hs_state h) → R (hs_state h) (hs_state (foldl (heaviest_step o) h l)).
Proof.
  induction l as [|a l IH]; intros h Hwf; cbn; [done|].
  apply (R_trans _ (hs_state (heaviest_step o h a))); [done| | |].
  - by apply heaviest_step_wf.
  - by apply heaviest_step_rel.
  - apply IH. by apply heaviest_step_wf.
Qed.

Lemma proc_get_heaviest_rel adj s :
  lmkd_wf s → R s (proc_get_heaviest o adj s).2.
Proof.
  intros Hwf. unfold proc_get_heaviest.
  pose proof (heaviest_fold_rel (cells (procadjslot_list (reg s)) (ADJTOSLOT adj))
                {| hs_state := s; hs_maxprocp := None; hs_maxsize := 0 |} Hwf) as Hf.
  destruct (cells (procadjslot_list (reg s)) (ADJTOSLOT adj)) as [|a [|b l]];
    cbn [snd]; [exact Hf|done|exact Hf].
Qed.

Lemma kill_candidates_rel heaviest i : ∀ fuel ks s r s',
  lmkd_wf s → min_score ≤ i ≤ OOM_SCORE_ADJ_MAX →
  kill_candidates fuel o heaviest i min_score tm ks s = Some (r, s') → R s s'.
Proof.
  induction fuel as [|fuel IH]; [done|]. intros ks s r s' Hwf Hi. cbn [kill_candidates].
  destruct (if heaviest then proc_get_heaviest o i s else (proc_adj_tail (reg s) i, s))
    as [procp s1] eqn:Hcand.
  assert (Hs1 : lmkd_wf s1 ∧ R s s1 ∧
                ∀ a, procp = Some a → a ∈ cells (procadjslot_list (reg s1)) (ADJTOSLOT i) ∨
                                      procs (reg s1) !! a = None).
  { destruct heaviest.
    - pose proof (proc_get_heaviest_wf o i s Hwf) as Hw.
      pose proof (proc_get_heaviest_rel i s Hwf) as Hr.
      pose proof (proc_get_heaviest_keeps o i s Hwf) as [Hk _].
      rewrite Hcand in Hw, Hr, Hk. cbn in *. split; [done|]. split; [done|].
      intros a Ha. left. by destruct (Hk a Ha) as (? & _ & ?).
    - injection Hcand as <- <-. split; [done|]. split; [done|].
      intros a Ha. left. by apply last_Some_elem_of in Ha. }
  destruct Hs1 as (Hwf1 & Hr1 & Hin).
  destruct procp as [a|]; [|by intros [= _ <-]].
  destruct (procs (reg s1) !! a) as [rec|] eqn:Ha; [|done].
  destruct (Hin a eq_refl) as [Hin'|Hno]; [|congruence].
  destruct (kill_one_process o rec min_score tm s1) as [ks' s2] eqn:Hkill.
  assert (Hadj : oomadj rec = i).
  { pose proof (proj1 (reg_wf_slot_iff _ _ _ _ (proj1 Hwf1) Ha) Hin') as Hsl.
    unfold ADJTOSLOT, OOM_SCORE_ADJ_MIN in Hsl. lia. }
  assert (Hr2 : R s1 s2).
  { pose proof (R_kill s1 a rec Hwf1 Ha) as Hk. rewrite Hkill in Hk. apply Hk. lia. }
  assert (Hwf2 : lmkd_wf s2).
  { pose proof (kill_one_process_wf o rec min_score tm s1 Hwf1) as Hk. by rewrite Hkill in Hk. }
  destruct (0 <=? ks').
  - intros [= _ <-]. by apply (R_trans _ s1).
  - intros Hrest. apply (R_trans _ s2); [done..| |by eapply IH].
    by apply (R_trans _ s1).
Qed.

Lemma walk_scores_rel : ∀ n heaviest i ks s r s',
  lmkd_wf s → min_score ≤ i - Z.of_nat n + 1 → i ≤ OOM_SCORE_ADJ_MAX →
  walk_scores n o heaviest i min_score tm ks s = Some (r, s') → R s s'.
Proof.
  induction n as [|n IH]; intros heaviest i ks s r s' Hwf Hlo Hhi; cbn [walk_scores].
  - by intros [= _ <-].
  - match goal with
    | |- context [kill_candidates ?f ?a ?b ?c ?d ?e ?g ?h] =>
        destruct (kill_candidates f a b c d e g h) as [[ks' s1]|] eqn:Hk; [|done]
    end.
    pose proof (kill_candidates_wf _ _ _ _ _ _ _ _ _ _ Hwf Hk) as Hwf1.
    apply kill_candidates_rel in Hk; [|done|lia].
    destruct (negb (ks' =? 0)); [by intros [= _ <-]|].
    intros Hrest. apply (R_trans _ s1); [done..|].
    eapply IH; [done| | |exact Hrest]; lia.
Qed.

Lemma find_and_kill_process_rel s r s' :
  lmkd_wf s → find_and_kill_process o min_score tm s = Some (r, s') → R s s'.
Proof.
  intros Hwf. unfold find_and_kill_process.
  destruct (decide (min_score ≤ OOM_SCORE_ADJ_MAX)) as [Hle|Hgt].
  - apply walk_scores_rel; [done| |done]. lia.
  - replace (Z.to_nat (OOM_SCORE_ADJ_MAX - min_score + 1)) with 0%nat by lia.
    by intros [= _ <-].
Qed.

End Walk.

(** ** Pressure handling only removes records *)

Section Shrinks.
Context `{HeaderConstants}.

Lemma registry_shrinks_refl r : registry_shrinks r r.
Proof. done. Qed.

Lemma registry_shrinks_trans r1 r2 r3 :
  registry_shrinks r1 r2 → registry_shrinks r2 r3 → registry_shrinks r1 r3.
Proof.
  intros (Hp1 & Hh1 & Hs1) (Hp2 & Hh2 & Hs2). split; [|split].
  - by transitivity (procs r2).
  - intros h. by transitivity (cells (pidhash r2) h).
  - intros slot. by transitivity (cells (procadjslot_list r2) slot).
Qed.

Lemma unlink_sublist a l : unlink a l `sublist_of` l.
Proof. apply sublist_filter. Qed.

Lemma pid_remove_shrinks_registry p s :
  registry_shrinks (reg s) (reg (pid_remove p s).2).
Proof.
  unfold pid_remove.
  destruct (chain_find _ _ _) as [[a rec]|] eqn:Hf; [|done]. cbn [snd].
  assert (Hreg : ∀ s1 : lmkd, reg (if (0 <=? pidfd rec)
                        && negb (pidfd rec =? last_kill_pid_or_fd (kw s))
                      then emit (EvClose (pidfd rec)) s1 else s1) = reg s1)
    by (intros; by destruct (_ && _)).
  cbn. rewrite !Hreg. cbn. split; [|split].
  - apply delete_subseteq.
  - intros h. cbn. destruct (decide (pid_hashfn p = h)) as [<-|Hh].
    + rewrite cells_insert_eq. apply unlink_sublist.
    + by rewrite cells_insert_ne.
  - intros slot. cbn. rewrite cells_unlink. apply unlink_sublist.
Qed.

Lemma pid_remove_reg p s s1 :
  reg s1 = reg s → reg (pid_remove p s1).2 = reg (pid_remove p s).2.
Proof.
  intros Hreg. unfold pid_remove. cbv zeta. rewrite Hreg.
  destruct (chain_find _ _ _) as [[a rec]|]; [|done]. cbn [snd].
  destruct ((0 <=? pidfd rec) && negb (pidfd rec =? last_kill_pid_or_fd (kw s1)));
    destruct ((0 <=? pidfd rec) && negb (pidfd rec =? last_kill_pid_or_fd (kw s)));
    cbn; by rewrite ?Hreg.
Qed.

Lemma kill_one_process_shrinks o rec min_score tm s :
  registry_shrinks (reg s) (reg (kill_one_process o rec min_score tm s).2).
Proof.
  assert (Hcase : (kill_one_process o rec min_score tm s).2 = s ∨
                  ∃ s1, reg s1 = reg s ∧
                    (kill_one_process o rec min_score tm s).2 = (pid_remove (pid rec) s1).2).
  { unfold kill_one_process.
    repeat case_match; cbn [fst snd];
      try (right; exists s; split; reflexivity);
      try (left; reflexivity).
    all: right; eexists; (split; [|reflexivity]).
    all: repeat match goal with
                | |- context [stop_wait_for_proc_kill ?b ?s1] =>
                    rewrite (proj1 (stop_wait_tables b s1))
                | |- context [start_wait_for_proc_kill ?o ?fd ?s1] =>
                    rewrite (proj1 (start_wait_tables o fd s1))
                | _ => progress cbn
                end.
    all: reflexivity. }
  destruct Hcase as [->|(s1 & Hreg & ->)]; [done|].
  rewrite (pid_remove_reg _ s s1 Hreg). apply pid_remove_shrinks_registry.
Qed.

Lemma find_and_kill_process_shrinks o min_score tm s r s' :
  lmkd_wf s → find_and_kill_process o min_score tm s = Some (r, s') →
  registry_shrinks (reg s) (reg s').
Proof.
  apply (find_and_kill_process_rel o min_score tm
           (λ s s', registry_shrinks (reg s) (reg s'))).
  - intros. apply registry_shrinks_refl.
  - intros ????? . apply registry_shrinks_trans.
  - intros. apply pid_remove_shrinks_registry.
  - intros. apply kill_one_process_shrinks.
Qed.


End Shrinks.


(** ** Whom victim selection signals *)

Section Floor.
Context `{HeaderConstants}.

Lemma kill_attempted_facts o rec :
  kill_attempted o rec = true →
  valid rec = true ∧
  os_free_memory_before_kill_hook o (pid rec) ≤ 0 ∧
  is_Some (os_proc_name o (pid rec)) ∧
  ∃ st, os_proc_status o (pid rec) = Some st ∧ st_tgid st = Some (pid rec) ∧
        is_Some (st_vmrss st) ∧ is_Some (st_vmswap st).
Proof.
  unfold kill_attempted.
  destruct (valid rec); [|done]. cbn [andb].
  destruct (os_proc_status o (pid rec)) as [st|]; [|done].
  destruct (st_tgid st) as [tgid|] eqn:Ht; [|done].
  destruct (st_vmrss st) as [rss|] eqn:Hr; [|done].
  destruct (st_vmswap st) as [sw|] eqn:Hs; [|done].
  intros Hb. apply andb_true_iff in Hb as [Hb Hhook].
  apply andb_true_iff in Hb as [Htg Hname].
  apply bool_decide_eq_true in Hname.
  split; [done|]. split; [lia|]. split; [done|].
  exists st. rewrite Ht, Hr, Hs. split; [done|]. split; [|done].
  f_equal. lia.
Qed.

Lemma find_and_kill_process_signals o min_score tm s r s' :
  lmkd_wf s → find_and_kill_process o min_score tm s = Some (r, s') →
  procs (reg s') ⊆ procs (reg s) ∧
  ∃ new, trace s' = new ++ trace s ∧ signals_within o min_score (reg s) new.
Proof.
  apply (find_and_kill_process_rel o min_score tm
           (λ s s', procs (reg s') ⊆ procs (reg s) ∧
                    ∃ new, trace s' = new ++ trace s ∧
                           signals_within o min_score (reg s) new)).
  - intros s0. split; [done|]. exists []. split; [done|].
    intros fd p u Hin. by apply elem_of_nil in Hin.
  - intros s1 s2 s3 _ _ (Hp1 & new1 & Ht1 & Hs1) (Hp2 & new2 & Ht2 & Hs2).
    split; [by transitivity (procs (reg s2))|].
    exists (new2 ++ new1). rewrite Ht2, Ht1, app_assoc. split; [done|].
    intros fd p u Hin. apply elem_of_app in Hin as [Hin|Hin].
    + destruct (Hs2 fd p u Hin) as (a & rec & Ha & Hrest).
      exists a, rec. split; [by eapply lookup_weaken|done].
    + by apply Hs1.
  - intros s0 a rec _ _ _.
    split; [apply pid_remove_shrinks_registry|].
    destruct (pid_remove_trace (pid rec) s0) as (new & Hnew & Hall).
    exists new. split; [done|]. intros fd p u Hin.
    rewrite Forall_forall in Hall. by specialize (Hall _ Hin).
  - intros s0 a rec _ Ha Hadj.
    split; [apply kill_one_process_shrinks|].
    destruct (kill_one_process_events o rec min_score tm s0)
      as (_ & _ & _ & _ & new & Hnew & Hf).
    exists new. split; [done|]. intros fd p u Hin.
    assert (Hin' : EvReaperKill fd p u ∈ filter (λ ev, is_wait_event ev = false) new)
      by (by apply list_elem_of_filter).
    rewrite Hf in Hin'.
    destruct (kill_attempted o rec) eqn:Hatt; [|by apply elem_of_nil in Hin'].
    assert (Hev : EvReaperKill fd p u = EvReaperKill (pidfd rec) (pid rec) (uid rec)).
    { destruct (_ =? 0).
      - apply elem_of_cons in Hin' as [Hd|Hin']; [done|].
        by apply list_elem_of_singleton in Hin'.
      - by apply list_elem_of_singleton in Hin'. }
    injection Hev as -> -> ->. by exists a, rec.
Qed.


End Floor.


(** ** Stale records *)

Section Stale.
Context `{HeaderConstants}.

Lemma kill_one_process_stale o rec min_score tm s :
  record_stale o rec →
  kill_one_process o rec min_score tm s = (-1, (pid_remove (pid rec) s).2).
Proof.
  intros Hstale. unfold kill_one_process.
  destruct (valid rec) eqn:Hv; cbn [negb]; [|done].
  destruct (os_proc_status o (pid rec)) as [st|] eqn:Hst; [|done].
  destruct (st_tgid st) as [tgid|] eqn:Htg; [|done].
  destruct (tgid =? pid rec) eqn:Heq; cbn [negb]; [|done].
  destruct (st_vmrss st) as [rss|] eqn:Hrss; [|done].
  destruct (st_vmswap st) as [sw|] eqn:Hsw; [|done].
  destruct (os_proc_name o (pid rec)) as [name|] eqn:Hname; [|done].
  exfalso.
  destruct Hstale as [Hs|[Hs|[(st' & Hst' & Hbad)|Hs]]];
    [congruence|congruence| |congruence].
  assert (st' = st) as -> by congruence.
  destruct Hbad as [Hb|[(t & Ht & Hne)|[Hb|Hb]]]; [congruence| |congruence|congruence].
  assert (t = tgid) as -> by congruence. lia.
Qed.

(** X3.  A stale record is dropped without a signal.  When the candidate
    was invalidated by the watchdog, or its process is gone, or its pid
    now belongs to a thread of another process, or it is a zombie,
    [kill_one_process] returns -1 and makes no [reaper.kill] call and no
    kill report, leaves the kill counters and the kill wait as they
    were, and removes the record: the pid is no longer found.  The only
    call it makes is the close of the record's pidfd, when it has one
    that is not being waited on. *)
Theorem stale_record_dropped c o rec a min_score tm s :
  reachable c s →
  procs (reg s) !! a = Some rec →
  record_stale o rec →
  let r := kill_one_process o rec min_score tm s in
  r.1 = -1 ∧
  pid_lookup (reg r.2) (pid rec) = None ∧
  kc r.2 = kc s ∧ kw r.2 = kw s ∧
  trace r.2 =
    (if (0 <=? pidfd rec) && negb (pidfd rec =? last_kill_pid_or_fd (kw s))
     then EvClose (pidfd rec) :: trace s else trace s).
Proof.
  intros Hreach Ha Hstale r. subst r.
  rewrite (kill_one_process_stale o rec min_score tm s Hstale). cbn [fst snd].
  pose proof (reachable_wf c s Hreach) as [Hr _].
  destruct (removed_pid_not_found s a rec Hr Ha) as (Hgone & _ & _ & _ & Htr & Hkw & _).
  destruct (pid_remove_rest (pid rec) s) as (_ & Hkc & _).
  done.
Qed.

End Stale.

Lemma stale_record_dropped_witness :
  let H := example_headers in
  let rec := {| pid := 10; pidfd := 1010; uid := 10010; oomadj := 900;
                reg_pid := 1; valid := true |} in
  let r := kill_one_process (os_pid10_gone 100000) rec 0 (at_ms 100000) state_two_procs in
  record_stale (os_pid10_gone 100000) rec ∧
  r.1 = -1 ∧
  pid_lookup (reg r.2) 10 = None ∧
  trace r.2 = EvClose 1010 :: trace state_two_procs.
Proof.
  intros H rec r.
  assert (Ha : procs (reg state_two_procs) !! 1%nat = Some rec) by reflexivity.
  assert (Hstale : record_stale (os_pid10_gone 100000) rec) by (right; left; reflexivity).
  destruct (stale_record_dropped example_tunables (os_pid10_gone 100000) rec 1%nat 0
              (at_ms 100000) state_two_procs state_two_procs_reachable Ha Hstale)
    as (Hres & Hgone & _ & _ & Htr).
  split; [exact Hstale|]. split; [exact Hres|]. split; [exact Hgone|].
  etransitivity; [exact Htr|]. reflexivity.
Defined.

(** ** The total kill counter *)

Section Accounting.
Context `{HeaderConstants}.






















End Accounting.


(** ** The per-score kill counters *)

Section PerScore.

Lemma count_score_cons a l adj :
  count_score (a :: l) adj = (if decide (a = adj) then 1 else 0) + count_score l adj.
Proof.
  unfold count_score. rewrite filter_cons.
  destruct (decide (a = adj)); cbn [length]; lia.
Qed.

Lemma count_score_nonneg l adj : 0 ≤ count_score l adj.
Proof. unfold count_score. lia. Qed.

Lemma count_score_le l adj : count_score l adj ≤ Z.of_nat (length l).
Proof. unfold count_score. pose proof (length_filter (λ a, a = adj) l). lia. Qed.

Lemma count_score_absent l adj : adj ∉ l → count_score l adj = 0.
Proof.
  intros Hnot. unfold count_score.
  induction l as [|a l IH]; [done|].
  apply not_elem_of_cons in Hnot as [Hne Hnot].
  rewrite filter_cons. destruct (decide (a = adj)); [congruence|]. by apply IH.
Qed.

Lemma kc_exact_init : kc_exact kill_counters_init [].
Proof.
  split; [apply kc_wf_init|]. split; [done|]. split; [|split].
  - intros adj Hr _. cbn. apply lookup_replicate. split; [done|].
    unfold ADJTOSLOT_COUNT, ADJTOSLOT, OOM_SCORE_ADJ_MIN, OOM_SCORE_ADJ_MAX in *. lia.
  - intros adj _ Hin. by apply elem_of_nil in Hin.
  - intros adj adj' idx _ _ Hl _ Hne. cbn in Hl.
    apply lookup_replicate in Hl as [-> _]. done.
Qed.

Lemma kc_exact_step k l a :
  kc_exact k l →
  OOM_SCORE_ADJ_MIN ≤ a ≤ OOM_SCORE_ADJ_MAX →
  (length (remove_dups (a :: l)) ≤ 32)%nat →
  count_score (a :: l) a < 65536 →
  kc_exact (inc_killcnt a k) (a :: l).
Proof.
  intros (Hwf & Hfree & Hout & Hin & Hinj) Ha Hdist Hcount.
  pose proof Hwf as (Hl1 & Hl2 & Hfree0 & Hall).
  assert (Hslot : ∀ x, ADJTOSLOT x = x + 1000)
    by (intros; unfold ADJTOSLOT, OOM_SCORE_ADJ_MIN; lia).
  assert (Hmin : OOM_SCORE_ADJ_MIN = -1000) by reflexivity.
  assert (Hmax : OOM_SCORE_ADJ_MAX = 1000) by reflexivity.
  assert (Hcnt : ADJTOSLOT_COUNT = 2001) by reflexivity.
  assert (Hmd : MAX_DISTINCT_OOM_ADJ = 32) by reflexivity.
  assert (Hinv : KILLCNT_INVALID_IDX = 255) by reflexivity.
  rewrite Hmin, Hmax in *.
  assert (Hl1' : Z.of_nat (length (killcnt_idx k)) = 2001) by (rewrite Hl1; done).
  assert (Hl2' : Z.of_nat (length (killcnt k)) = 32) by (rewrite Hl2; done).
  clear Hl1 Hl2.
  assert (Hneq : ∀ x, -1000 ≤ x ≤ 1000 → x ≠ a →
                      Z.to_nat (ADJTOSLOT a) ≠ Z.to_nat (ADJTOSLOT x))
    by (intros x ??; rewrite !Hslot; lia).
  split; [by apply inc_killcnt_wf|].
  unfold inc_killcnt, array_get, array_set.
  destruct (ADJTOSLOT a <? 0) eqn:E0; [exfalso; rewrite Hslot in E0; lia|].
  cbn [remove_dups] in Hdist |- *.
  destruct (decide_rel elem_of a l) as [Hal|Hal].
  - (* the score has its counter *)
    destruct (Hin a Ha Hal) as (idx & Hidx & Hrange & Hk).
    rewrite Hidx.
    assert ((idx =? KILLCNT_INVALID_IDX) = false) as -> by (rewrite Hinv; lia).
    destruct (idx <? 0) eqn:E1; [exfalso; lia|]. rewrite Hk. cbn [default].
    rewrite count_score_cons in Hcount. destruct (decide (a = a)); [|done].
    pose proof (count_score_nonneg l a).
    rewrite (Z.mod_small (count_score l a + 1)) by (change (2 ^ 16) with 65536; lia).
    cbn [killcnt_idx killcnt killcnt_free_idx].
    split; [done|]. split; [|split].
    + intros adj Hr Hnot. apply not_elem_of_cons in Hnot as [_ Hnot]. by apply Hout.
    + intros adj Hr Hadj.
      destruct (decide (adj = a)) as [->|Hne].
      * exists idx. split; [done|]. split; [done|].
        rewrite count_score_cons. destruct (decide (a = a)); [|done].
        rewrite list_lookup_insert_eq; [f_equal; lia|]. lia.
      * apply elem_of_cons in Hadj as [?|Hadj]; [done|].
        destruct (Hin adj Hr Hadj) as (idx' & Hidx' & Hrange' & Hk').
        exists idx'. split; [done|]. split; [done|].
        rewrite count_score_cons. destruct (decide (a = adj)); [congruence|].
        rewrite list_lookup_insert_ne; [done|].
        intros Heq. apply Hne. apply (Hinj adj a idx'); try done; [|lia].
        by replace idx' with idx by lia.
    + done.
  - (* the first kill at this score *)
    rewrite (Hout a Ha Hal). rewrite Z.eqb_refl.
    cbn [length] in Hdist.
    destruct (killcnt_free_idx k <? MAX_DISTINCT_OOM_ADJ) eqn:E1; [|exfalso; lia].
    destruct (killcnt_free_idx k <? 0) eqn:E2; [exfalso; lia|].
    cbn [killcnt_idx killcnt killcnt_free_idx length].
    split; [lia|]. split; [|split].
    + intros adj Hr Hnot. apply not_elem_of_cons in Hnot as [Hne Hnot].
      rewrite list_lookup_insert_ne by (apply Hneq; done). by apply Hout.
    + intros adj Hr Hadj.
      destruct (decide (adj = a)) as [->|Hne].
      * exists (killcnt_free_idx k).
        rewrite list_lookup_insert_eq by (rewrite Hslot; lia).
        split; [done|]. split; [lia|].
        rewrite list_lookup_insert_eq by lia.
        rewrite count_score_cons, (count_score_absent l a Hal).
        by destruct (decide (a = a)).
      * apply elem_of_cons in Hadj as [?|Hadj]; [done|].
        destruct (Hin adj Hr Hadj) as (idx' & Hidx' & Hrange' & Hk').
        exists idx'. rewrite list_lookup_insert_ne by (apply Hneq; done).
        split; [done|]. split; [lia|].
        rewrite list_lookup_insert_ne by lia.
        rewrite count_score_cons. by destruct (decide (a = adj)); [congruence|].
    + intros adj adj' idx Hr Hr' Hl Hl' Hne.
      destruct (decide (adj = a)) as [->|Hna]; destruct (decide (adj' = a)) as [->|Hna'];
        [done| | |].
      * exfalso. rewrite list_lookup_insert_eq in Hl by (rewrite Hslot; lia).
        rewrite list_lookup_insert_ne in Hl' by (apply Hneq; done).
        injection Hl as <-.
        destruct (decide (adj' ∈ l)) as [Hin'|Hnot'].
        -- destruct (Hin adj' Hr' Hin') as (idx' & Hidx' & Hrange' & _).
           rewrite Hidx' in Hl'. injection Hl' as ->. lia.
        -- rewrite (Hout adj' Hr' Hnot') in Hl'. by injection Hl' as Heq.
      * exfalso. rewrite list_lookup_insert_eq in Hl' by (rewrite Hslot; lia).
        rewrite list_lookup_insert_ne in Hl by (apply Hneq; done).
        injection Hl' as <-.
        destruct (decide (adj ∈ l)) as [Hin'|Hnot'].
        -- destruct (Hin adj Hr Hin') as (idx' & Hidx' & Hrange' & _).
           rewrite Hidx' in Hl. injection Hl as ->. lia.
        -- rewrite (Hout adj Hr Hnot') in Hl. by injection Hl as Heq.
      * rewrite list_lookup_insert_ne in Hl by (apply Hneq; done).
        rewrite list_lookup_insert_ne in Hl' by (apply Hneq; done).
        by apply (Hinj adj adj' idx).
Qed.

Lemma remove_dups_cons_le {A} `{EqDecision A} (a : A) l :
  (length (remove_dups l) ≤ length (remove_dups (a :: l)))%nat.
Proof. cbn. destruct (decide_rel elem_of a l); cbn; lia. Qed.

Lemma kills_counted_exact adjs :
  Forall (λ a, OOM_SCORE_ADJ_MIN ≤ a ≤ OOM_SCORE_ADJ_MAX) adjs →
  (length (remove_dups adjs) ≤ 32)%nat → Z.of_nat (length adjs) < 65536 →
  kc_exact (kills_counted adjs) adjs.
Proof.
  induction 1 as [|a l Ha Hall IH]; intros Hdist Hlen; [apply kc_exact_init|].
  cbn [kills_counted foldr]. apply kc_exact_step; [|done..|].
  - apply IH; [|cbn [length] in Hlen; lia].
    pose proof (remove_dups_cons_le a l). lia.
  - pose proof (count_score_le (a :: l) a). lia.
Qed.

Lemma kc_exact_score k adjs adj :
  kc_exact k adjs → OOM_SCORE_ADJ_MIN ≤ adj ≤ OOM_SCORE_ADJ_MAX →
  score_killcnt k adj = count_score adjs adj.
Proof.
  intros (Hwf & Hfree & Hout & Hin & _) Hr.
  unfold score_killcnt, array_get.
  assert (Hs : (ADJTOSLOT adj <? 0) = false)
    by (unfold ADJTOSLOT, OOM_SCORE_ADJ_MIN in *; lia).
  rewrite Hs.
  destruct (decide (adj ∈ adjs)) as [Hadj|Hadj].
  - destruct (Hin adj Hr Hadj) as (idx & -> & Hrange & Hk).
    assert (Hlt : (Z.to_nat idx < length (killcnt k))%nat)
      by (by apply lookup_lt_is_Some; rewrite Hk).
    pose proof Hwf as (_ & Hl2 & _).
    assert ((idx =? KILLCNT_INVALID_IDX) = false) as ->
      by (unfold KILLCNT_INVALID_IDX, MAX_DISTINCT_OOM_ADJ in *; lia).
    destruct (idx <? 0) eqn:E; [exfalso; lia|]. by rewrite Hk.
  - rewrite (Hout adj Hr Hadj), Z.eqb_refl. by rewrite count_score_absent.
Qed.

Lemma Zsum_app l1 l2 : Zsum (l1 ++ l2) = Zsum l1 + Zsum l2.
Proof. unfold Zsum. induction l1 as [|x l1 IH]; cbn; [done|]. rewrite IH. lia. Qed.

Lemma filter_range_step (l : list Z) lo n :
  0 ≤ n →
  Z.of_nat (length (filter (λ a, lo ≤ a < lo + (n + 1)) l)) =
  Z.of_nat (length (filter (λ a, lo ≤ a < lo + n) l)) + count_score l (lo + n).
Proof.
  intros Hn. unfold count_score. induction l as [|x l IH]; [done|].
  rewrite !filter_cons.
  destruct (decide (lo ≤ x < lo + (n + 1))), (decide (lo ≤ x < lo + n)),
    (decide (x = lo + n)); cbn [length]; lia.
Qed.

Lemma Zsum_count_score l lo (n : nat) :
  Zsum (count_score l <$> seqZ lo (Z.of_nat n)) =
  Z.of_nat (length (filter (λ a, lo ≤ a < lo + Z.of_nat n) l)).
Proof.
  induction n as [|n IH].
  - cbn. symmetry. replace (length _) with 0%nat; [done|].
    symmetry. apply length_zero_iff_nil.
    induction l as [|x l IHl]; [done|].
    rewrite filter_cons. destruct (decide (lo ≤ x < lo + Z.of_nat 0)); [lia|done].
  - rewrite seqZ_S, fmap_app, Zsum_app, IH. cbn [fmap list_fmap Zsum foldr].
    replace (Z.of_nat (S n)) with (Z.of_nat n + 1) by lia.
    rewrite filter_range_step by lia. lia.
Qed.

(** X5.  The per-score kill counters are exact.  After kills at the
    scores [adjs] (each between -1000 and 1000), as long as they are at
    no more than 32 different scores and fewer than 65536 in number,
    GETKILLCNT for a range that starts between -1000 and 1000 returns the
    number of those kills whose score is in the range. *)
Theorem per_score_kill_counts adjs lo hi :
  Forall (λ a, OOM_SCORE_ADJ_MIN ≤ a ≤ OOM_SCORE_ADJ_MAX) adjs →
  (length (remove_dups adjs) ≤ 32)%nat →
  Z.of_nat (length adjs) < 65536 →
  OOM_SCORE_ADJ_MIN ≤ lo ≤ OOM_SCORE_ADJ_MAX → lo ≤ hi →
  get_killcnt (kills_counted adjs) lo hi =
    Some (Z.of_nat (length (filter (λ a, lo ≤ a ≤ hi) adjs))).
Proof.
  intros Hall Hdist Hlen Hlo Hle.
  pose proof (kills_counted_exact adjs Hall Hdist Hlen) as Hex.
  pose proof Hex as (Hwf & _).
  assert (Hmin : OOM_SCORE_ADJ_MIN = -1000) by reflexivity.
  assert (Hmax : OOM_SCORE_ADJ_MAX = 1000) by reflexivity.
  unfold get_killcnt.
  destruct (hi <? lo) eqn:E1; [exfalso; lia|].
  destruct (OOM_SCORE_ADJ_MAX <? lo) eqn:E2; [exfalso; lia|].
  rewrite (get_killcnt_loop_sum _ hi Hwf _ _ lo 0 eq_refl);
    [|unfold ADJTOSLOT_COUNT, ADJTOSLOT; rewrite Hmin, Hmax; lia|lia].
  f_equal. rewrite Z.add_0_l. unfold killcnt_range_sum.
  set (hi' := Z.min hi OOM_SCORE_ADJ_MAX).
  assert (Hn : hi' - lo + 1 = Z.of_nat (Z.to_nat (hi' - lo + 1))) by lia.
  rewrite Hn.
  rewrite (list_fmap_ext (score_killcnt (kills_counted adjs)) (count_score adjs)).
  2: { intros i a Ha. apply kc_exact_score; [done|].
       apply lookup_seqZ in Ha as [-> Hi]. lia. }
  rewrite Zsum_count_score. f_equal. f_equal.
  clear -Hall Hmin Hmax. subst hi'.
  induction Hall as [|a l Ha _ IH]; [done|].
  rewrite !filter_cons, IH.
  destruct (decide (lo ≤ a < lo + Z.of_nat (Z.to_nat (Z.min hi OOM_SCORE_ADJ_MAX - lo + 1)))),
    (decide (lo ≤ a ≤ hi)); try done; exfalso; lia.
Qed.

End PerScore.

Lemma per_score_kill_counts_witness :
  get_killcnt (kills_counted [900; 0; 900; 850]) 860 1000 = Some 2 ∧
  get_killcnt (kills_counted [900; 0; 900; 850]) (-1000) 5000 = Some 4.
Proof.
  assert (Hall : Forall (λ a, OOM_SCORE_ADJ_MIN ≤ a ≤ OOM_SCORE_ADJ_MAX) [900; 0; 900; 850]).
  { repeat constructor; unfold OOM_SCORE_ADJ_MIN, OOM_SCORE_ADJ_MAX; lia. }
  assert (Hdist : (length (remove_dups [900; 0; 900; 850]) ≤ 32)%nat)
    by (vm_compute; lia).
  assert (Hlen : Z.of_nat (length [900; 0; 900; 850]) < 65536) by (cbn; lia).
  split.
  - rewrite (per_score_kill_counts _ 860 1000 Hall Hdist Hlen);
      [reflexivity|unfold OOM_SCORE_ADJ_MIN, OOM_SCORE_ADJ_MAX; lia|lia].
  - rewrite (per_score_kill_counts _ (-1000) 5000 Hall Hdist Hlen);
      [reflexivity|unfold OOM_SCORE_ADJ_MIN, OOM_SCORE_ADJ_MAX; lia|lia].
Defined.

(** ** The heaviest process of a score *)

Section Heaviest.
Context `{HeaderConstants}.

Lemma scan_inv_step o s0 seen h b :
  scan_inv o s0 seen h → b ∉ seen → scan_inv o s0 (seen ++ [b]) (heaviest_step o h b).
Proof.
  intros (Hwf & Hfresh & Hsub & Hgone & Hnn & Hmax & Hbest) Hb.
  assert (Hsnoc : ∀ x, x ∈ seen ++ [b] ↔ x ∈ seen ∨ x = b).
  { intros x. rewrite elem_of_app, list_elem_of_singleton. tauto. }
  unfold scan_inv, heaviest_step.
  destruct (procs (reg (hs_state h)) !! b) as [rec|] eqn:Hcur.
  2: { (* no record: the scan passes over the address *)
    assert (Hb0 : procs (reg s0) !! b = None) by (by rewrite <- (Hfresh b Hb)).
    split; [done|]. split; [|split; [done|split; [|split; [done|split]]]].
    - intros x Hx. apply Hfresh. rewrite Hsnoc in Hx. tauto.
    - intros x rx Hx Hrx. apply Hsnoc in Hx as [Hx| ->]; [by apply Hgone|congruence].
    - intros x rx Hx Hrx. apply Hsnoc in Hx as [Hx| ->]; [by eapply Hmax|congruence].
    - destruct (hs_maxprocp h) as [a|]; [|done].
      destruct Hbest as (Ha & Hrest). split; [|done]. apply Hsnoc. by left. }
  assert (Hb0 : procs (reg s0) !! b = Some rec) by (by rewrite <- (Hfresh b Hb)).
  destruct (proc_get_size o (pid rec) <? 0) eqn:Hsz.
  - (* statm cannot be read: the record is removed *)
    cbn [hs_state hs_maxprocp hs_maxsize].
    pose proof (pid_remove_Some _ _ _ _ (reg_wf_lookup _ _ _ (proj1 Hwf) Hcur)) as Hrm.
    assert (Hprocs : procs (reg (pid_remove (pid rec) (hs_state h)).2)
                     = delete b (procs (reg (hs_state h)))) by (by rewrite Hrm).
    split; [by apply pid_remove_wf|]. rewrite Hprocs.
    split; [|split; [|split; [|split; [done|split]]]].
    + intros x Hx. rewrite Hsnoc in Hx.
      rewrite lookup_delete_ne by (intros ->; tauto). apply Hfresh. tauto.
    + intros x rx Hx. apply lookup_delete_Some in Hx as [_ Hx]. by apply Hsub.
    + intros x rx Hx Hrx. apply Hsnoc in Hx as [Hx| ->].
      * rewrite lookup_delete_ne by (by intros ->). by apply Hgone.
      * rewrite lookup_delete_eq. assert (rx = rec) as -> by congruence.
        split; [lia|done].
    + intros x rx Hx Hrx. apply Hsnoc in Hx as [Hx| ->]; [by eapply Hmax|].
      assert (rx = rec) as -> by congruence. lia.
    + destruct (hs_maxprocp h) as [a|]; [|done].
      destruct Hbest as (Ha & Hpos & ra & Ha0 & Hac & Hsize).
      split; [apply Hsnoc; by left|]. split; [done|].
      exists ra. split; [done|]. split; [|done].
      rewrite lookup_delete_ne; [done|]. by intros ->.
  - destruct (hs_maxsize h <? proc_get_size o (pid rec)) eqn:Hgt;
      cbn [hs_state hs_maxprocp hs_maxsize].
    + (* a new maximum *)
      split; [done|]. split; [|split; [done|split; [|split; [lia|split]]]].
      * intros x Hx. apply Hfresh. rewrite Hsnoc in Hx. tauto.
      * intros x rx Hx Hrx. apply Hsnoc in Hx as [Hx| ->]; [by apply Hgone|].
        assert (rx = rec) as -> by congruence. rewrite Hcur. split; [done|lia].
      * intros x rx Hx Hrx. apply Hsnoc in Hx as [Hx| ->].
        -- pose proof (Hmax x rx Hx Hrx). lia.
        -- assert (rx = rec) as -> by congruence. lia.
      * split; [apply Hsnoc; by right|]. split; [lia|]. by exists rec.
    + split; [done|]. split; [|split; [done|split; [|split; [done|split]]]].
      * intros x Hx. apply Hfresh. rewrite Hsnoc in Hx. tauto.
      * intros x rx Hx Hrx. apply Hsnoc in Hx as [Hx| ->]; [by apply Hgone|].
        assert (rx = rec) as -> by congruence. rewrite Hcur. split; [done|lia].
      * intros x rx Hx Hrx. apply Hsnoc in Hx as [Hx| ->]; [by eapply Hmax|].
        assert (rx = rec) as -> by congruence. lia.
      * destruct (hs_maxprocp h) as [a|]; [|done].
        destruct Hbest as (Ha & Hrest). split; [|done]. apply Hsnoc. by left.
Qed.

Lemma scan_inv_fold o s0 l : ∀ seen h,
  NoDup l → (∀ b, b ∈ l → b ∉ seen) → scan_inv o s0 seen h →
  scan_inv o s0 (seen ++ l) (foldl (heaviest_step o) h l).
Proof.
  induction l as [|b l IH]; intros seen h Hnd Hdisj Hinv; cbn.
  - by rewrite app_nil_r.
  - apply NoDup_cons in Hnd as [Hbl Hnd].
    replace (seen ++ b :: l) with ((seen ++ [b]) ++ l) by (by rewrite <- app_assoc).
    apply IH; [done| |].
    + intros x Hx Hin. apply elem_of_app in Hin as [Hin|Hin].
      * by apply (Hdisj x); [right|].
      * apply list_elem_of_singleton in Hin as ->. done.
    + apply scan_inv_step; [done|]. apply Hdisj. left.
Qed.

(** X6.  Whom [proc_get_heaviest] picks.  For a score whose list does not
    hold exactly one process, in a state the daemon reaches: the process
    returned is one of the list, its RSS as /proc/pid/statm gives it is
    positive and at least that of every process of the list, and its
    record is still in the registry; when none is returned, no process
    of the list has a positive RSS.  On the way the records whose statm
    cannot be read are removed, and only those. *)
Theorem heaviest_is_maximal c o adj s :
  reachable c s →
  length (cells (procadjslot_list (reg s)) (ADJTOSLOT adj)) ≠ 1%nat →
  let l := cells (procadjslot_list (reg s)) (ADJTOSLOT adj) in
  let r := proc_get_heaviest o adj s in
  (∀ b rec, b ∈ l → procs (reg s) !! b = Some rec →
     (procs (reg r.2) !! b = None ↔ proc_get_size o (pid rec) < 0)) ∧
  (∀ b, b ∉ l → procs (reg r.2) !! b = procs (reg s) !! b) ∧
  match r.1 with
  | Some a =>
      a ∈ l ∧
      ∃ rec, procs (reg s) !! a = Some rec ∧ procs (reg r.2) !! a = Some rec ∧
             0 < proc_get_size o (pid rec) ∧
             ∀ b rec', b ∈ l → procs (reg s) !! b = Some rec' →
                       proc_get_size o (pid rec') ≤ proc_get_size o (pid rec)
  | None =>
      ∀ b rec', b ∈ l → procs (reg s) !! b = Some rec' → proc_get_size o (pid rec') ≤ 0
  end.
Proof.
  intros Hreach Hlen l r.
  pose proof (reachable_wf c s Hreach) as Hwf.
  assert (Hinit : scan_inv o s [] {| hs_state := s; hs_maxprocp := None; hs_maxsize := 0 |}).
  { split; [done|]. split; [done|]. split; [done|].
    split; [intros b rec Hb; by apply elem_of_nil in Hb|].
    split; [done|]. split; [|done]. intros b rec Hb. by apply elem_of_nil in Hb. }
  pose proof (scan_inv_fold o s l [] _ (wf_slot_nodup _ (proj1 Hwf) _)
                (λ b _ Hb, proj1 (elem_of_nil b) Hb) Hinit) as Hfold.
  cbn [app] in Hfold.
  assert (Hr : r = (hs_maxprocp (foldl (heaviest_step o)
                      {| hs_state := s; hs_maxprocp := None; hs_maxsize := 0 |} l),
                    hs_state (foldl (heaviest_step o)
                      {| hs_state := s; hs_maxprocp := None; hs_maxsize := 0 |} l))).
  { subst r l. unfold proc_get_heaviest. clear -Hlen.
    destruct (cells _ _) as [|a [|b l']]; [done| |done]. by cbn in Hlen. }
  rewrite Hr. cbn [fst snd].
  destruct Hfold as (_ & Hfresh & _ & Hgone & Hnn & Hmax & Hbest).
  split; [exact Hgone|]. split; [exact Hfresh|].
  destruct (hs_maxprocp _) as [a|].
  - destruct Hbest as (Ha & Hpos & rec & Ha0 & Hac & Hsize).
    split; [done|]. exists rec. rewrite Hsize. by repeat (split; [done|]).
  - rewrite <- Hbest. exact Hmax.
Qed.

End Heaviest.

Lemma state_three_at_900_reachable :
  let H := example_headers in reachable example_tunables state_three_at_900.
Proof.
  intros H.
  eapply (reachable_step _ (OpProcPrio (os_calm 99000) (example_procprio 10 900) example_cred));
    [|reflexivity].
  eapply (reachable_step _ (OpProcPrio (os_calm 99000) (example_procprio 20 900) example_cred));
    [|reflexivity].
  eapply (reachable_step _ (OpProcPrio (os_calm 99000) (example_procprio 30 900) example_cred));
    [apply reachable_init|reflexivity].
Qed.

Lemma heaviest_is_maximal_witness :
  let H := example_headers in
  let r := proc_get_heaviest (os_sizes 100000) 900 state_three_at_900 in
  ∃ a rec, r.1 = Some a ∧ procs (reg state_three_at_900) !! a = Some rec ∧
           pid rec = 30 ∧ pid_lookup (reg r.2) 20 = None ∧
           is_Some (pid_lookup (reg r.2) 10) ∧
           ∀ b rec', b ∈ cells (procadjslot_list (reg state_three_at_900)) (ADJTOSLOT 900) →
                     procs (reg state_three_at_900) !! b = Some rec' →
                     proc_get_size (os_sizes 100000) (pid rec') ≤ 700.
Proof.
  intros H r.
  assert (Hlen : length (cells (procadjslot_list (reg state_three_at_900)) (ADJTOSLOT 900))
                 ≠ 1%nat) by (vm_compute; discriminate).
  pose proof (heaviest_is_maximal example_tunables (os_sizes 100000) 900 state_three_at_900
                state_three_at_900_reachable Hlen) as (_ & _ & Hbest).
  fold r in Hbest.
  destruct r as [ma s'] eqn:Hr. cbn [fst snd] in *.
  pose proof Hr as Hv. subst r. vm_compute in Hv. injection Hv as <- <-.
  destruct Hbest as (_ & rec & Ha & _ & _ & Hmax).
  exists 0%nat, rec. split; [reflexivity|]. split; [exact Ha|].
  vm_compute in Ha. injection Ha as <-.
  split; [reflexivity|]. split; [reflexivity|]. split; [by eexists|].
  exact Hmax.
Defined.

(** ** Ownership of the records *)

Section Ownership.
Context `{HeaderConstants}.

Lemma claim_record_foreign rec caller :
  reg_pid rec ≠ 0 → reg_pid rec ≠ caller → claim_record rec caller = (false, rec).
Proof.
  intros H0 Hc. unfold claim_record.
  destruct (decide (reg_pid rec = caller)); [done|].
  by destruct (decide (reg_pid rec = 0)).
Qed.

Lemma claim_record_ok rec caller :
  (claim_record rec caller).1 = true → reg_pid rec = caller ∨ reg_pid rec = 0.
Proof.
  unfold claim_record.
  destruct (decide (reg_pid rec = caller)); [by left|].
  destruct (decide (reg_pid rec = 0)); [by right|done].
Qed.

Lemma claim_record_claimable rec caller :
  reg_pid rec = caller ∨ reg_pid rec = 0 →
  claim_record rec caller = (true, set_reg_pid caller rec) ∨
  claim_record rec caller = (true, rec).
Proof.
  unfold claim_record. intros [Hc|H0].
  - destruct (decide (reg_pid rec = caller)); [by right|done].
  - destruct (decide (reg_pid rec = caller)); [by right|].
    destruct (decide (reg_pid rec = 0)); [by left|done].
Qed.

Lemma pid_remove_keeps q s a rec :
  procs (reg s) !! a = Some rec → pid rec ≠ q →
  procs (reg (pid_remove q s).2) !! a = Some rec.
Proof.
  intros Ha Hq.
  destruct (pid_lookup (reg s) q) as [[a' rec']|] eqn:Hl.
  - rewrite (pid_remove_Some _ _ _ _ Hl). cbn.
    destruct (pid_lookup_Some _ _ _ _ Hl) as (_ & Ha' & Hp').
    rewrite lookup_delete_ne; [done|]. intros ->. congruence.
  - by rewrite (pid_remove_None _ _ Hl).
Qed.

Lemma pid_remove_sub q s : procs (reg (pid_remove q s).2) ⊆ procs (reg s).
Proof.
  destruct (pid_lookup (reg s) q) as [[a' rec']|] eqn:Hl.
  - rewrite (pid_remove_Some _ _ _ _ Hl). cbn. apply delete_subseteq.
  - by rewrite (pid_remove_None _ _ Hl).
Qed.

Lemma register_record_keeps o params cred score s a rec :
  procs (reg s) !! a = Some rec → reg_pid rec ≠ 0 → reg_pid rec ≠ cred_pid cred →
  procs (reg (register_record o params cred score s)) !! a = Some rec.
Proof.
  intros Ha H0 Hc. unfold register_record.
  destruct (pid_lookup (reg s) (pp_pid params)) as [[a' rec']|] eqn:Hl.
  - destruct (pid_lookup_Some _ _ _ _ Hl) as (_ & Ha' & _).
    destruct (decide (a' = a)) as [->|Hne].
    + assert (rec' = rec) as -> by congruence.
      by rewrite (claim_record_foreign _ _ H0 Hc).
    + destruct (claim_record rec' (cred_pid cred)) as [ok rec1].
      destruct ok; [|done]. cbn.
      by rewrite !lookup_insert_ne.
  - destruct (pidfd_supported (cfg s) && _); [done|].
    destruct (negb (os_calloc_ok o)); [done|]. cbn.
    rewrite lookup_insert_ne; [done|].
    intros <-. pose proof (is_fresh (dom (procs (reg s)))) as Hf.
    apply Hf, elem_of_dom. by eexists.
Qed.

Lemma apply_proc_prio_keeps o params cred s a rec :
  procs (reg s) !! a = Some rec → reg_pid rec ≠ 0 → reg_pid rec ≠ cred_pid cred →
  procs (reg (apply_proc_prio o params cred s)) !! a = Some rec.
Proof.
  intros Ha H0 Hc. unfold apply_proc_prio.
  destruct (_ || _); [done|]. destruct (_ || _); [done|].
  destruct (match os_proc_status o (pp_pid params) with Some _ => _ | None => _ end); [done|].
  destruct (negb (os_oom_score_adj_open o (pp_pid params))); [done|].
  destruct (use_inkernel_interface _); [done|].
  unfold register_oom_adj_proc.
  destruct (_ && _).
  - destruct (memcg_score_and_mult _) as [score mult].
    destruct (os_soft_limit_path o (pp_pid params)); [|done].
    by apply register_record_keeps.
  - by apply register_record_keeps.
Qed.

Lemma cmd_procs_prio_keeps o batch cred s a rec :
  procs (reg s) !! a = Some rec → reg_pid rec ≠ 0 → reg_pid rec ≠ cred_pid cred →
  procs (reg (cmd_procs_prio o batch cred s)) !! a = Some rec.
Proof.
  intros Ha H0 Hc. unfold cmd_procs_prio.
  revert s Ha. induction batch as [|params batch IH]; intros s Ha; [done|].
  cbn. apply IH. by apply apply_proc_prio_keeps.
Qed.

Lemma cmd_procremove_keeps p cred s a rec :
  lmkd_wf s →
  procs (reg s) !! a = Some rec → reg_pid rec ≠ 0 → reg_pid rec ≠ cred_pid cred →
  procs (reg (cmd_procremove p cred s)) !! a = Some rec.
Proof.
  intros [Hr _] Ha H0 Hc. unfold cmd_procremove.
  destruct (use_inkernel_interface (cfg s)); [done|].
  destruct (pid_lookup (reg s) p) as [[a' rec']|] eqn:Hl; [|done].
  destruct (pid_lookup_Some _ _ _ _ Hl) as (_ & Ha' & Hp').
  destruct (decide (a' = a)) as [->|Hne].
  - assert (rec' = rec) as -> by congruence.
    by rewrite (claim_record_foreign _ _ H0 Hc).
  - destruct (claim_record rec' (cred_pid cred)) as [ok rec1].
    destruct ok; [|done]. cbn [negb].
    apply pid_remove_keeps; [cbn; by rewrite lookup_insert_ne|].
    intros Hp. apply Hne. eapply (wf_pid_unique _ Hr); [done..|congruence].
Qed.

Lemma purge_one_keeps cred s b a rec :
  lmkd_wf s →
  procs (reg s) !! a = Some rec → reg_pid rec ≠ 0 → reg_pid rec ≠ cred_pid cred →
  procs (reg (purge_one cred s b)) !! a = Some rec.
Proof.
  intros [Hr _] Ha H0 Hc. unfold purge_one.
  destruct (procs (reg s) !! b) as [rec'|] eqn:Hb; [|done].
  destruct (decide (b = a)) as [->|Hne].
  - assert (rec' = rec) as -> by congruence.
    by rewrite (claim_record_foreign _ _ H0 Hc).
  - pose proof (claim_record_keeps rec' (cred_pid cred)) as (Hp1 & _).
    destruct (claim_record rec' (cred_pid cred)) as [ok rec1].
    destruct ok; [|done]. cbn in Hp1.
    apply pid_remove_keeps; [cbn; by rewrite lookup_insert_ne|].
    intros Hp. apply Hne. eapply (wf_pid_unique _ Hr); [done..|congruence].
Qed.

Lemma purge_chain_keeps cred l s a rec :
  lmkd_wf s →
  procs (reg s) !! a = Some rec → reg_pid rec ≠ 0 → reg_pid rec ≠ cred_pid cred →
  procs (reg (foldl (purge_one cred) s l)) !! a = Some rec.
Proof.
  intros Hwf Ha H0 Hc. revert s Hwf Ha.
  induction l as [|b l IH]; intros s Hwf Ha; [done|].
  cbn. apply IH; [by apply purge_one_wf|by apply purge_one_keeps].
Qed.

Lemma purge_chain_wf cred l s : lmkd_wf s → lmkd_wf (foldl (purge_one cred) s l).
Proof. intros Hwf. apply foldl_preserves; [done|]. intros. by apply purge_one_wf. Qed.

Lemma cmd_procpurge_keeps cred s a rec :
  lmkd_wf s →
  procs (reg s) !! a = Some rec → reg_pid rec ≠ 0 → reg_pid rec ≠ cred_pid cred →
  procs (reg (cmd_procpurge cred s)) !! a = Some rec.
Proof.
  intros Hwf Ha H0 Hc. unfold cmd_procpurge.
  destruct (use_inkernel_interface (cfg s)); [done|].
  generalize (seqZ 0 PIDHASH_SZ). intros l. revert s Hwf Ha.
  induction l as [|i l IH]; intros s Hwf Ha; [done|].
  cbn. apply IH; [by apply purge_chain_wf|by apply purge_chain_keeps].
Qed.

(** X7.  A record that a client registered is out of the reach of the
    other clients.  In a state the daemon reaches, no PROCPRIO,
    PROCS_PRIO, PROCREMOVE or PROCPURGE that comes from a client whose
    pid is not the record's [reg_pid] changes or removes a claimed record
    ([reg_pid] not 0), whatever pids the command names: the record stays
    as it is, [pid_lookup] finds it and it stays in the list of its
    score. *)
Theorem foreign_commands_keep_record c s s' a rec cred op :
  reachable c s →
  procs (reg s) !! a = Some rec →
  reg_pid rec ≠ 0 → reg_pid rec ≠ cred_pid cred →
  client_command cred op →
  run_op op s = Some s' →
  procs (reg s') !! a = Some rec ∧
  pid_lookup (reg s') (pid rec) = Some (a, rec) ∧
  a ∈ cells (procadjslot_list (reg s')) (ADJTOSLOT (oomadj rec)).
Proof.
  intros Hreach Ha H0 Hc Hop Hrun.
  pose proof (reachable_wf c s Hreach) as Hwf.
  assert (Hreach' : reachable c s') by (by eapply reachable_step).
  pose proof (reachable_wf c s' Hreach') as [Hr' _].
  assert (Ha' : procs (reg s') !! a = Some rec).
  { destruct op; cbn in Hop; try done; subst; cbn in Hrun; injection Hrun as <-.
    - by apply apply_proc_prio_keeps.
    - by apply cmd_procs_prio_keeps.
    - by apply cmd_procremove_keeps.
    - by apply cmd_procpurge_keeps. }
  split; [done|]. split; [by apply reg_wf_lookup|].
  by apply (wf_linked _ Hr' a rec).
Qed.

End Ownership.

Lemma foreign_commands_keep_record_witness :
  let H := example_headers in
  let other := {| cred_pid := 2; cred_uid := 1000 |} in
  let rec := {| pid := 10; pidfd := 1010; uid := 10010; oomadj := 900;
                reg_pid := 1; valid := true |} in
  pid_lookup (reg (cmd_procpurge other state_two_procs)) 10 = Some (1%nat, rec) ∧
  pid_lookup (reg (cmd_procremove 10 other state_two_procs)) 10 = Some (1%nat, rec) ∧
  pid_lookup (reg (cmd_procprio (os_calm 99500) (example_procprio 10 0) other
                     state_two_procs)) 10 = Some (1%nat, rec).
Proof.
  intros H other rec.
  assert (Ha : procs (reg state_two_procs) !! 1%nat = Some rec) by (vm_compute; reflexivity).
  assert (H0 : reg_pid rec ≠ 0) by (cbn; lia).
  assert (Hc : reg_pid rec ≠ cred_pid other) by (cbn; lia).
  split; [|split].
  - exact (proj1 (proj2 (foreign_commands_keep_record example_tunables state_two_procs _
             1%nat rec other (OpProcPurge other) state_two_procs_reachable Ha H0 Hc
             eq_refl eq_refl))).
  - exact (proj1 (proj2 (foreign_commands_keep_record example_tunables state_two_procs _
             1%nat rec other (OpProcRemove 10 other) state_two_procs_reachable Ha H0 Hc
             eq_refl eq_refl))).
  - exact (proj1 (proj2 (foreign_commands_keep_record example_tunables state_two_procs _
             1%nat rec other (OpProcPrio (os_calm 99500) (example_procprio 10 0) other)
             state_two_procs_reachable Ha H0 Hc eq_refl eq_refl))).
Defined.

(** ** PROCPURGE *)

Section Purge.
Context `{HeaderConstants}.

Lemma pid_hashfn_range p : 0 ≤ pid_hashfn p < PIDHASH_SZ.
Proof.
  unfold pid_hashfn, PIDHASH_SZ.
  change (1024 - 1) with (Z.ones 10).
  rewrite Z.land_ones by lia.
  apply Z.mod_pos_bound. lia.
Qed.

Lemma purge_one_removed cred s b rec :
  lmkd_wf s → procs (reg s) !! b = Some rec →
  (claim_record rec (cred_pid cred)).1 = true →
  procs (reg (purge_one cred s b)) = delete b (procs (reg s)).
Proof.
  intros Hwf Hb Hok. unfold purge_one. rewrite Hb.
  pose proof (store_claimed_wf b rec (cred_pid cred) s Hwf Hb) as [Hr1 _].
  destruct (claim_record rec (cred_pid cred)) as [ok rec1]. cbn in Hok. subst ok.
  cbn [snd] in Hr1.
  assert (Hl : pid_lookup (reg (set_reg (store_proc b rec1 (reg s)) s)) (pid rec1)
               = Some (b, rec1)).
  { apply reg_wf_lookup; [done|]. cbn. by rewrite lookup_insert_eq. }
  rewrite (pid_remove_Some _ _ _ _ Hl). cbn. by rewrite delete_insert_eq.
Qed.

Lemma purge_one_sub cred s b :
  lmkd_wf s → procs (reg (purge_one cred s b)) ⊆ procs (reg s).
Proof.
  intros Hwf.
  destruct (procs (reg s) !! b) as [rec|] eqn:Hb.
  - destruct (claim_record rec (cred_pid cred)).1 eqn:Hok.
    + rewrite (purge_one_removed _ _ _ _ Hwf Hb Hok). apply delete_subseteq.
    + unfold purge_one. rewrite Hb.
      destruct (claim_record rec (cred_pid cred)) as [ok rec1]. cbn in Hok. by subst ok.
  - unfold purge_one. by rewrite Hb.
Qed.

Lemma purge_chain_spec cred l s :
  lmkd_wf s →
  procs (reg (foldl (purge_one cred) s l)) ⊆ procs (reg s) ∧
  ∀ b rec, b ∈ l → procs (reg s) !! b = Some rec →
           (claim_record rec (cred_pid cred)).1 = true →
           procs (reg (foldl (purge_one cred) s l)) !! b = None.
Proof.
  revert s. induction l as [|b0 l IH]; intros s Hwf.
  - split; [done|]. intros b rec Hb. by apply elem_of_nil in Hb.
  - cbn. destruct (IH (purge_one cred s b0) (purge_one_wf cred s b0 Hwf)) as [Hsub Hgone].
    pose proof (purge_one_sub cred s b0 Hwf) as Hsub1.
    split; [by transitivity (procs (reg (purge_one cred s b0)))|].
    intros b rec Hin Hb Hok.
    destruct (procs (reg (purge_one cred s b0)) !! b) as [rec'|] eqn:Hb1.
    + assert (rec' = rec) as ->.
      { pose proof (lookup_weaken _ _ _ _ Hb1 Hsub1). congruence. }
      apply elem_of_cons in Hin as [->|Hin]; [|by eapply Hgone].
      rewrite (purge_one_removed _ _ _ _ Hwf Hb Hok), lookup_delete_eq in Hb1. done.
    + by eapply lookup_weaken_None.
Qed.

Lemma purge_all_spec cred (hs : list Z) s :
  lmkd_wf s →
  let s' := foldl (λ acc i, foldl (purge_one cred) acc (cells (pidhash (reg acc)) i)) s hs in
  procs (reg s') ⊆ procs (reg s) ∧
  ∀ a rec, procs (reg s) !! a = Some rec → pid_hashfn (pid rec) ∈ hs →
           (claim_record rec (cred_pid cred)).1 = true →
           procs (reg s') !! a = None.
Proof.
  revert s. induction hs as [|h hs IH]; intros s Hwf.
  - split; [done|]. intros a rec _ Hin. by apply elem_of_nil in Hin.
  - cbn [foldl].
    set (s1 := foldl (purge_one cred) s (cells (pidhash (reg s)) h)).
    destruct (purge_chain_spec cred (cells (pidhash (reg s)) h) s Hwf) as [Hsub1 Hgone1].
    fold s1 in Hsub1, Hgone1.
    destruct (IH s1 (purge_chain_wf cred _ s Hwf)) as [Hsub Hgone].
    split; [by transitivity (procs (reg s1))|].
    intros a rec Ha Hin Hok.
    destruct (procs (reg s1) !! a) as [rec'|] eqn:Ha1.
    + assert (rec' = rec) as ->.
      { pose proof (lookup_weaken _ _ _ _ Ha1 Hsub1). congruence. }
      apply elem_of_cons in Hin as [Hh|Hin]; [|by eapply Hgone].
      rewrite (Hgone1 a rec) in Ha1; [done| |done|done].
      subst h. by apply (wf_linked _ (proj1 Hwf) a rec).
    + by eapply lookup_weaken_None.
Qed.

(** X8.  What PROCPURGE removes.  With the userspace backend, in a state
    the daemon reaches, the registry after a PROCPURGE holds exactly the
    records that another client has claimed, unchanged: the records of
    the sender and the unclaimed records ([reg_pid] 0, left behind by a
    client that disconnected) are removed, whatever chain they are in. *)
Theorem purge_removes_claimable c cred s a rec :
  reachable c s →
  use_inkernel_interface (cfg s) = false →
  procs (reg (cmd_procpurge cred s)) !! a = Some rec ↔
  procs (reg s) !! a = Some rec ∧ reg_pid rec ≠ 0 ∧ reg_pid rec ≠ cred_pid cred.
Proof.
  intros Hreach Huser.
  pose proof (reachable_wf c s Hreach) as Hwf.
  split.
  - intros Ha'.
    assert (Hspec := purge_all_spec cred (seqZ 0 PIDHASH_SZ) s Hwf).
    assert (Heq : cmd_procpurge cred s =
                  foldl (λ acc i, foldl (purge_one cred) acc (cells (pidhash (reg acc)) i))
                        s (seqZ 0 PIDHASH_SZ)).
    { unfold cmd_procpurge. by rewrite Huser. }
    rewrite <- Heq in Hspec. cbv zeta in Hspec. destruct Hspec as [Hsub Hgone].
    pose proof (lookup_weaken _ _ _ _ Ha' Hsub) as Ha.
    split; [done|].
    destruct (claim_record rec (cred_pid cred)).1 eqn:Hok.
    + assert (Hn : procs (reg (cmd_procpurge cred s)) !! a = None).
      { apply (Hgone a rec Ha); [|exact Hok].
        apply elem_of_seqZ. pose proof (pid_hashfn_range (pid rec)). lia. }
      rewrite Hn in Ha'. discriminate Ha'.
    + clear -Hok. unfold claim_record in Hok.
      destruct (decide (reg_pid rec = cred_pid cred)) as [|Hc]; [discriminate Hok|].
      destruct (decide (reg_pid rec = 0)) as [|H0]; [discriminate Hok|].
      split; assumption.
  - intros (Ha & H0 & Hc). by apply cmd_procpurge_keeps.
Qed.

End Purge.

Lemma purge_removes_claimable_witness :
  let H := example_headers in
  pid_lookup (reg (cmd_procpurge example_cred state_two_procs)) 10 = None ∧
  pid_lookup (reg (cmd_procpurge example_cred state_two_procs)) 20 = None.
Proof.
  intros H.
  set (s' := cmd_procpurge example_cred state_two_procs).
  assert (Hwf' : lmkd_wf s').
  { apply cmd_procpurge_wf, (reachable_wf example_tunables), state_two_procs_reachable. }
  assert (Hnone : ∀ p, (∀ a rec, procs (reg s') !! a = Some rec → False) →
                       pid_lookup (reg s') p = None).
  { intros p Hno. destruct (pid_lookup (reg s') p) as [[a rec]|] eqn:Hl; [|done].
    destruct (pid_lookup_Some _ _ _ _ Hl) as (_ & Ha & _). by destruct (Hno a rec). }
  assert (Hno : ∀ a rec, procs (reg s') !! a = Some rec → False).
  { intros a rec Ha.
    destruct (proj1 (purge_removes_claimable example_tunables example_cred state_two_procs
                       a rec state_two_procs_reachable eq_refl) Ha) as (Ha0 & H0 & Hc).
    assert (Hall : map_Forall (λ _ r, reg_pid r = 1) (procs (reg state_two_procs))).
    { apply (bool_decide_unpack _). vm_compute. reflexivity. }
    apply Hc. exact (Hall a rec Ha0). }
  split; by apply Hnone.
Defined.

(** ** A disconnected client's records *)

Section Handover.
Context `{HeaderConstants}.

Lemma remove_claims_released peer s a rec :
  procs (reg s) !! a = Some rec → reg_pid rec = peer →
  procs (reg (remove_claims peer s)) !! a = Some (set_reg_pid 0 rec).
Proof.
  intros Ha Hp. cbn. rewrite lookup_fmap, Ha. cbn.
  by destruct (decide (reg_pid rec = peer)).
Qed.

Lemma claim_record_unclaimed rec caller :
  reg_pid rec = 0 →
  (claim_record rec caller).1 = true ∧ reg_pid (claim_record rec caller).2 = caller.
Proof.
  intros H0. unfold claim_record.
  destruct (decide (reg_pid rec = caller)); [done|].
  by destruct (decide (reg_pid rec = 0)).
Qed.

(** X9.  When a client disconnects, [remove_claims] leaves its records
    to whoever comes next.  In a state the daemon reaches, with the
    userspace backend, after the registrant of a record has
    disconnected, a PROCREMOVE for the record's pid from any client
    removes the record, and a PROCPRIO for it that gets as far as the
    registry makes the sender the new registrant and files the record
    under the new score. *)
Theorem disconnect_hands_over c s a rec cred :
  reachable c s →
  use_inkernel_interface (cfg s) = false →
  procs (reg s) !! a = Some rec →
  let s1 := remove_claims (reg_pid rec) s in
  pid_lookup (reg (cmd_procremove (pid rec) cred s1)) (pid rec) = None ∧
  (∀ o params,
     pp_pid params = pid rec → procprio_reaches_registry o params s1 →
     ∃ rec', pid_lookup (reg (cmd_procprio o params cred s1)) (pid rec) = Some (a, rec') ∧
             reg_pid rec' = cred_pid cred ∧
             oomadj rec' = procprio_score (cfg s) params ∧
             a ∈ cells (procadjslot_list (reg (cmd_procprio o params cred s1)))
                       (ADJTOSLOT (procprio_score (cfg s) params))).
Proof.
  intros Hreach Huser Ha s1.
  pose proof (reachable_wf c s Hreach) as Hwf.
  assert (Hwf1 : lmkd_wf s1) by (by apply remove_claims_wf).
  assert (Ha1 : procs (reg s1) !! a = Some (set_reg_pid 0 rec))
    by (by apply remove_claims_released).
  assert (Hl1 : pid_lookup (reg s1) (pid rec) = Some (a, set_reg_pid 0 rec))
    by (exact (reg_wf_lookup _ _ _ (proj1 Hwf1) Ha1)).
  destruct (claim_record_unclaimed (set_reg_pid 0 rec) (cred_pid cred) eq_refl)
    as [Hok Howner].
  pose proof (claim_record_keeps (set_reg_pid 0 rec) (cred_pid cred)) as (Hp1 & Hadj1 & _).
  split.
  - unfold cmd_procremove. change (cfg s1) with (cfg s). rewrite Huser, Hl1.
    pose proof (store_claimed_wf a _ (cred_pid cred) s1 Hwf1 Ha1) as [Hr2 _].
    destruct (claim_record (set_reg_pid 0 rec) (cred_pid cred)) as [ok rec1].
    cbn [fst snd] in Hok, Hp1, Hr2. subst ok. cbn [negb].
    change (pid (set_reg_pid 0 rec)) with (pid rec) in Hp1.
    rewrite <- Hp1.
    apply (removed_pid_not_found (set_reg (store_proc a rec1 (reg s1)) s1) a rec1);
      [exact Hr2|].
    cbn. by rewrite lookup_insert_eq.
  - intros o params Hp Hgo.
    destruct (cmd_procprio_reaches o params cred s1 Hgo) as (s2 & Hr2 & Hk2 & Hc2 & Heq).
    assert (Hwf2 : lmkd_wf s2) by (by apply (lmkd_wf_tables s1)).
    pose proof (register_record_wf o params cred (procprio_score (cfg s1) params) s2 Hwf2)
      as [Hr' _].
    rewrite Heq. change (cfg s1) with (cfg s) in *.
    assert (Hrec : ∃ rec', procs (reg (register_record o params cred
                              (procprio_score (cfg s) params) s2)) !! a = Some rec' ∧
                           pid rec' = pid rec ∧ reg_pid rec' = cred_pid cred ∧
                           oomadj rec' = procprio_score (cfg s) params).
    { unfold register_record. rewrite Hp, Hr2, Hl1.
      destruct (claim_record (set_reg_pid 0 rec) (cred_pid cred)) as [ok rec1].
      cbn [fst snd] in Hok, Hp1, Howner. subst ok. cbn [negb].
      change (pid (set_reg_pid 0 rec)) with (pid rec) in Hp1.
      eexists. cbn. rewrite lookup_insert_eq. done. }
    destruct Hrec as (rec' & Ha' & Hp' & Hown' & Hadj').
    exists rec'. split; [rewrite <- Hp'; exact (reg_wf_lookup _ _ _ Hr' Ha')|].
    split; [done|]. split; [done|].
    pose proof (proj2 (wf_linked _ Hr' a rec' Ha')) as Hin.
    rewrite Hadj' in Hin. exact Hin.
Qed.

End Handover.

Lemma disconnect_hands_over_witness :
  let H := example_headers in
  let other := {| cred_pid := 2; cred_uid := 1000 |} in
  let s1 := remove_claims 1 state_two_procs in
  pid_lookup (reg (cmd_procremove 10 other s1)) 10 = None ∧
  ∃ rec', pid_lookup (reg (cmd_procprio (os_calm 99500) (example_procprio 10 0) other s1)) 10
            = Some (1%nat, rec') ∧
          reg_pid rec' = 2 ∧ oomadj rec' = 0.
Proof.
  intros H other s1.
  set (rec := {| pid := 10; pidfd := 1010; uid := 10010; oomadj := 900;
                 reg_pid := 1; valid := true |}).
  assert (Ha : procs (reg state_two_procs) !! 1%nat = Some rec) by (vm_compute; reflexivity).
  destruct (disconnect_hands_over example_tunables state_two_procs 1%nat rec other
              state_two_procs_reachable eq_refl Ha) as [Hrm Hprio].
  split; [exact Hrm|].
  destruct (Hprio (os_calm 99500) (example_procprio 10 0) eq_refl)
    as (rec' & Hl & Hown & Hadj & _).
  { split; [|split; [|split; [|split]]].
    - unfold procprio_invalid. vm_compute. intros [?|[?|[?|?]]]; congruence.
    - intros st tgid Hst Htg. vm_compute in Hst. injection Hst as <-.
      cbn in Htg. by injection Htg as <-.
    - reflexivity.
    - reflexivity.
    - intros Hm. vm_compute in Hm. discriminate Hm. }
  exists rec'. split; [exact Hl|]. split; [exact Hown|exact Hadj].
Defined.

(** ** PROCPRIO followed by PROCREMOVE *)

Section RoundTrip.
Context `{HeaderConstants}.

Lemma unlink_absent a l : a ∉ l → unlink a l = l.
Proof.
  intros Hin. unfold unlink. induction l as [|b l IH]; [done|].
  rewrite filter_cons. apply not_elem_of_cons in Hin as [Hne Hin].
  destruct (decide (b ≠ a)) as [|Hn]; [by rewrite IH|].
  destruct Hn. intros ->. by apply Hne.
Qed.

Lemma unlink_head a l : a ∉ l → unlink a (a :: l) = l.
Proof.
  intros Hin. unfold unlink. rewrite filter_cons.
  destruct (decide (a ≠ a)); [done|]. by apply unlink_absent.
Qed.

(** What [apply_proc_prio] does to the registry: nothing, or what
    [register_record] does. *)
Lemma apply_proc_prio_cases o params cred s :
  ∃ s1, reg s1 = reg s ∧ cfg s1 = cfg s ∧ kw s1 = kw s ∧ kc s1 = kc s ∧
        (apply_proc_prio o params cred s = s1 ∨
         use_inkernel_interface (cfg s) = false ∧
         ∃ score, apply_proc_prio o params cred s = register_record o params cred score s1).
Proof.
  unfold apply_proc_prio.
  destruct (_ || _); [prio_stays|].
  destruct (_ || _); [prio_stays|].
  destruct (match os_proc_status o (pp_pid params) with Some _ => _ | None => _ end);
    [prio_stays|].
  destruct (negb (os_oom_score_adj_open o (pp_pid params))); [prio_stays|].
  cbn [cfg emit].
  destruct (use_inkernel_interface (cfg s)) eqn:Huser; [prio_stays|].
  unfold register_oom_adj_proc. cbn [cfg emit].
  destruct (_ && _).
  - destruct (memcg_score_and_mult _) as [score mult].
    destruct (os_soft_limit_path o (pp_pid params)); [prio_registers|prio_stays].
  - prio_registers.
Qed.

(** X10.  Registering a pid and unregistering it again.  In a state the
    daemon reaches, for a pid that has no record, a PROCPRIO followed by
    a PROCREMOVE for the pid from the same client leaves the registry as
    it was: the same records, chains and score lists, whether or not the
    PROCPRIO got as far as creating the record; the kill counters and
    the kill wait are untouched. *)
Theorem procprio_procremove_round_trip c o params cred s :
  reachable c s →
  pid_lookup (reg s) (pp_pid params) = None →
  let s2 := cmd_procremove (pp_pid params) cred (cmd_procprio o params cred s) in
  procs (reg s2) = procs (reg s) ∧
  (∀ h, cells (pidhash (reg s2)) h = cells (pidhash (reg s)) h) ∧
  (∀ slot, cells (procadjslot_list (reg s2)) slot = cells (procadjslot_list (reg s)) slot) ∧
  (∀ q, pid_lookup (reg s2) q = pid_lookup (reg s) q) ∧
  kc s2 = kc s ∧ kw s2 = kw s.
Proof.
  intros Hreach Hnone s2.
  pose proof (reachable_wf c s Hreach) as Hwf.
  assert (Hcore : procs (reg s2) = procs (reg s) ∧
                  (∀ h, cells (pidhash (reg s2)) h = cells (pidhash (reg s)) h) ∧
                  (∀ slot, cells (procadjslot_list (reg s2)) slot
                           = cells (procadjslot_list (reg s)) slot) ∧
                  kc s2 = kc s ∧ kw s2 = kw s).
  { subst s2. unfold cmd_procprio.
    destruct (apply_proc_prio_cases o params cred s)
      as (s1 & Hr1 & Hc1 & Hw1 & Hk1 & [->|[Huser [score ->]]]).
    - (* the PROCPRIO did not reach the registry *)
      unfold cmd_procremove. rewrite Hr1, Hnone.
      destruct (use_inkernel_interface (cfg s1)); by rewrite Hr1.
    - assert (Hwf1 : lmkd_wf s1) by (by apply (lmkd_wf_tables s)).
      pose proof (register_record_wf o params cred score s1 Hwf1) as Hwf'.
      revert Hwf'. unfold register_record. rewrite Hr1, Hnone.
      destruct (pidfd_supported (cfg s1) && _).
      { intros _. unfold cmd_procremove. rewrite Hr1, Hnone.
        destruct (use_inkernel_interface (cfg s1)); by rewrite Hr1. }
      destruct (negb (os_calloc_ok o)).
      { intros _. unfold cmd_procremove. rewrite Hr1, Hnone.
        destruct (use_inkernel_interface (cfg s1)); by rewrite Hr1. }
      set (a := fresh (dom (procs (reg s)))).
      set (rec := {| pid := pp_pid params;
                     pidfd := if pidfd_supported (cfg s1)
                              then os_pidfd_open o (pp_pid params) else -1;
                     uid := pp_uid params; oomadj := score;
                     reg_pid := cred_pid cred; valid := true |}).
      intros [Hr' _].
      assert (Hfresh : procs (reg s) !! a = None)
        by (apply not_elem_of_dom, is_fresh).
      assert (Hl : pid_lookup (reg (set_reg (proc_insert a rec (reg s)) s1)) (pp_pid params)
                   = Some (a, rec)).
      { apply (reg_wf_lookup _ a rec Hr'). cbn. by rewrite lookup_insert_eq. }
      unfold cmd_procremove. cbn [cfg set_reg]. rewrite Hc1, Huser, Hl.
      assert (Hclaim : claim_record rec (cred_pid cred) = (true, rec)).
      { unfold claim_record. by destruct (decide (reg_pid rec = cred_pid cred)). }
      rewrite Hclaim. cbn [negb].
      assert (Hst : set_reg (store_proc a rec (reg (set_reg (proc_insert a rec (reg s)) s1)))
                      (set_reg (proc_insert a rec (reg s)) s1)
                    = set_reg (proc_insert a rec (reg s)) s1).
      { unfold set_reg, store_proc, proc_insert, proc_slot. cbn.
        by rewrite insert_insert_eq. }
      rewrite Hst, (pid_remove_Some _ _ _ _ Hl). cbn.
      split; [|split; [|split]].
      + rewrite delete_insert_eq. by apply delete_id.
      + intros h. destruct (decide (pid_hashfn (pp_pid params) = h)) as [<-|Hh].
        * rewrite !cells_insert_eq. apply unlink_head.
          intros Hin. destruct (wf_chain _ (proj1 Hwf) _ _ Hin) as (rb & Hb & _). congruence.
        * by rewrite !cells_insert_ne.
      + intros slot. rewrite cells_unlink.
        destruct (decide (ADJTOSLOT score = slot)) as [<-|Hs].
        * rewrite cells_insert_eq. apply unlink_head.
          intros Hin. destruct (wf_slot _ (proj1 Hwf) _ _ Hin) as (rb & Hb & _). congruence.
        * rewrite cells_insert_ne by done. apply unlink_absent.
          intros Hin. destruct (wf_slot _ (proj1 Hwf) _ _ Hin) as (rb & Hb & _). congruence.
      + by destruct (_ && _). }
  destruct Hcore as (Hp & Hh & Hs & Hk & Hw).
  split; [done|]. split; [done|]. split; [done|]. split; [|done].
  intros q. unfold pid_lookup. by rewrite Hp, Hh.
Qed.

End RoundTrip.

Lemma procprio_procremove_round_trip_witness :
  let H := example_headers in
  let s2 := cmd_procremove 30 example_cred
              (cmd_procprio (os_calm 99500) (example_procprio 30 500) example_cred
                            state_two_procs) in
  is_Some (pid_lookup (reg (cmd_procprio (os_calm 99500) (example_procprio 30 500)
                              example_cred state_two_procs)) 30) ∧
  procs (reg s2) = procs (reg state_two_procs) ∧
  pid_lookup (reg s2) 30 = None.
Proof.
  intros H s2.
  assert (Hnone : pid_lookup (reg state_two_procs) (pp_pid (example_procprio 30 500)) = None)
    by (vm_compute; reflexivity).
  destruct (procprio_procremove_round_trip example_tunables (os_calm 99500)
              (example_procprio 30 500) example_cred state_two_procs
              state_two_procs_reachable Hnone) as (Hp & _ & _ & Hq & _).
  split; [vm_compute; by eexists|]. split; [exact Hp|].
  etrans; [exact (Hq 30)|exact Hnone].
Defined.

(** ** The engine when its inputs cannot be read *)

Section Unreadable.
Context `{HeaderConstants}.

(** X11.  An event whose inputs cannot be read is abandoned.  When the
    clock, /proc/vmstat or /proc/meminfo cannot be read, [__mp_event_psi]
    returns without a call of [find_and_kill_process]: the registry, the
    kill counters and the TARGET tables are as before, the only calls
    made are those that release a finished kill wait, and the polling
    parameters are untouched unless a kill is still pending (then the
    wakeup is skipped, as for any other event). *)
Theorem unreadable_inputs_no_kill o d events pp s :
  os_clock o = None ∨ os_vmstat o = None ∨ os_meminfo o = None →
  ∃ s' pp', mp_event_psi o d events pp s = Some (s', pp') ∧
    reg s' = reg s ∧ kc s' = kc s ∧ tgt s' = tgt s ∧ cfg s' = cfg s ∧
    (∃ new, trace s' = new ++ trace s ∧ Forall (λ ev, is_wait_event ev = true) new) ∧
    (pp' = pp ∨ is_kill_pending o s = true).
Proof.
  intros Hbad. unfold mp_event_psi, mp_event_psi_decide, mp_event_psi_prefix.
  destruct (os_clock o) as [curr_tm|] eqn:Hclock.
  2: { eexists _, _. split; [reflexivity|]. cbn.
       repeat (split; [done|]). split; [by exists []|by left]. }
  destruct (level_lock _ _ _ _) as [e1|].
  2: { eexists _, _. split; [reflexivity|]. cbn.
       repeat (split; [done|]). split; [by exists []|by left]. }
  destruct (kill_gate _ _ _) eqn:Hgate.
  { eexists _, _. split; [reflexivity|]. cbn.
    repeat (split; [done|]). split; [by exists []|right].
    unfold kill_gate in Hgate. apply andb_true_iff in Hgate as [Hpend _]. exact Hpend. }
  match goal with
  | |- context [stop_wait_for_proc_kill ?b ?s1] =>
      destruct (stop_wait_tables b s1) as (Hr & Hk & Hc & _);
      destruct (stop_wait_trace b s1) as (new & Hnew & Hall);
      assert (Ht : tgt (stop_wait_for_proc_kill b s1) = tgt s)
        by (unfold stop_wait_for_proc_kill; by repeat case_match);
      generalize dependent (stop_wait_for_proc_kill b s1)
  end.
  intros s2 Hr Hk Hc Hnew Ht. cbn in Hr, Hk, Hc, Hnew.
  destruct (os_vmstat o) as [vs|].
  2: { exists s2, pp. split; [reflexivity|].
       repeat (split; [done|]). split; [by exists new|by left]. }
  destruct (os_meminfo o) as [mi|].
  2: { exists s2, pp. split; [reflexivity|].
       repeat (split; [done|]). split; [by exists new|by left]. }
  exfalso. destruct Hbad as [?|[?|?]]; discriminate.
Qed.

End Unreadable.

Lemma unreadable_inputs_no_kill_witness :
  let H := example_headers in
  let o := example_os 100000 None (Some (example_meminfo 100 100))
             (λ _, Some (one_zone 1000 2000 3000)) alive in
  ∃ s', mp_event_psi o (PsiLevel VMPRESS_LEVEL_CRITICAL) 1 polling_params_init
          state_two_procs = Some (s', polling_params_init) ∧
        reg s' = reg state_two_procs ∧ trace s' = trace state_two_procs.
Proof.
  intros H o.
  destruct (unreadable_inputs_no_kill o (PsiLevel VMPRESS_LEVEL_CRITICAL) 1
              polling_params_init state_two_procs (or_intror (or_introl eq_refl)))
    as (s' & pp' & Hrun & Hreg & _ & _ & _ & _ & _).
  exists s'. pose proof Hrun as Hv. vm_compute in Hv. injection Hv as <- <-.
  split; [exact Hrun|]. split; [exact Hreg|reflexivity].
Defined.

(** ** Polling while a kill is waited for *)

Section PauseResume.
Context `{HeaderConstants}.

(** The engine does not start a wait before it calls
    [find_and_kill_process]. *)
Lemma decide_wait o d events s :
  cfg (decision_state (mp_event_psi_decide o d events s)) = cfg s ∧
  (is_waiting_for_kill (decision_state (mp_event_psi_decide o d events s)) = true →
   is_waiting_for_kill s = true).
Proof.
  assert (Hstop : ∀ b s0, cfg (stop_wait_for_proc_kill b s0) = cfg s0 ∧
                    (is_waiting_for_kill (stop_wait_for_proc_kill b s0) = true →
                     is_waiting_for_kill s0 = true)).
  { intros b s0. unfold stop_wait_for_proc_kill, is_waiting_for_kill.
    destruct (last_kill_pid_or_fd (kw s0) <? 0) eqn:E; [done|].
    destruct (pidfd_supported (cfg s0)) eqn:Hp; cbn; rewrite ?Hp; cbn; by split. }
  assert (Hsuffix : ∀ r, cfg (decision_state (mp_event_psi_suffix o d events r))
                         = cfg (at_state r) ∧
                         kw (decision_state (mp_event_psi_suffix o d events r))
                         = kw (at_state r)).
  { intros r. unfold mp_event_psi_suffix.
    destruct (update_thrashing _ _ _ _ _) as [e5 thrashing].
    destruct (psi_pass 0 _ _ _ _ _) as [e6|l1 e6]; [done|].
    destruct (bool_decide _); [done|].
    destruct (first_kill e6); [|done].
    destruct (psi_pass 1 _ _ _ _ _) as [e8|l2 e8]; [done|].
    by destruct (bool_decide _). }
  unfold mp_event_psi_decide, mp_event_psi_prefix.
  destruct (os_clock o) as [curr_tm|]; [|done].
  destruct (level_lock _ _ _ _) as [e1|]; [|done].
  destruct (kill_gate _ _ _); [done|].
  match goal with
  | |- context [stop_wait_for_proc_kill ?b ?s1] =>
      destruct (Hstop b s1) as [Hc Hw];
      generalize dependent (stop_wait_for_proc_kill b s1)
  end.
  intros s2 Hc Hw. cbn in Hc. change (is_waiting_for_kill (set_eng _ _))
    with (is_waiting_for_kill s) in Hw.
  destruct (os_vmstat o) as [vs|]; [|done].
  destruct (os_meminfo o) as [mi|]; [|done].
  destruct (post_kill_reset _ _ _ _) as [cycle e3].
  destruct (reclaim_step _ _ _ _ _ _) as [[[reclaim dur] e4]|]; [|done].
  match goal with
  | |- context [mp_event_psi_suffix o d events ?r] =>
      destruct (Hsuffix r) as [Hc' Hw']; generalize dependent (mp_event_psi_suffix o d events r)
  end.
  intros dec Hc' Hw'. cbn in Hc', Hw'. split; [congruence|].
  unfold is_waiting_for_kill in *. rewrite Hc', Hw'. exact Hw.
Qed.

(** X12.  A kill that is waited for pauses the polling, and the end of
    the wait resumes it.  When the handler of a pressure level returns
    with a wait for a kill that was not there before, [call_handler]
    leaves the polling paused on that handler; the next call of the
    kill-done or the kill-failed handler ends the wait and resumes the
    polling on the handler, with the short period and a polling window
    that starts then. *)
Theorem started_kill_pauses_polling o l pp events s s1 pp1 :
  call_handler o (vmpressure_hinfo l) pp events s = Some (s1, pp1) →
  is_waiting_for_kill s = false →
  is_waiting_for_kill s1 = true →
  poll_handler pp1 = None ∧ paused_handler pp1 = Some (vmpressure_hinfo l) ∧
  ∀ o' h events', h = kill_done_hinfo ∨ h = kill_fail_hinfo →
    ∃ s2 pp2, call_handler o' h pp1 events' s1 = Some (s2, pp2) ∧
      is_waiting_for_kill s2 = false ∧
      poll_handler pp2 = Some (vmpressure_hinfo l) ∧ paused_handler pp2 = None ∧
      polling_interval_ms pp2 = PSI_POLL_PERIOD_SHORT_MS ∧
      poll_start_tm pp2 = os_clock_after o'.
Proof.
  intros Hcall Hbefore Hafter.
  assert (Hpaused : poll_handler pp1 = None ∧ paused_handler pp1 = Some (vmpressure_hinfo l)).
  { revert Hcall. unfold call_handler, run_handler, mp_event_psi.
    pose proof (decide_wait o (PsiLevel l) events s) as [_ Hw].
    destruct (mp_event_psi_decide o (PsiLevel l) events s) as [s'|s' rc sw|s' rc sw k];
      cbn [decision_state] in Hw.
    - intros Heq. exfalso.
      assert (s1 = s') as -> by (revert Heq; by repeat case_match; intros [= <- _]).
      rewrite (Hw Hafter) in Hbefore. discriminate.
    - unfold no_kill_polling.
      destruct (is_waiting_for_kill s') eqn:Hws.
      + cbn. destruct (bool_decide _); cbn; by intros [= _ <-].
      + intros Heq. exfalso.
        assert (s1 = s') as -> by (revert Heq; by repeat case_match; intros [= <- _]).
        congruence.
    - destruct (find_and_kill_process _ _ _ _) as [[pages s2]|]; [|done].
      unfold no_kill_polling.
      change (is_waiting_for_kill (set_eng _ s2)) with (is_waiting_for_kill s2).
      destruct (is_waiting_for_kill s2) eqn:Hws.
      + cbn. destruct (bool_decide _); cbn; by intros [= _ <-].
      + intros Heq. exfalso.
        assert (is_waiting_for_kill s1 = is_waiting_for_kill s2) as Hsame
          by (revert Heq; by repeat case_match; intros [= <- _]).
        congruence. }
  destruct Hpaused as [Hpoll Hpause]. split; [done|]. split; [done|].
  intros o' h events' Hh.
  assert (Hstop : ∀ b, is_waiting_for_kill (stop_wait_for_proc_kill b s1) = false).
  { intros b. unfold is_waiting_for_kill in Hafter.
    apply andb_true_iff in Hafter as [Hp Hfd].
    unfold stop_wait_for_proc_kill.
    destruct (last_kill_pid_or_fd (kw s1) <? 0) eqn:E; [lia|].
    rewrite Hp. unfold is_waiting_for_kill. cbn. by rewrite Hp. }
  destruct Hh as [-> | ->]; unfold call_handler, run_handler; cbn;
    rewrite Hpoll; cbn; eexists _, _; (split; [reflexivity|]); cbn; by rewrite Hstop.
Qed.

End PauseResume.

Lemma started_kill_pauses_polling_witness :
  let H := example_headers in
  ∃ s1 pp1 s2 pp2,
    state_kill_in_flight = Some (s1, pp1) ∧
    poll_handler pp1 = None ∧
    paused_handler pp1 = Some (vmpressure_hinfo VMPRESS_LEVEL_CRITICAL) ∧
    call_handler (os_calm 100050) kill_done_hinfo pp1 16 s1 = Some (s2, pp2) ∧
    is_waiting_for_kill s2 = false ∧
    poll_handler pp2 = Some (vmpressure_hinfo VMPRESS_LEVEL_CRITICAL) ∧
    polling_interval_ms pp2 = 10 ∧
    poll_start_tm pp2 = at_ms 100050.
Proof.
  intros H.
  destruct state_kill_in_flight as [[s1 pp1]|] eqn:Hs; [|by vm_compute in Hs].
  assert (Hafter : is_waiting_for_kill s1 = true).
  { vm_compute in Hs. injection Hs as <- <-. reflexivity. }
  assert (Hbefore : is_waiting_for_kill state_two_procs = false)
    by (vm_compute; reflexivity).
  pose proof Hs as Hcall0. unfold state_kill_in_flight in Hcall0.
  destruct (started_kill_pauses_polling (os_calm 100000) VMPRESS_LEVEL_CRITICAL
              polling_params_init 1 state_two_procs s1 pp1 Hcall0 Hbefore Hafter)
    as (Hpoll & Hpause & Hnext).
  destruct (Hnext (os_calm 100050) kill_done_hinfo 16 (or_introl eq_refl))
    as (s2 & pp2 & Hcall & Hw & Hp2 & _ & Hint & Hstart).
  exists s1, pp1, s2, pp2.
  split; [reflexivity|]. split; [exact Hpoll|]. split; [exact Hpause|].
  split; [exact Hcall|]. split; [exact Hw|]. split; [exact Hp2|].
  split; [exact Hint|exact Hstart].
Defined.

(** ** The thrashing limit *)

Section ThrashingLimit.
Context `{HeaderConstants}.



















End ThrashingLimit.


(** ** The bounds of the two index arrays *)

Section Bounds.
Context `{HeaderConstants}.

Lemma scores_in_range_sub r r' :
  procs r' ⊆ procs r → scores_in_range r → scores_in_range r'.
Proof. intros Hsub Hr a rec Ha. apply (Hr a). by eapply lookup_weaken. Qed.

Lemma scores_in_range_store a rec rec' r :
  procs r !! a = Some rec → oomadj rec' = oomadj rec →
  scores_in_range r → scores_in_range (store_proc a rec' r).
Proof.
  intros Ha Hadj Hr b rb. cbn. rewrite lookup_insert_Some.
  intros [[<- <-]|[_ Hb]]; [|by apply (Hr b)].
  rewrite Hadj. by apply (Hr a).
Qed.

Lemma memcg_score_in_range adj :
  OOM_SCORE_ADJ_MIN ≤ adj ≤ OOM_SCORE_ADJ_MAX →
  OOM_SCORE_ADJ_MIN ≤ (memcg_score_and_mult adj).1 ≤ OOM_SCORE_ADJ_MAX.
Proof.
  unfold memcg_score_and_mult, OOM_SCORE_ADJ_MIN, OOM_SCORE_ADJ_MAX.
  intros Hadj. repeat case_match; cbn; lia.
Qed.

Lemma register_record_scores o params cred score s :
  OOM_SCORE_ADJ_MIN ≤ score ≤ OOM_SCORE_ADJ_MAX →
  scores_in_range (reg s) → scores_in_range (reg (register_record o params cred score s)).
Proof.
  intros Hscore Hr. unfold register_record.
  destruct (pid_lookup (reg s) (pp_pid params)) as [[a rec]|] eqn:Hl.
  - destruct (claim_record rec (cred_pid cred)) as [ok rec1].
    destruct ok; [|done]. cbn [negb].
    intros b rb. cbn. rewrite lookup_insert_Some.
    intros [[<- <-]|[Hne Hb]]; [exact Hscore|].
    apply lookup_insert_Some in Hb as [[Heq _]|[_ Hb]]; [done|]. by apply (Hr b).
  - destruct (pidfd_supported (cfg s) && _); [done|].
    destruct (negb (os_calloc_ok o)); [done|].
    intros b rb. cbn. rewrite lookup_insert_Some.
    intros [[<- <-]|[_ Hb]]; [exact Hscore|]. by apply (Hr b).
Qed.

Lemma apply_proc_prio_scores o params cred s :
  scores_in_range (reg s) → scores_in_range (reg (apply_proc_prio o params cred s)).
Proof.
  intros Hr. unfold apply_proc_prio.
  destruct (pp_oomadj params <? OOM_SCORE_ADJ_MIN) eqn:E1; [done|].
  destruct (OOM_SCORE_ADJ_MAX <? pp_oomadj params) eqn:E2; [done|]. cbn [orb].
  destruct (_ || _); [done|].
  destruct (match os_proc_status o (pp_pid params) with Some _ => _ | None => _ end); [done|].
  destruct (negb (os_oom_score_adj_open o (pp_pid params))); [done|].
  destruct (use_inkernel_interface _); [done|].
  unfold register_oom_adj_proc.
  destruct (_ && _).
  - pose proof (memcg_score_in_range (pp_oomadj params)) as Hm.
    destruct (memcg_score_and_mult _) as [score mult]. cbn [fst] in Hm.
    destruct (os_soft_limit_path o (pp_pid params)); [|done].
    apply register_record_scores; [apply Hm; lia|done].
  - apply register_record_scores; [lia|done].
Qed.

Lemma purge_one_scores cred s a :
  scores_in_range (reg s) → scores_in_range (reg (purge_one cred s a)).
Proof.
  intros Hr. unfold purge_one.
  destruct (procs (reg s) !! a) as [rec|] eqn:Ha; [|done].
  pose proof (claim_record_keeps rec (cred_pid cred)) as (_ & Hadj & _).
  destruct (claim_record rec (cred_pid cred)) as [ok rec1].
  destruct ok; [|done]. cbn [snd] in Hadj.
  eapply scores_in_range_sub; [apply pid_remove_sub|].
  cbn. by eapply scores_in_range_store.
Qed.

Lemma run_op_scores op s s' :
  lmkd_wf s → scores_in_range (reg s) → run_op op s = Some s' → scores_in_range (reg s').
Proof.
  intros Hwf Hr. destruct op; cbn.
  - intros [= <-]. by apply apply_proc_prio_scores.
  - intros [= <-]. unfold cmd_procs_prio.
    apply (foldl_preserves (λ st, scores_in_range (reg st))); [done|].
    intros. by apply apply_proc_prio_scores.
  - intros [= <-]. unfold cmd_procremove.
    destruct (use_inkernel_interface (cfg s)); [done|].
    destruct (pid_lookup (reg s) p) as [[a rec]|] eqn:Hl; [|done].
    destruct (pid_lookup_Some _ _ _ _ Hl) as (_ & Ha & _).
    pose proof (claim_record_keeps rec (cred_pid cred)) as (_ & Hadj & _).
    destruct (claim_record rec (cred_pid cred)) as [ok rec1].
    destruct ok; [|done]. cbn [negb]. cbn [snd] in Hadj.
    eapply scores_in_range_sub; [apply pid_remove_sub|].
    cbn. by eapply scores_in_range_store.
  - intros [= <-]. unfold cmd_procpurge.
    destruct (use_inkernel_interface (cfg s)); [done|].
    apply (foldl_preserves (λ st, scores_in_range (reg st))); [done|].
    intros acc i Hacc.
    apply (foldl_preserves (λ st, scores_in_range (reg st))); [done|].
    intros. by apply purge_one_scores.
  - intros [= <-]. by rewrite (proj1 (cmd_target_tables o targets s)).
  - intros [= <-]. intros a rec. cbn. rewrite lookup_fmap_Some.
    intros (rec0 & <- & Ha). specialize (Hr a rec0 Ha). cbn in Hr.
    by destruct (decide (reg_pid rec0 = peer)).
  - intros [= <-]. unfold pid_invalidate.
    destruct (pid_lookup (reg s) p) as [[a rec]|] eqn:Hl; [|done].
    destruct (pid_lookup_Some _ _ _ _ Hl) as (_ & Ha & _).
    cbn. by eapply scores_in_range_store.
  - intros [= <-]. by rewrite (proj1 (stop_wait_tables true s)).
  - intros [= <-]. by rewrite (proj1 (stop_wait_tables false s)).
  - intros [= <-]. by rewrite (proj1 (stop_wait_tables false s)).
  - unfold mp_event_psi.
    destruct (decide_tables o d events s) as [Hr1 Hk1].
    destruct (mp_event_psi_decide o d events s) as [s1|s1 rc sw|s1 rc sw k];
      cbn in Hr1, Hk1; cbn.
    + intros [= <-]. by rewrite Hr1.
    + intros [= <-]. by rewrite Hr1.
    + destruct (find_and_kill_process _ _ _ _) as [[pages s2]|] eqn:Hf; [|done].
      cbn. intros [= <-]. cbn.
      apply find_and_kill_process_shrinks in Hf as [Hsub _]; [|by apply (lmkd_wf_tables s)].
      eapply scores_in_range_sub; [exact Hsub|]. by rewrite Hr1.
  - destruct (find_and_kill_process _ _ _ _) as [[pages s2]|] eqn:Hf; [|done].
    cbn. intros [= <-].
    apply find_and_kill_process_shrinks in Hf as [Hsub _]; [|done].
    by eapply scores_in_range_sub.
Qed.

Lemma reachable_scores c s : reachable c s → scores_in_range (reg s).
Proof.
  induction 1 as [|op s s' Hreach IH Hrun|s s' _ IH Hreg Hkc].
  - intros a rec Ha. by cbn in Ha.
  - eapply run_op_scores; [by eapply reachable_wf|done..].
  - unfold scores_in_range. by rewrite Hreg.
Qed.

(** X14.  The registry stays inside its two arrays.  In every state the
    daemon reaches, the score of a record is between -1000 and 1000,
    whatever the soft-limit ladder made of the PROCPRIO argument; so the
    score list of a record has an index in [0, 2000], inside
    [procadjslot_list], its hash chain an index in [0, 1023], inside
    [pidhash], and no list or chain outside of these ranges holds an
    element. *)
Theorem registry_within_arrays c s :
  reachable c s →
  (∀ a rec, procs (reg s) !! a = Some rec →
     OOM_SCORE_ADJ_MIN ≤ oomadj rec ≤ OOM_SCORE_ADJ_MAX ∧
     0 ≤ ADJTOSLOT (oomadj rec) < ADJTOSLOT_COUNT ∧
     0 ≤ pid_hashfn (pid rec) < PIDHASH_SZ) ∧
  (∀ slot, ¬ (0 ≤ slot < ADJTOSLOT_COUNT) → cells (procadjslot_list (reg s)) slot = []) ∧
  (∀ h, ¬ (0 ≤ h < PIDHASH_SZ) → cells (pidhash (reg s)) h = []).
Proof.
  intros Hreach.
  pose proof (reachable_wf c s Hreach) as [Hwf _].
  pose proof (reachable_scores c s Hreach) as Hscores.
  assert (Hslot : ∀ adj, OOM_SCORE_ADJ_MIN ≤ adj ≤ OOM_SCORE_ADJ_MAX →
                         0 ≤ ADJTOSLOT adj < ADJTOSLOT_COUNT).
  { unfold ADJTOSLOT_COUNT, ADJTOSLOT, OOM_SCORE_ADJ_MIN, OOM_SCORE_ADJ_MAX. lia. }
  split; [|split].
  - intros a rec Ha. pose proof (Hscores a rec Ha) as Hadj. cbn in Hadj.
    split; [done|]. split; [by apply Hslot|apply pid_hashfn_range].
  - intros slot Hout.
    destruct (cells (procadjslot_list (reg s)) slot) as [|a l] eqn:Hcells; [done|].
    exfalso. destruct (wf_slot _ Hwf slot a) as (rec & Ha & Hs).
    { rewrite Hcells. left. }
    apply Hout. rewrite <- Hs. apply Hslot. exact (Hscores a rec Ha).
  - intros h Hout.
    destruct (cells (pidhash (reg s)) h) as [|a l] eqn:Hcells; [done|].
    exfalso. destruct (wf_chain _ Hwf h a) as (rec & Ha & Hh).
    { rewrite Hcells. left. }
    apply Hout. rewrite <- Hh. apply pid_hashfn_range.
Qed.

End Bounds.

Lemma registry_within_arrays_witness :
  let H := example_headers in
  let rec := {| pid := 10; pidfd := 1010; uid := 10010; oomadj := 900;
                reg_pid := 1; valid := true |} in
  procs (reg state_two_procs) !! 1%nat = Some rec ∧
  0 ≤ ADJTOSLOT (oomadj rec) < ADJTOSLOT_COUNT ∧
  cells (procadjslot_list (reg state_two_procs)) 2001 = [] ∧
  cells (pidhash (reg state_two_procs)) (-1) = [].
Proof.
  intros H rec.
  assert (Ha : procs (reg state_two_procs) !! 1%nat = Some rec) by (vm_compute; reflexivity).
  destruct (registry_within_arrays example_tunables state_two_procs
              state_two_procs_reachable) as (Hrec & Hslots & Hchains).
  split; [exact Ha|].
  split; [exact (proj1 (proj2 (Hrec 1%nat rec Ha)))|].
  split; [apply Hslots|apply Hchains].
  - unfold ADJTOSLOT_COUNT, ADJTOSLOT, OOM_SCORE_ADJ_MAX, OOM_SCORE_ADJ_MIN. lia.
  - unfold PIDHASH_SZ. lia.
Defined.

(** ** The watchdog *)

Section Watchdog.
Context `{HeaderConstants}.
Variable kill_sync : Z → Z → Z → Z.

Lemma watchdog_scan_app c1 c2 :
  watchdog_scan kill_sync (c1 ++ c2) =
  match watchdog_scan kill_sync c1 with
  | (tr, Some t) => (tr, Some t)
  | (tr, None) => (tr ++ (watchdog_scan kill_sync c2).1, (watchdog_scan kill_sync c2).2)
  end.
Proof.
  induction c1 as [|t c1 IH]; cbn.
  - by destruct (watchdog_scan kill_sync c2).
  - destruct (valid t); [|done].
    destruct (kill_sync _ _ _ =? 0); [done|].
    rewrite IH. destruct (watchdog_scan kill_sync c1) as [tr [t'|]]; [done|].
    by destruct (watchdog_scan kill_sync c2).
Qed.

Lemma watchdog_scan_killed cands tr t :
  watchdog_scan kill_sync cands = (tr, Some t) →
  t ∈ cands ∧ valid t = true ∧ kill_sync (pidfd t) (pid t) (uid t) = 0.
Proof.
  revert tr. induction cands as [|t0 cands IH]; intros tr; cbn; [done|].
  destruct (valid t0) eqn:Hv.
  - destruct (kill_sync _ _ _ =? 0) eqn:Hk.
    + intros [= <- <-]. split; [left|]. split; [done|lia].
    + destruct (watchdog_scan kill_sync cands) as [tr' k]. intros [= <- ->].
      destruct (IH tr' eq_refl) as (? & ? & ?). split; [by right|done].
  - intros Hs. destruct (IH tr Hs) as (? & ? & ?). split; [by right|done].
Qed.

Lemma watchdog_scan_tried cands :
  Forall (λ t, t ∈ cands ∧ valid t = true ∧ kill_sync (pidfd t) (pid t) (uid t) ≠ 0)
         (watchdog_scan kill_sync cands).1.
Proof.
  induction cands as [|t0 cands IH]; cbn; [done|].
  assert (Hmono : Forall (λ t, t ∈ t0 :: cands ∧ valid t = true ∧
                               kill_sync (pidfd t) (pid t) (uid t) ≠ 0)
                         (watchdog_scan kill_sync cands).1).
  { eapply Forall_impl; [exact IH|]. intros t (? & ? & ?). split; [by right|done]. }
  destruct (valid t0) eqn:Hv; [|done].
  destruct (kill_sync _ _ _ =? 0) eqn:Hk; [done|].
  destruct (watchdog_scan kill_sync cands) as [tr k]. cbn in *.
  constructor; [|done]. split; [left|]. split; [done|lia].
Qed.

(** The walk of [proc_adj_prev] stops at the element that carries the
    pid and returns the one before it. *)
Lemma proc_adj_prev_walk_at ps back : ∀ i a rec,
  NoDup back →
  (∀ b, b ∈ back → is_Some (ps !! b)) →
  (∀ b rb, b ∈ back → ps !! b = Some rb → pid rb = pid rec → b = a) →
  back !! i = Some a → ps !! a = Some rec →
  proc_adj_prev_walk ps (pid rec) back =
    Some (Some (match back !! S i with Some b => LinkProc b | None => LinkHead end)).
Proof.
  induction back as [|a0 back IH]; intros i a rec Hnd Hall Huniq Hi Ha; [done|].
  apply NoDup_cons in Hnd as [Hnotin Hnd].
  destruct i as [|i]; cbn in Hi.
  - injection Hi as ->. cbn. rewrite Ha.
    destruct (decide (pid rec = pid rec)); [|done]. by destruct back.
  - cbn. destruct (Hall a0) as [r0 Hr0]; [left|]. rewrite Hr0.
    destruct (decide (pid r0 = pid rec)) as [Heq|Hne].
    + exfalso. apply Hnotin. assert (a0 = a) as -> by (eapply Huniq; [left|done..]).
      by eapply list_elem_of_lookup_2.
    + apply (IH i a rec); [done| | |done..].
      * intros b Hb. apply Hall. by right.
      * intros b rb Hb. apply Huniq. by right.
Qed.

(** [find_victim] continues behind the element the previous call
    returned. *)
Lemma find_victim_next r score pre rest prev :
  reg_wf r →
  (∀ a rec, procs r !! a = Some rec → pid rec ≠ 0) →
  reverse (cells (procadjslot_list r) (ADJTOSLOT score)) = pre ++ rest →
  (pre = [] ∧ prev = 0 ∨
   ∃ pre' a rec, pre = pre' ++ [a] ∧ procs r !! a = Some rec ∧ prev = pid rec) →
  find_victim r score prev =
    match rest with
    | [] => Some None
    | b :: _ => Some <$> procs r !! b
    end ∧
  match rest with [] => True | b :: _ => is_Some (procs r !! b) end.
Proof.
  intros Hwf Hpid Hback Hprev.
  assert (Hrec : ∀ b, b ∈ pre ++ rest → is_Some (procs r !! b)).
  { intros b Hb. rewrite <- Hback, elem_of_reverse in Hb.
    destruct (wf_slot _ Hwf _ _ Hb) as (rb & Hrb & _). by eexists. }
  assert (Hnd : NoDup (pre ++ rest)).
  { rewrite <- Hback, reverse_Permutation. apply (wf_slot_nodup _ Hwf). }
  split.
  2: { destruct rest as [|b rest]; [done|]. apply Hrec. rewrite elem_of_app. right. left. }
  unfold find_victim, proc_adj_tail, adjslot_tail, proc_adj_prev.
  rewrite <- head_reverse.
  remember (cells (procadjslot_list r) (ADJTOSLOT score)) as l eqn:Hl. clear Hl.
  destruct Hprev as [[-> ->]|(pre' & a & rec & -> & Ha & ->)].
  - rewrite Hback. cbn. destruct rest as [|b rest]; [done|]. cbn.
    destruct (Hrec b) as [rb Hrb]; [left|]. by rewrite Hrb.
  - rewrite (proj2 (Z.eqb_neq _ _) (Hpid a rec Ha)).
    destruct l as [|x l'].
    { exfalso. rewrite reverse_nil in Hback. by destruct pre'. }
    rewrite Hback.
    rewrite (proc_adj_prev_walk_at (procs r) ((pre' ++ [a]) ++ rest) (length pre') a rec).
    + replace (S (length pre')) with (length (pre' ++ [a]) + 0)%nat
        by (rewrite length_app; cbn; lia).
      rewrite lookup_app_r by lia.
      replace (length (pre' ++ [a]) + 0 - length (pre' ++ [a]))%nat with 0%nat by lia.
      destruct rest as [|b rest]; [done|]. cbn.
      destruct (Hrec b) as [rb Hrb]; [rewrite elem_of_app; right; left|]. by rewrite Hrb.
    + exact Hnd.
    + exact Hrec.
    + intros b rb Hb Hrb Hp. by eapply (wf_pid_unique _ Hwf).
    + rewrite <- app_assoc. cbn. by apply list_lookup_middle.
    + done.
Qed.

Lemma watchdog_loop_S fuel r score prev tried :
  watchdog_loop (S fuel) kill_sync r score prev tried =
    if score <? 0 then Some (tried, None)
    else
      match find_victim r score prev with
      | None => None
      | Some None => watchdog_loop fuel kill_sync r (score - 1) 0 tried
      | Some (Some target) =>
          if valid target then
            if kill_sync (pidfd target) (pid target) (uid target) =? 0
            then Some (tried, Some target)
            else watchdog_loop fuel kill_sync r score (pid target) (tried ++ [target])
          else watchdog_loop fuel kill_sync r score (pid target) tried
      end.
Proof. reflexivity. Qed.

(** The iterations of the loop at one score. *)
Lemma watchdog_loop_score r score :
  reg_wf r →
  (∀ a rec, procs r !! a = Some rec → pid rec ≠ 0) →
  0 ≤ score →
  ∀ rest pre prev n tried,
  reverse (cells (procadjslot_list r) (ADJTOSLOT score)) = pre ++ rest →
  (pre = [] ∧ prev = 0 ∨
   ∃ pre' a rec, pre = pre' ++ [a] ∧ procs r !! a = Some rec ∧ prev = pid rec) →
  watchdog_loop (S (length rest) + n) kill_sync r score prev tried =
    match watchdog_scan kill_sync (omap (λ a, procs r !! a) rest) with
    | (tr, Some t) => Some (tried ++ tr, Some t)
    | (tr, None) => watchdog_loop n kill_sync r (score - 1) 0 (tried ++ tr)
    end.
Proof.
  intros Hwf Hpid Hscore.
  induction rest as [|b rest IH]; intros pre prev n tried Hback Hprev.
  - change (S (length []) + n)%nat with (S n). rewrite watchdog_loop_S.
    rewrite (proj2 (Z.ltb_ge _ _) Hscore).
    rewrite (proj1 (find_victim_next r score pre [] prev Hwf Hpid Hback Hprev)).
    cbn. by rewrite app_nil_r.
  - destruct (find_victim_next r score pre (b :: rest) prev Hwf Hpid Hback Hprev)
      as [Hfind [rb Hrb]].
    change (S (length (b :: rest)) + n)%nat with (S (S (length rest) + n)).
    rewrite watchdog_loop_S.
    rewrite (proj2 (Z.ltb_ge _ _) Hscore), Hfind, Hrb.
    cbn [fmap option_fmap option_map omap list_omap].
    rewrite Hrb. cbn [watchdog_scan].
    assert (Hnext : ∀ tried',
              watchdog_loop (S (length rest) + n) kill_sync r score (pid rb) tried' =
              match watchdog_scan kill_sync (omap (λ a, procs r !! a) rest) with
              | (tr, Some t) => Some (tried' ++ tr, Some t)
              | (tr, None) => watchdog_loop n kill_sync r (score - 1) 0 (tried' ++ tr)
              end).
    { intros tried'. apply (IH (pre ++ [b])).
      - by rewrite <- app_assoc.
      - right. by exists pre, b, rb. }
    destruct (valid rb).
    + destruct (kill_sync _ _ _ =? 0); [by rewrite app_nil_r|].
      rewrite Hnext.
      destruct (watchdog_scan kill_sync _) as [tr [t|]]; by rewrite <- app_assoc.
    + by rewrite Hnext.
Qed.

(** The loop from the score [m - 1] down. *)
Lemma watchdog_loop_scores r :
  reg_wf r →
  (∀ a rec, procs r !! a = Some rec → pid rec ≠ 0) →
  ∀ m n tried,
  watchdog_loop (watchdog_steps r m + 1 + n) kill_sync r (Z.of_nat m - 1) 0 tried =
    Some (tried ++ (watchdog_scan kill_sync (candidates_below r m)).1,
          (watchdog_scan kill_sync (candidates_below r m)).2).
Proof.
  intros Hwf Hpid. induction m as [|m IH]; intros n tried.
  - change (watchdog_steps r 0 + 1 + n)%nat with (S n). rewrite watchdog_loop_S.
    cbn. by rewrite app_nil_r.
  - replace (Z.of_nat (S m) - 1) with (Z.of_nat m) by lia.
    cbn [watchdog_steps candidates_below].
    replace (S (length (cells (procadjslot_list r) (ADJTOSLOT (Z.of_nat m))))
             + watchdog_steps r m + 1 + n)%nat
      with (S (length (reverse (cells (procadjslot_list r) (ADJTOSLOT (Z.of_nat m)))))
            + (watchdog_steps r m + 1 + n))%nat
      by (rewrite length_reverse; lia).
    rewrite (watchdog_loop_score r (Z.of_nat m) Hwf Hpid (Nat2Z.is_nonneg m)
               (reverse (cells (procadjslot_list r) (ADJTOSLOT (Z.of_nat m)))) [] 0);
      [|done|by left].
    rewrite watchdog_scan_app. unfold score_candidates.
    destruct (watchdog_scan kill_sync (omap _ _)) as [tr [t|]]; [done|].
    rewrite IH. by rewrite <- app_assoc.
Qed.

Lemma candidates_below_registered r m t :
  reg_wf r → t ∈ candidates_below r m →
  (∃ a, procs r !! a = Some t) ∧ 0 ≤ oomadj t < Z.of_nat m.
Proof.
  intros Hwf. induction m as [|m IH]; cbn; [by rewrite elem_of_nil|].
  rewrite elem_of_app. intros [Hin|Hin].
  - unfold score_candidates in Hin. apply list_elem_of_omap in Hin as (a & Ha & Hrec).
    rewrite elem_of_reverse in Ha.
    destruct (wf_slot _ Hwf _ _ Ha) as (rec & Hrec' & Hslot).
    assert (rec = t) as -> by congruence.
    split; [by exists a|]. unfold ADJTOSLOT in Hslot. lia.
  - destruct (IH Hin) as [? ?]. split; [done|lia].
Qed.

(** X15.  Whom the watchdog kills.  When the watchdog fires while the main
    thread is stuck, in a state the daemon reaches where no record has
    the pid 0, [watchdog_callback] comes to an end and does what a scan
    of the records does that goes from score 1000 down to score 0 and at
    each score from the tail of the list to its head: records that were
    invalidated are passed over, the other ones are killed one after the
    other until a kill succeeds.  The record of the process killed is
    registered, valid and has a score of 0 or more; it is marked invalid
    and stays in the registry, and nothing else is changed.  No record
    with a negative score is touched. *)
Theorem watchdog_kills_first_killable c s fuel :
  reachable c s →
  (∀ a rec, procs (reg s) !! a = Some rec → pid rec ≠ 0) →
  (watchdog_steps (reg s) 1001 < fuel)%nat →
  let scan := watchdog_scan kill_sync (candidates_below (reg s) 1001) in
  watchdog_callback fuel kill_sync s =
    Some (scan.1, scan.2,
          match scan.2 with Some t => pid_invalidate (pid t) s | None => s end) ∧
  Forall (λ t, (∃ a, procs (reg s) !! a = Some t) ∧ valid t = true ∧
               0 ≤ oomadj t ≤ OOM_SCORE_ADJ_MAX ∧
               kill_sync (pidfd t) (pid t) (uid t) ≠ 0) scan.1 ∧
  match scan.2 with
  | Some t =>
      valid t = true ∧ 0 ≤ oomadj t ≤ OOM_SCORE_ADJ_MAX ∧
      kill_sync (pidfd t) (pid t) (uid t) = 0 ∧
      ∃ a, procs (reg s) !! a = Some t ∧
           pid_lookup (reg (pid_invalidate (pid t) s)) (pid t) = Some (a, set_valid false t)
  | None => True
  end.
Proof.
  intros Hreach Hpid Hfuel scan.
  pose proof (reachable_wf c s Hreach) as [Hwf Hkc].
  split; [|split].
  - unfold watchdog_callback.
    replace fuel with (watchdog_steps (reg s) 1001 + 1 + (fuel - watchdog_steps (reg s) 1001 - 1))%nat
      by lia.
    change OOM_SCORE_ADJ_MAX with (Z.of_nat 1001 - 1).
    rewrite (watchdog_loop_scores (reg s) Hwf Hpid 1001). cbn [app].
    fold scan. by destruct (scan.2).
  - eapply Forall_impl; [apply watchdog_scan_tried|].
    intros t (Hin & Hv & Hk). cbn beta.
    destruct (candidates_below_registered _ _ _ Hwf Hin) as [Hreg Hadj].
    split; [done|]. split; [done|]. split; [|done]. unfold OOM_SCORE_ADJ_MAX. lia.
  - destruct scan as [tr [t|]] eqn:Hscan; [|done]. cbn [snd].
    destruct (watchdog_scan_killed _ _ _ Hscan) as (Hin & Hv & Hk).
    destruct (candidates_below_registered _ _ _ Hwf Hin) as [[a Ha] Hadj].
    split; [done|]. split; [unfold OOM_SCORE_ADJ_MAX; lia|]. split; [done|].
    exists a. split; [done|].
    pose proof (pid_invalidate_wf (pid t) s (conj Hwf Hkc)) as [Hwf' _].
    unfold pid_invalidate in *. rewrite (reg_wf_lookup _ _ _ Hwf Ha) in *.
    apply (reg_wf_lookup _ a (set_valid false t) Hwf'). cbn. by rewrite lookup_insert_eq.
Qed.

End Watchdog.

Lemma watchdog_kills_first_killable_witness :
  let H := example_headers in
  let kill_sync := λ fd p u : Z, if p =? 30 then -1 else 0 in
  ∃ t30 t20 s',
    watchdog_callback 2000 kill_sync state_three_at_900 = Some ([t30], Some t20, s') ∧
    pid t30 = 30 ∧ pid t20 = 20 ∧
    (∃ a, pid_lookup (reg s') 20 = Some (a, set_valid false t20)) ∧
    (∃ a, pid_lookup (reg s') 30 = Some (a, t30)).
Proof.
  intros H kill_sync.
  assert (Hpid : ∀ a rec, procs (reg state_three_at_900) !! a = Some rec → pid rec ≠ 0).
  { assert (Hall : map_Forall (λ _ rec, pid rec ≠ 0) (procs (reg state_three_at_900)))
      by (apply (bool_decide_unpack _); vm_compute; reflexivity).
    exact Hall. }
  assert (Hfuel : (watchdog_steps (reg state_three_at_900) 1001 < 2000)%nat)
    by (apply Nat.ltb_lt; vm_compute; reflexivity).
  destruct (watchdog_kills_first_killable kill_sync example_tunables state_three_at_900
              2000 state_three_at_900_reachable Hpid Hfuel) as (Hrun & _ & Hkilled).
  destruct (watchdog_scan kill_sync (candidates_below (reg state_three_at_900) 1001))
    as [tr k] eqn:Hscan.
  pose proof Hscan as Hv. vm_compute in Hv. injection Hv as <- <-.
  cbn [fst snd] in Hrun, Hkilled.
  destruct Hkilled as (_ & _ & _ & a & _ & Hl).
  eexists _, _, _. split; [exact Hrun|].
  split; [reflexivity|]. split; [reflexivity|]. split; [by exists a|].
  vm_compute. by eexists.
Defined.

(** ** The tables and the property that TARGET writes *)

Section TargetTables.
Context `{HeaderConstants}.

Lemma string_app_cons c (a b : string) : String c a +:+ b = String c (a +:+ b).
Proof. reflexivity. Qed.

Lemma string_app_nil_l (b : string) : "" +:+ b = b.
Proof. reflexivity. Qed.

Lemma string_length_app (a b : string) :
  String.length (a +:+ b) = (String.length a + String.length b)%nat.
Proof.
  induction a as [|c a IH]; [done|].
  rewrite string_app_cons. cbn. by rewrite IH.
Qed.

Lemma string_app_assoc (a b c : string) : (a +:+ b) +:+ c = a +:+ (b +:+ c).
Proof.
  induction a as [|x a IH]; [done|].
  rewrite !string_app_cons. by rewrite IH.
Qed.

Lemma string_app_nil_r (a : string) : a +:+ "" = a.
Proof.
  induction a as [|x a IH]; [done|].
  rewrite string_app_cons. by rewrite IH.
Qed.

Lemma substring_whole (a : string) n :
  (String.length a ≤ n)%nat → String.substring 0 n a = a.
Proof.
  revert n. induction a as [|c a IH]; intros n Hn; cbn in *.
  - by destruct n.
  - destruct n as [|n]; [lia|]. cbn. rewrite IH; [done|lia].
Qed.

Lemma substring_prefix (a b : string) :
  String.substring 0 (String.length a) (a +:+ b) = a.
Proof.
  induction a as [|c a IH].
  - rewrite string_app_nil_l. by destruct b.
  - rewrite string_app_cons. cbn. by rewrite IH.
Qed.

Lemma target_pieces_levels targets :
  targets ≠ [] → target_pieces targets = minfree_levels targets +:+ ",".
Proof.
  induction targets as [|t targets IH]; [done|]. intros _.
  unfold target_pieces, minfree_levels in *. cbn [foldr fmap list_fmap].
  destruct targets as [|t' targets].
  - cbn [foldr String.concat fmap list_fmap]. unfold target_piece.
    by rewrite string_app_nil_r, !string_app_assoc.
  - rewrite IH by done. cbn [String.concat fmap list_fmap].
    unfold target_piece. by rewrite !string_app_assoc.
Qed.

Lemma array_set_lookup l i v j :
  0 ≤ i → (Z.to_nat i < length l)%nat →
  array_set l i v !! j = if decide (j = Z.to_nat i) then Some v else l !! j.
Proof.
  intros Hi Hlen. unfold array_set.
  destruct (i <? 0) eqn:E; [lia|].
  destruct (decide (j = Z.to_nat i)) as [->|Hne].
  - by apply list_lookup_insert_eq.
  - by apply list_lookup_insert_ne.
Qed.

Lemma array_set_length l i v : length (array_set l i v) = length l.
Proof. unfold array_set. destruct (i <? 0); [done|]. apply length_insert. Qed.

(** The loop of [cmd_target] when the buffer has room for all pieces. *)
Lemma target_loop_fits ts : ∀ i f,
  0 ≤ i → 0 ≤ tf_pstr f →
  tf_pstr f + Z.of_nat (String.length (target_pieces ts)) < PROPERTY_VALUE_MAX →
  (Z.to_nat i + length ts ≤ length (tf_minfree f))%nat →
  (Z.to_nat i + length ts ≤ length (tf_adj f))%nat →
  let f' := target_loop ts i f in
  tf_buf f' = tf_buf f +:+ target_pieces ts ∧
  tf_pstr f' = tf_pstr f + Z.of_nat (String.length (target_pieces ts)) ∧
  (∀ j, tf_minfree f' !! j =
        if decide (Z.to_nat i ≤ j < Z.to_nat i + length ts)%nat
        then fst <$> ts !! (j - Z.to_nat i)%nat else tf_minfree f !! j) ∧
  (∀ j, tf_adj f' !! j =
        if decide (Z.to_nat i ≤ j < Z.to_nat i + length ts)%nat
        then snd <$> ts !! (j - Z.to_nat i)%nat else tf_adj f !! j).
Proof.
  induction ts as [|[minfree adj] ts IH]; intros i f Hi Hpstr Hfit Hlm Hla.
  - cbn. rewrite string_app_nil_r. split; [done|]. split; [lia|].
    split; intros j; destruct (decide _); (done || lia).
  - cbn [target_loop].
    cbn [target_pieces foldr fst snd] in Hfit |- *. fold (target_pieces ts) in Hfit |- *.
    rewrite string_length_app in Hfit. cbn [length] in Hlm, Hla.
    set (piece := target_piece minfree adj) in *.
    assert (Hw : String.substring 0 (Z.to_nat (PROPERTY_VALUE_MAX - tf_pstr f - 1)) piece
                 = piece) by (apply substring_whole; lia).
    rewrite Hw.
    destruct (PROPERTY_VALUE_MAX <=? tf_pstr f + Z.of_nat (String.length piece)) eqn:E; [lia|].
    match goal with
    | |- context [target_loop ts (i + 1) ?f1] =>
        destruct (IH (i + 1) f1) as (Hbuf & Hp & Hm & Ha)
    end.
    + lia.
    + cbn. lia.
    + cbn. lia.
    + cbn. rewrite array_set_length. lia.
    + cbn. rewrite array_set_length. lia.
    + cbn [tf_buf tf_pstr tf_minfree tf_adj] in Hbuf, Hp, Hm, Ha.
      split; [by rewrite Hbuf, string_app_assoc|].
      split; [rewrite Hp, string_length_app; lia|].
      replace (Z.to_nat (i + 1)) with (S (Z.to_nat i)) in Hm, Ha by lia.
      split; intros j; cbn [length].
      * rewrite Hm.
        destruct (decide (S (Z.to_nat i) ≤ j < S (Z.to_nat i) + length ts)%nat).
        -- destruct (decide (Z.to_nat i ≤ j < Z.to_nat i + S (length ts))%nat); [|lia].
           replace (j - Z.to_nat i)%nat with (S (j - S (Z.to_nat i))) by lia. reflexivity.
        -- rewrite array_set_lookup by lia.
           destruct (decide (j = Z.to_nat i)) as [->|Hne].
           ++ destruct (decide (Z.to_nat i ≤ Z.to_nat i < Z.to_nat i + S (length ts))%nat);
                [|lia].
              by rewrite Nat.sub_diag.
           ++ destruct (decide (Z.to_nat i ≤ j < Z.to_nat i + S (length ts))%nat); [lia|done].
      * rewrite Ha.
        destruct (decide (S (Z.to_nat i) ≤ j < S (Z.to_nat i) + length ts)%nat).
        -- destruct (decide (Z.to_nat i ≤ j < Z.to_nat i + S (length ts))%nat); [|lia].
           replace (j - Z.to_nat i)%nat with (S (j - S (Z.to_nat i))) by lia. reflexivity.
        -- rewrite array_set_lookup by lia.
           destruct (decide (j = Z.to_nat i)) as [->|Hne].
           ++ destruct (decide (Z.to_nat i ≤ Z.to_nat i < Z.to_nat i + S (length ts))%nat);
                [|lia].
              by rewrite Nat.sub_diag.
           ++ destruct (decide (Z.to_nat i ≤ j < Z.to_nat i + S (length ts))%nat); [lia|done].
Qed.

(** X16.  What an accepted TARGET stores and publishes.  For a TARGET with
    1 to MAX_TARGETS levels that comes at least 1000 ms after the last
    accepted one and whose levels, printed as minfree:adj pairs with a
    comma behind each, take less than PROPERTY_VALUE_MAX characters: the
    first entries of the two tables are the levels of the command in
    their order, the entries behind them keep their values, the number
    of targets is the number of levels, and the property
    sys.lmk.minfree_levels is set to the pairs separated by commas, with
    no comma at the end. *)
Theorem target_tables_stored o targets s curr_tm :
  (1 ≤ length targets)%nat → Z.of_nat (length targets) ≤ MAX_TARGETS →
  os_clock o = Some curr_tm →
  TARGET_UPDATE_MIN_INTERVAL_MS ≤ get_time_diff_ms (last_req_tm (tgt s)) curr_tm →
  length (lowmem_minfree (tgt s)) = Z.to_nat MAX_TARGETS →
  length (lowmem_adj (tgt s)) = Z.to_nat MAX_TARGETS →
  Z.of_nat (String.length (target_pieces targets)) < PROPERTY_VALUE_MAX →
  let s' := cmd_target o targets s in
  (∀ j minfree adj, targets !! j = Some (minfree, adj) →
     lowmem_minfree (tgt s') !! j = Some minfree ∧ lowmem_adj (tgt s') !! j = Some adj) ∧
  (∀ j, (length targets ≤ j)%nat →
     lowmem_minfree (tgt s') !! j = lowmem_minfree (tgt s) !! j ∧
     lowmem_adj (tgt s') !! j = lowmem_adj (tgt s) !! j) ∧
  lowmem_targets_size (tgt s') = Z.of_nat (length targets) ∧
  last_req_tm (tgt s') = curr_tm ∧
  EvPropertySet "sys.lmk.minfree_levels" (minfree_levels targets) ∈ trace s'.
Proof.
  intros Hn1 Hn2 Hclock Hrate Hlm Hla Hfit s'.
  assert (Hne : targets ≠ []) by (destruct targets; [cbn in Hn1; lia|done]).
  destruct (target_loop_fits targets 0
              {| tf_minfree := lowmem_minfree (tgt s); tf_adj := lowmem_adj (tgt s);
                 tf_buf := ""; tf_pstr := 0 |})
    as (Hbuf & Hp & Hm & Ha); [lia|cbn; lia|cbn; lia|cbn; lia|cbn; lia|].
  cbn [tf_buf tf_pstr tf_minfree tf_adj] in Hbuf, Hp, Hm, Ha.
  change (Z.to_nat 0) with 0%nat in Hm, Ha.
  assert (Hs' : tgt s' = {| lowmem_adj := tf_adj (target_loop targets 0
                               {| tf_minfree := lowmem_minfree (tgt s);
                                  tf_adj := lowmem_adj (tgt s); tf_buf := ""; tf_pstr := 0 |});
                            lowmem_minfree := tf_minfree (target_loop targets 0
                               {| tf_minfree := lowmem_minfree (tgt s);
                                  tf_adj := lowmem_adj (tgt s); tf_buf := ""; tf_pstr := 0 |});
                            lowmem_targets_size := Z.of_nat (length targets);
                            last_req_tm := curr_tm |} ∧
                EvPropertySet "sys.lmk.minfree_levels" (minfree_levels targets) ∈ trace s').
  { subst s'. unfold cmd_target. rewrite Hclock.
    destruct (_ || _) eqn:E; [lia|].
    destruct (_ <? TARGET_UPDATE_MIN_INTERVAL_MS) eqn:E2; [lia|].
    cbv zeta. rewrite Hbuf, Hp, string_app_nil_l.
    rewrite (target_pieces_levels targets Hne), string_length_app.
    replace (Z.to_nat (0 + Z.of_nat (String.length (minfree_levels targets)
                                     + String.length ",") - 1))
      with (String.length (minfree_levels targets)) by (cbn; lia).
    rewrite substring_prefix.
    destruct (has_inkernel_module _); cbn; (split; [done|]).
    - right. right. left.
    - left. }
  destruct Hs' as [Htgt Hev]. rewrite Htgt. cbn [lowmem_adj lowmem_minfree lowmem_targets_size
    last_req_tm].
  split; [|split; [|done]].
  - intros j minfree adj Hj. rewrite Hm, Ha.
    pose proof (lookup_lt_Some _ _ _ Hj) as Hlt.
    destruct (decide (0 ≤ j < 0 + length targets)%nat); [|lia].
    rewrite Nat.sub_0_r, Hj. done.
  - intros j Hj. rewrite Hm, Ha.
    destruct (decide (0 ≤ j < 0 + length targets)%nat); [lia|done].
Qed.

End TargetTables.

Lemma target_tables_stored_witness :
  let H := example_headers in
  let s' := cmd_target (os_calm 100000) [(18432, 0); (23040, 100); (27648, 900)]
              state_two_procs in
  lowmem_minfree (tgt s') = [18432; 23040; 27648; 0; 0; 0] ∧
  lowmem_adj (tgt s') = [0; 100; 900; 0; 0; 0] ∧
  lowmem_targets_size (tgt s') = 3 ∧
  EvPropertySet "sys.lmk.minfree_levels" "18432:0,23040:100,27648:900" ∈ trace s'.
Proof.
  intros H s'.
  destruct (target_tables_stored (os_calm 100000) [(18432, 0); (23040, 100); (27648, 900)]
              state_two_procs (at_ms 100000)) as (_ & _ & Hsize & _ & Hev).
  - cbn. lia.
  - cbn. lia.
  - reflexivity.
  - vm_compute. discriminate.
  - reflexivity.
  - reflexivity.
  - vm_compute. reflexivity.
  - split; [vm_compute; reflexivity|]. split; [vm_compute; reflexivity|].
    split; [exact Hsize|exact Hev].
Defined.

(** ** The scores the engine kills at *)

Section SparesNegative.
Context `{HeaderConstants}.

Lemma classify_score_nonneg c x level w reason0 score0 cut0 e :
  0 ≤ score0 → 0 ≤ pressure_after_kill_min_score c →
  0 ≤ (classify c x level w reason0 score0 cut0 e).1.1.2.
Proof.
  intros H0 Hp. unfold classify, PERCEPTIBLE_APP_ADJ.
  repeat case_match; cbn; lia.
Qed.

Lemma psi_pass_score n o c x l e :
  0 ≤ min_score_adj l →
  0 ≤ pressure_after_kill_min_score c → 0 ≤ lowmem_min_oom_score c →
  match psi_pass n o c x l e with
  | PassReturn _ => True
  | PassDone l' _ => 0 ≤ min_score_adj l'
  end.
Proof.
  intros H0 Hp Hl. unfold psi_pass.
  destruct (_ || _).
  - destruct (os_zoneinfo o n) as [zi|]; [|done].
    destruct (in_data x) as [level|reason score].
    + pose proof (classify_score_nonneg c x level
                    (get_lowest_watermark (in_mi x)
                       (watermarks (with_watermarks (calc_zone_watermarks zi) (in_curr_tm x) e)))
                    (kill_reason l) (min_score_adj l) (cut_thrashing_limit l)
                    (with_watermarks (calc_zone_watermarks zi) (in_curr_tm x) e) H0 Hp) as Hc.
      destruct (classify _ _ _ _ _ _ _ _) as [[[reason score] cut] e2]. cbn in Hc.
      by destruct (_ && _).
    + destruct (_ || _) eqn:E; [done|]. cbn. lia.
  - destruct (in_data x) as [level|reason score].
    + pose proof (classify_score_nonneg c x level
                    (get_lowest_watermark (in_mi x) (watermarks e))
                    (kill_reason l) (min_score_adj l) (cut_thrashing_limit l) e H0 Hp) as Hc.
      destruct (classify _ _ _ _ _ _ _ _) as [[[reason score] cut] e2]. cbn in Hc.
      by destruct (_ && _).
    + destruct (_ || _) eqn:E; [done|]. cbn. lia.
Qed.

Lemma suffix_score o d events r s1 rc sw k :
  0 ≤ pressure_after_kill_min_score (cfg (at_state r)) →
  0 ≤ lowmem_min_oom_score (cfg (at_state r)) →
  mp_event_psi_suffix o d events r = PsiKill s1 rc sw k →
  0 ≤ kd_min_score_adj k ∧ trace s1 = trace (at_state r) ∧ reg s1 = reg (at_state r) ∧
  kc s1 = kc (at_state r).
Proof.
  intros Hp Hl. unfold mp_event_psi_suffix.
  destruct (update_thrashing _ _ _ _ _) as [e5 thrashing].
  match goal with
  | |- context [psi_pass 0%nat o ?c ?x ?l e5] =>
      pose proof (psi_pass_score 0 o c x l e5 (Z.le_refl 0) Hp Hl) as H1;
      destruct (psi_pass 0%nat o c x l e5) as [e6|l1 e6]; [done|]
  end.
  destruct (bool_decide _); [done|].
  destruct (first_kill e6).
  - match goal with
    | |- context [psi_pass 1%nat o ?c ?x l1 ?e7] =>
        pose proof (psi_pass_score 1 o c x l1 e7 H1 Hp Hl) as H2;
        destruct (psi_pass 1%nat o c x l1 e7) as [e8|l2 e8]; [done|]
    end.
    destruct (bool_decide _); [done|].
    unfold decide_kill. intros [= <- _ _ <-]. cbn.
    split; [by destruct (critical_stall l2)|done].
  - unfold decide_kill. intros [= <- _ _ <-]. cbn.
    split; [by destruct (critical_stall l1)|done].
Qed.

Lemma prefix_trace o d events s :
  match mp_event_psi_prefix o d events s with
  | PrefixDone dec =>
      ∃ new, trace (decision_state dec) = new ++ trace s ∧
             Forall (λ ev, is_wait_event ev = true) new
  | PrefixReached r =>
      ∃ new, trace (at_state r) = new ++ trace s ∧
             Forall (λ ev, is_wait_event ev = true) new
  end.
Proof.
  unfold mp_event_psi_prefix.
  destruct (os_clock o) as [curr_tm|]; [|by exists []].
  destruct (level_lock _ _ _ _) as [e1|]; [|by exists []].
  destruct (kill_gate _ _ _); [by exists []|].
  match goal with
  | |- context [stop_wait_for_proc_kill ?b ?s1] =>
      destruct (stop_wait_trace b s1) as (new & Hnew & Hall);
      generalize dependent (stop_wait_for_proc_kill b s1)
  end.
  intros s2 Hnew. cbn in Hnew.
  destruct (os_vmstat o) as [vs|]; [|by exists new].
  destruct (os_meminfo o) as [mi|]; [|by exists new].
  destruct (post_kill_reset _ _ _ _) as [cycle e3].
  destruct (reclaim_step _ _ _ _ _ _) as [[[reclaim dur] e4]|]; by exists new.
Qed.

(** X17.  The engine leaves the processes with a negative score alone.
    With a pressure_after_kill_min_score and a lowmem_min_oom_score that
    are not negative, in a state the daemon reaches, every [reaper.kill]
    that the handling of a PSI or vendor event issues is for a record of
    the registry that is valid and has a score between 0 and 1000,
    whatever the kill reason, the watermarks and the stall: the system
    and persistent processes, registered below 0, are never its
    victims. *)
Theorem engine_spares_negative_scores c o d events pp s s' pp' :
  reachable c s →
  0 ≤ pressure_after_kill_min_score (cfg s) →
  0 ≤ lowmem_min_oom_score (cfg s) →
  mp_event_psi o d events pp s = Some (s', pp') →
  ∃ new, trace s' = new ++ trace s ∧
    ∀ fd p u, EvReaperKill fd p u ∈ new →
      ∃ a rec, pid_lookup (reg s) p = Some (a, rec) ∧ pidfd rec = fd ∧ uid rec = u ∧
               valid rec = true ∧ 0 ≤ oomadj rec ≤ OOM_SCORE_ADJ_MAX.
Proof.
  intros Hreach Hp Hl.
  pose proof (reachable_wf c s Hreach) as Hwf.
  unfold mp_event_psi, mp_event_psi_decide.
  pose proof (prefix_trace o d events s) as Htr.
  pose proof (prefix_tables o d events s) as Htab.
  pose proof (prefix_reached_cfg o d events s) as Hcfg.
  assert (Hquiet : ∀ new, Forall (λ ev, is_wait_event ev = true) new →
            ∀ fd p u, EvReaperKill fd p u ∈ new → False).
  { intros new Hall fd p u Hin. rewrite Forall_forall in Hall.
    by specialize (Hall _ Hin). }
  destruct (mp_event_psi_prefix o d events s) as [dec|r].
  - destruct Htr as (new & Hnew & Hall). destruct Htab as (_ & _ & Hnk).
    destruct dec as [s1|s1 rc sw|s1 rc sw k]; cbn in Hnew.
    + intros [= <- _]. exists new. split; [done|].
      intros fd p u Hin. by destruct (Hquiet new Hall fd p u Hin).
    + intros [= <- _]. exists new. split; [done|].
      intros fd p u Hin. by destruct (Hquiet new Hall fd p u Hin).
    + by destruct (Hnk s1 rc sw k).
  - destruct Htr as (new & Hnew & Hall). destruct Htab as [Hr Hk].
    specialize (Hcfg r eq_refl).
    pose proof (suffix_tables o d events r) as [Hr2 Hk2].
    assert (Htrace : trace (decision_state (mp_event_psi_suffix o d events r))
                     = trace (at_state r)).
    { unfold mp_event_psi_suffix.
      destruct (update_thrashing _ _ _ _ _) as [e5 thrashing].
      destruct (psi_pass 0 _ _ _ _ _) as [e6|l1 e6]; [done|].
      destruct (bool_decide _); [done|].
      destruct (first_kill e6); [|done].
      destruct (psi_pass 1 _ _ _ _ _) as [e8|l2 e8]; [done|].
      by destruct (bool_decide _). }
    destruct (mp_event_psi_suffix o d events r) as [s1|s1 rc sw|s1 rc sw k] eqn:Hsuf;
      cbn in Htrace, Hr2, Hk2.
    + intros [= <- _]. exists new. split; [congruence|].
      intros fd p u Hin. by destruct (Hquiet new Hall fd p u Hin).
    + intros [= <- _]. exists new. split; [congruence|].
      intros fd p u Hin. by destruct (Hquiet new Hall fd p u Hin).
    + destruct (suffix_score o d events r s1 rc sw k) as (Hmin & _); [by rewrite Hcfg..|done|].
      destruct (find_and_kill_process _ _ _ _) as [[pages s2]|] eqn:Hf; [|done].
      intros [= <- _]. cbn [trace set_eng].
      assert (Hwf1 : lmkd_wf s1) by (apply (lmkd_wf_tables s); [congruence..|done]).
      destruct (find_and_kill_process_signals _ _ _ _ _ _ Hwf1 Hf) as (_ & new2 & Hnew2 & Hsig).
      exists (new2 ++ new). split; [rewrite Hnew2, Htrace, Hnew; by rewrite app_assoc|].
      intros fd p u Hin. apply elem_of_app in Hin as [Hin|Hin];
        [|by destruct (Hquiet new Hall fd p u Hin)].
      destruct (Hsig fd p u Hin) as (a & rec & Ha & <- & <- & <- & Hatt & Hadj).
      destruct (kill_attempted_facts o rec Hatt) as (Hvalid & _).
      assert (Ha0 : procs (reg s) !! a = Some rec) by congruence.
      exists a, rec. split; [by apply reg_wf_lookup; [apply Hwf|]|].
      repeat (split; [done|]). lia.
Qed.

End SparesNegative.

Lemma engine_spares_negative_scores_witness :
  let H := example_headers in
  let s := cmd_procprio (os_calm 99000) (example_procprio 40 (-800)) example_cred
             (lmkd_init example_tunables) in
  ∃ s' pp', mp_event_psi (os_tight) (PsiLevel VMPRESS_LEVEL_CRITICAL) 1
              polling_params_init s = Some (s', pp') ∧
            is_Some (pid_lookup (reg s') 40) ∧
            ∃ new, trace s' = new ++ trace s ∧ ∀ fd u, EvReaperKill fd 40 u ∉ new.
Proof.
  intros H s.
  assert (Hreach : reachable example_tunables s).
  { eapply (reachable_step _ (OpProcPrio (os_calm 99000) (example_procprio 40 (-800))
                                example_cred)); [apply reachable_init|reflexivity]. }
  destruct (mp_event_psi os_tight (PsiLevel VMPRESS_LEVEL_CRITICAL) 1 polling_params_init s)
    as [[s' pp']|] eqn:Hrun; [|exfalso; vm_compute in Hrun; discriminate].
  assert (Hp : 0 ≤ pressure_after_kill_min_score (cfg s)) by (vm_compute; discriminate).
  assert (Hl : 0 ≤ lowmem_min_oom_score (cfg s)) by (vm_compute; discriminate).
  destruct (engine_spares_negative_scores example_tunables os_tight
              (PsiLevel VMPRESS_LEVEL_CRITICAL) 1 polling_params_init s s' pp'
              Hreach Hp Hl Hrun) as (new & Hnew & Hsig).
  exists s', pp'. split; [reflexivity|].
  pose proof Hrun as Hv. vm_compute in Hv. injection Hv as <- <-.
  split; [vm_compute; by eexists|].
  exists new. split; [exact Hnew|].
  intros fd u Hin.
  destruct (Hsig fd 40 u Hin) as (a & rec & Hlook & _ & _ & _ & Hadj).
  vm_compute in Hlook. injection Hlook as <- <-. cbn in Hadj. lia.
Defined.

(** ** Swap utilization *)

Section Swap.

Lemma get_free_swap_le c mi : get_free_swap c mi ≤ mi_free_swap mi.
Proof. unfold get_free_swap. destruct (negb _); lia. Qed.

(** X18.  The swap utilization is a percentage.  For a meminfo snapshot
    whose free swap is not above the total swap and whose anonymous and
    shmem page counts are not negative, [calc_swap_utilization] is
    between 0 and 100, whatever the compression ratio and the easily
    available memory; it is 0 exactly when less than one percent of the
    swappable memory is in swap or nothing is swappable, and the free
    swap it is computed from is never more than the free swap of the
    snapshot. *)
Theorem swap_utilization_percent c mi :
  mi_free_swap mi ≤ mi_total_swap mi →
  0 ≤ mi_active_anon mi → 0 ≤ mi_inactive_anon mi → 0 ≤ mi_shmem mi →
  let used := mi_total_swap mi - get_free_swap c mi in
  let swappable := mi_active_anon mi + mi_inactive_anon mi + mi_shmem mi + used in
  get_free_swap c mi ≤ mi_free_swap mi ∧
  0 ≤ calc_swap_utilization c mi ≤ 100 ∧
  (calc_swap_utilization c mi = 0 ↔ used * 100 < swappable ∨ swappable = 0) ∧
  (0 < swappable →
   calc_swap_utilization c mi * swappable ≤ used * 100
     < (calc_swap_utilization c mi + 1) * swappable).
Proof.
  intros Hfree Ha Hi Hs used swappable.
  pose proof (get_free_swap_le c mi) as Hle.
  assert (Hused : 0 ≤ used) by (subst used; lia).
  assert (Heq : calc_swap_utilization c mi =
                if 0 <? swappable then Z.quot (used * 100) swappable else 0) by done.
  split; [done|]. rewrite Heq.
  destruct (0 <? swappable) eqn:E.
  - assert (Hpos : 0 < swappable) by lia.
    rewrite Z.quot_div_nonneg by lia.
    pose proof (Z.div_mod (used * 100) swappable ltac:(lia)) as Hdm.
    pose proof (Z.mod_pos_bound (used * 100) swappable Hpos) as Hmod.
    assert (Hq0 : 0 ≤ (used * 100) `div` swappable) by (apply Z.div_pos; lia).
    assert (Hq100 : (used * 100) `div` swappable ≤ 100).
    { apply Z.div_le_upper_bound; [lia|]. subst swappable. lia. }
    split; [lia|]. split; [|intros _; nia].
    split.
    + intros Hz. left. rewrite Hz in Hdm. lia.
    + intros [Hlt|Hz0]; [|lia]. apply Z.div_small. lia.
  - split; [lia|]. split; [|lia].
    split; [|done]. intros _. right. subst swappable. lia.
Qed.

End Swap.

Lemma swap_utilization_percent_witness :
  let mi := example_meminfo 1500 5000 in
  get_free_swap example_tunables mi = 5000 ∧
  calc_swap_utilization example_tunables mi = 70 ∧
  0 ≤ calc_swap_utilization example_tunables mi ≤ 100.
Proof.
  intros mi.
  destruct (swap_utilization_percent example_tunables mi) as (_ & Hrange & _).
  - vm_compute. discriminate.
  - vm_compute. discriminate.
  - vm_compute. discriminate.
  - vm_compute. discriminate.
  - split; [reflexivity|]. split; [reflexivity|exact Hrange].
Defined.

(** ** The tunables that [update_props] hands to the daemon *)

Section Props.

Lemma clamp_range low high value : low ≤ high → low ≤ clamp low high value ≤ high.
Proof. unfold clamp. lia. Qed.

Lemma clamp_inside low high value : low ≤ value ≤ high → clamp low high value = value.
Proof. unfold clamp. lia. Qed.

Lemma GET_LMK_PROPERTY_typed (dc ro : string → option Z) name def lo hi :
  (∀ n v, dc n = Some v → lo ≤ v < hi) → (∀ n v, ro n = Some v → lo ≤ v < hi) →
  lo ≤ def < hi → lo ≤ GET_LMK_PROPERTY dc ro name def < hi.
Proof.
  intros Hdc Hro Hdef. unfold GET_LMK_PROPERTY.
  destruct (dc name) as [v|] eqn:E; cbn; [by eapply Hdc|].
  destruct (ro name) as [v|] eqn:E'; cbn; [by eapply Hro|done].
Qed.

Lemma int_of_long_ulong v :
  - 2 ^ 31 ≤ v < 2 ^ 31 → int_of_long (ulong_of_int32 v) = v.
Proof.
  intros Hv. unfold int_of_long, ulong_of_int32.
  assert (Hmod : (v mod 2 ^ 64) mod 2 ^ 32 = v mod 2 ^ 32).
  { pose proof (Z.div_mod v (2 ^ 64) ltac:(lia)) as Hdm.
    replace (v mod 2 ^ 64) with (v + (- (v `div` 2 ^ 64) * 2 ^ 32) * 2 ^ 32) by lia.
    apply Z.mod_add. lia. }
  cbv zeta. rewrite Hmod.
  destruct (decide (0 ≤ v)).
  - rewrite Z.mod_small by lia. destruct (v <? 2 ^ 31) eqn:E; lia.
  - replace (v mod 2 ^ 32) with (v + 2 ^ 32).
    + destruct (v + 2 ^ 32 <? 2 ^ 31) eqn:E; lia.
    + symmetry. rewrite <- (Z.mod_add v 1 (2 ^ 32)) by lia.
      apply Z.mod_small. lia.
Qed.

(** X19.  What [update_props] makes of the system properties.  Whatever
    the properties hold, the tunables it hands over are sanitised: the
    low-swap percentage, the thrashing decay and the swap utilization
    limit are clamped to 0..100, the thrashing limit and its critical
    level are not negative, and lowmem_min_oom_score is above the
    perceptible score 200.  A value set under
    persist.device_config.lmkd_native overrides the one under ro.lmk,
    which overrides the default.  kill_timeout_ms is the property value
    as an unsigned long, so a negative value becomes a timeout of more
    than 2^63 ms; pressure_after_kill_min_score is taken as it is, also
    when it is negative.  The call fails only by the signed overflow of
    three times the thrashing limit, for a limit of 715827883 or more. *)
Theorem update_props_sanitises p c0 :
  properties_typed p →
  let int32 := GET_LMK_PROPERTY (device_config_int32 p) (ro_lmk_int32 p) in
  (update_props p c0 = None ↔ 715827883 ≤ int32 "thrashing_limit"
       (if default false (ro_config_low_ram p) then DEF_THRASHING_LOWRAM else DEF_THRASHING)) ∧
  ∀ ok c, update_props p c0 = Some (ok, c) →
    ok = update_props_hook_ok p ∧
    0 ≤ swap_free_low_percentage c ≤ 100 ∧
    0 ≤ thrashing_limit_pct c < 715827883 ∧
    0 ≤ thrashing_limit_decay_pct c ≤ 100 ∧
    0 ≤ thrashing_critical_pct c ∧
    0 ≤ swap_util_max c ≤ 100 ∧
    PERCEPTIBLE_APP_ADJ < lowmem_min_oom_score c ∧
    pressure_after_kill_min_score c = int32 "pressure_after_kill_min_score" 0 ∧
    kill_timeout_ms c =
      (if int32 "kill_timeout_ms" 100 <? 0 then 2 ^ 64 + int32 "kill_timeout_ms" 100
       else int32 "kill_timeout_ms" 100) ∧
    (∀ v, device_config_int32 p "swap_util_max" = Some v → swap_util_max c = clamp 0 100 v) ∧
    (∀ v, device_config_int32 p "swap_util_max" = None →
          ro_lmk_int32 p "swap_util_max" = Some v → swap_util_max c = clamp 0 100 v).
Proof.
  intros (Hdc32 & Hro32 & Hdc64 & Hro64) int32.
  assert (Htyped : ∀ name def, - 2 ^ 31 ≤ def < 2 ^ 31 → - 2 ^ 31 ≤ int32 name def < 2 ^ 31).
  { intros name def Hdef. by apply GET_LMK_PROPERTY_typed. }
  unfold update_props. fold int32.
  set (limit := Z.max 0 (int32 "thrashing_limit"
                 (if default false (ro_config_low_ram p)
                  then DEF_THRASHING_LOWRAM else DEF_THRASHING))).
  split.
  - destruct (2 ^ 31 <=? limit * 3) eqn:E.
    + split; [intros _|done]. subst limit. lia.
    + split; [done|]. intros Hbig. exfalso. subst limit. lia.
  - intros ok c. destruct (2 ^ 31 <=? limit * 3) eqn:E; [done|].
    intros [= <- <-]. cbn.
    split; [done|]. split; [apply clamp_range; lia|].
    split; [subst limit; lia|]. split; [apply clamp_range; lia|].
    split; [lia|]. split; [apply clamp_range; lia|].
    split; [unfold PERCEPTIBLE_APP_ADJ; lia|].
    split; [apply int_of_long_ulong, Htyped; lia|].
    split.
    + pose proof (Htyped "kill_timeout_ms" 100 ltac:(lia)) as Hk.
      unfold ulong_of_int32.
      destruct (int32 "kill_timeout_ms" 100 <? 0) eqn:Ek.
      * rewrite <- (Z.mod_add _ 1 (2 ^ 64)) by lia. rewrite Z.mod_small; lia.
      * rewrite Z.mod_small; lia.
    + split.
      * intros v Hv. subst int32. unfold GET_LMK_PROPERTY. by rewrite Hv.
      * intros v Hnone Hv. subst int32. unfold GET_LMK_PROPERTY. by rewrite Hnone, Hv.
Qed.

End Props.

Lemma update_props_sanitises_witness :
  let p := {| device_config_int32 := λ name, if String.eqb name "swap_util_max"
                                             then Some 250 else None;
              ro_lmk_int32 := λ name, if String.eqb name "swap_util_max" then Some 90
                                      else if String.eqb name "kill_timeout_ms" then Some (-1)
                                      else None;
              device_config_int64 := λ _, None; ro_lmk_int64 := λ _, None;
              device_config_bool := λ _, None; ro_lmk_bool := λ _, None;
              ro_config_low_ram := None; ro_config_per_app_memcg := None;
              update_props_hook_ok := true |} in
  update_props no_properties example_tunables = Some (true, example_tunables) ∧
  ∃ c, update_props p example_tunables = Some (true, c) ∧
       swap_util_max c = 100 ∧ kill_timeout_ms c = 2 ^ 64 - 1 ∧
       lowmem_min_oom_score c = 701.
Proof.
  intros p.
  assert (Htyped : properties_typed p).
  { split; [|split; [|split]]; intros name v; cbn; repeat case_match; intros [= <-]; lia. }
  split; [vm_compute; reflexivity|].
  destruct (update_props p example_tunables) as [[ok c]|] eqn:Hrun;
    [|exfalso; vm_compute in Hrun; discriminate].
  destruct (proj2 (update_props_sanitises p example_tunables Htyped) ok c Hrun)
    as (Hok & _ & _ & _ & _ & _ & _ & _ & Htimeout & Hdc & _).
  exists c. rewrite Hok. split; [reflexivity|].
  split; [exact (Hdc 250 eq_refl)|]. split; [exact Htimeout|].
  vm_compute in Hrun. by injection Hrun as _ <-.
Defined.

(** ** A new data connection *)

Section Connect.

Lemma release_claims_nil rec : release_claims [] rec = rec.
Proof. unfold release_claims. rewrite bool_decide_eq_false_2; [done|]. apply not_elem_of_nil. Qed.

Lemma release_claims_snoc peers p rec :
  (if decide (reg_pid (release_claims peers rec) = p)
   then set_reg_pid 0 (release_claims peers rec) else release_claims peers rec)
  = release_claims (peers ++ [p]) rec.
Proof.
  unfold release_claims.
  destruct (bool_decide (reg_pid rec ∈ peers)) eqn:Hin.
  - apply bool_decide_eq_true in Hin.
    rewrite (bool_decide_eq_true_2 (reg_pid rec ∈ peers ++ [p]))
      by (rewrite elem_of_app; by left).
    by destruct (decide _).
  - apply bool_decide_eq_false in Hin.
    destruct (decide (reg_pid rec = p)) as [Heq|Hne].
    + rewrite bool_decide_eq_true_2; [done|].
      rewrite elem_of_app, list_elem_of_singleton. by right.
    + rewrite bool_decide_eq_false_2; [done|].
      rewrite elem_of_app, list_elem_of_singleton. tauto.
Qed.

Lemma remove_claims_release peers p s0 s :
  (∀ a, procs (reg s) !! a = release_claims peers <$> procs (reg s0) !! a) →
  ∀ a, procs (reg (remove_claims p s)) !! a
       = release_claims (peers ++ [p]) <$> procs (reg s0) !! a.
Proof.
  intros Hs a. cbn. rewrite lookup_fmap, Hs.
  destruct (procs (reg s0) !! a) as [rec|]; [|done]. cbn.
  f_equal. apply release_claims_snoc.
Qed.

Lemma get_free_dsock_from_spec ds : ∀ i,
  match get_free_dsock_from i ds with
  | idx =>
      (idx = -1 ∧ Forall (λ d, 0 ≤ sock d) ds) ∨
      (∃ n d, idx = i + Z.of_nat n ∧ ds !! n = Some d ∧ sock d < 0 ∧
              Forall (λ d', 0 ≤ sock d') (take n ds))
  end.
Proof.
  induction ds as [|d ds IH]; intros i; cbn.
  - by left.
  - destruct (sock d <? 0) eqn:E.
    + right. exists 0%nat, d. cbn. repeat split; [lia|lia|done].
    + destruct (IH (i + 1)) as [[Hidx Hall]|(n & d' & Hidx & Hd & Hneg & Hall)].
      * left. split; [done|]. constructor; [lia|done].
      * right. exists (S n), d'. cbn. repeat split; [lia|done|done|].
        constructor; [lia|done].
Qed.

Lemma ctrl_data_close_at idx cs s d :
  0 ≤ idx → data_sock cs !! Z.to_nat idx = Some d →
  ctrl_data_close idx (cs, s) =
    Some ({| data_sock := <[Z.to_nat idx := set_sock (-1) d]> (data_sock cs);
             maxevents := maxevents cs - 1 |},
          remove_claims (sock_pid d) (emit (EvClose (sock d)) (emit (EvEpollDel (sock d)) s))).
Proof.
  intros Hidx Hd. unfold ctrl_data_close.
  replace (idx <? 0) with false by lia. by rewrite Hd.
Qed.

Lemma connect_free_slot cs s accepted n d :
  0 ≤ accepted →
  data_sock cs !! n = Some d → sock d < 0 →
  Forall (λ d', 0 ≤ sock d') (take n (data_sock cs)) →
  ctrl_connect_handler accepted true (cs, s) =
    Some ({| data_sock := <[n := {| sock := accepted; sock_pid := sock_pid d;
                                    async_event_mask := 0 |}]> (data_sock cs);
             maxevents := maxevents cs + 1 |},
          emit (EvEpollAdd accepted) s).
Proof.
  intros Hacc Hn Hneg Hopen.
    unfold ctrl_connect_handler, get_free_dsock. cbn [fst].
  destruct (get_free_dsock_from_spec (data_sock cs) 0)
    as [[Hidx Hall]|(n' & d' & Hidx & Hd' & Hneg' & Hopen')].
  { exfalso. rewrite Forall_forall in Hall.
    pose proof (Hall d (list_elem_of_lookup_2 _ _ _ Hn)). lia. }
  assert (n' = n) as ->.
  { destruct (Nat.lt_trichotomy n' n) as [Hlt|[Heq|Hgt]]; [|done|]; exfalso.
    - rewrite Forall_forall in Hopen.
      assert (Hin : d' ∈ take n (data_sock cs)).
      { apply (list_elem_of_lookup_2 _ n'). by rewrite lookup_take_lt. }
      pose proof (Hopen d' Hin). lia.
    - rewrite Forall_forall in Hopen'.
      assert (Hin : d ∈ take n' (data_sock cs)).
      { apply (list_elem_of_lookup_2 _ n). by rewrite lookup_take_lt. }
      pose proof (Hopen' d Hin). lia. }
  assert (d' = d) as -> by congruence.
  rewrite Hidx. replace (0 + Z.of_nat n <? 0) with false by lia.
  cbn [fst snd]. replace (Z.to_nat (0 + Z.of_nat n)) with n by lia.
  rewrite Hn. replace (accepted <? 0) with false by lia. done.
Qed.

Lemma drop_all_connections cs s d0 d1 d2 :
  data_sock cs = [d0; d1; d2] →
  foldl (λ acc i, acc ≫= ctrl_data_close i) (Some (cs, s)) (seqZ 0 MAX_DATA_CONN) =
    Some ({| data_sock := [set_sock (-1) d0; set_sock (-1) d1; set_sock (-1) d2];
             maxevents := maxevents cs - 1 - 1 - 1 |},
          remove_claims (sock_pid d2) (emit (EvClose (sock d2)) (emit (EvEpollDel (sock d2))
            (remove_claims (sock_pid d1) (emit (EvClose (sock d1))
               (emit (EvEpollDel (sock d1))
                  (remove_claims (sock_pid d0) (emit (EvClose (sock d0))
                     (emit (EvEpollDel (sock d0)) s))))))))).
Proof.
  intros Hds.
  change (seqZ 0 MAX_DATA_CONN) with [0; 1; 2]. cbn [foldl mbind option_bind].
  rewrite (ctrl_data_close_at 0 cs s d0) by (rewrite ?Hds; done).
  cbn [mbind option_bind].
  rewrite (ctrl_data_close_at 1 _ _ d1) by (rewrite ?Hds; done).
  cbn [mbind option_bind].
  rewrite (ctrl_data_close_at 2 _ _ d2) by (rewrite ?Hds; done).
  rewrite Hds. reflexivity.
Qed.

Lemma emit_reg ev s : reg (emit ev s) = reg s.
Proof. done. Qed.

Lemma emit_trace ev s : trace (emit ev s) = ev :: trace s.
Proof. done. Qed.

Lemma remove_claims_frame p s :
  pidhash (reg (remove_claims p s)) = pidhash (reg s) ∧
  procadjslot_list (reg (remove_claims p s)) = procadjslot_list (reg s) ∧
  trace (remove_claims p s) = trace s.
Proof. done. Qed.

Lemma connect_full_table cs s accepted d0 d1 d2 :
  0 ≤ accepted →
  data_sock cs = [d0; d1; d2] → 0 ≤ sock d0 → 0 ≤ sock d1 → 0 ≤ sock d2 →
  ∃ s', ctrl_connect_handler accepted true (cs, s) =
          Some ({| data_sock := [{| sock := accepted; sock_pid := sock_pid d0;
                                    async_event_mask := 0 |};
                                 set_sock (-1) d1; set_sock (-1) d2];
                   maxevents := maxevents cs - 2 |}, s') ∧
        (∀ a, procs (reg s') !! a =
              release_claims [sock_pid d0; sock_pid d1; sock_pid d2]
                <$> procs (reg s) !! a) ∧
        pidhash (reg s') = pidhash (reg s) ∧
        procadjslot_list (reg s') = procadjslot_list (reg s) ∧
        trace s' = [EvEpollAdd accepted;
                    EvClose (sock d2); EvEpollDel (sock d2);
                    EvClose (sock d1); EvEpollDel (sock d1);
                    EvClose (sock d0); EvEpollDel (sock d0)] ++ trace s.
Proof.
  intros Hacc Hds H0 H1 H2.
  assert (Hfree : get_free_dsock cs = -1).
  { unfold get_free_dsock. rewrite Hds. cbn [get_free_dsock_from].
    replace (sock d0 <? 0) with false by lia.
    replace (sock d1 <? 0) with false by lia.
    by replace (sock d2 <? 0) with false by lia. }
  pose proof (drop_all_connections cs s d0 d1 d2 Hds) as Hdrop.
  eexists. split.
  { unfold ctrl_connect_handler. cbn [fst]. rewrite Hfree, Hdrop.
    cbn [Z.ltb Z.compare fmap option_fmap option_map].
    change (Z.to_nat 0) with 0%nat. cbn [data_sock lookup list_lookup maxevents].
    replace (accepted <? 0) with false by lia.
    cbn [list_insert insert data_sock].
    replace (maxevents cs - 1 - 1 - 1 + 1) with (maxevents cs - 2) by lia.
    reflexivity. }
  split; [|split; [|split]].
  - intros a. rewrite emit_reg. revert a.
    apply (remove_claims_release [sock_pid d0; sock_pid d1] (sock_pid d2) s).
    intros a. rewrite !emit_reg. revert a.
    apply (remove_claims_release [sock_pid d0] (sock_pid d1) s).
    intros a. rewrite !emit_reg. revert a.
    apply (remove_claims_release [] (sock_pid d0) s).
    intros a. rewrite !emit_reg. destruct (procs (reg s) !! a) as [rec|]; [|done]. cbn.
    by rewrite release_claims_nil.
  - rewrite emit_reg, (proj1 (remove_claims_frame _ _)), !emit_reg.
    rewrite (proj1 (remove_claims_frame _ _)), !emit_reg.
    by rewrite (proj1 (remove_claims_frame _ _)), !emit_reg.
  - rewrite emit_reg, (proj1 (proj2 (remove_claims_frame _ _))), !emit_reg.
    rewrite (proj1 (proj2 (remove_claims_frame _ _))), !emit_reg.
    by rewrite (proj1 (proj2 (remove_claims_frame _ _))), !emit_reg.
  - rewrite emit_trace, (proj2 (proj2 (remove_claims_frame _ _))), !emit_trace.
    rewrite (proj2 (proj2 (remove_claims_frame _ _))), !emit_trace.
    by rewrite (proj2 (proj2 (remove_claims_frame _ _))), !emit_trace.
Qed.

(** X20.  Where a new data connection goes.  With the three slots of
    [data_sock] in place, an [accept] that succeeds and a socket that
    epoll takes: when a slot is free the connection takes the first free
    one, with an empty subscription mask; the other slots, the registry
    and the claims stay as they are and [maxevents] grows by one.  When
    no slot is free the three open connections are dropped first: their
    sockets are removed from epoll and closed, every record one of the
    three peers had claimed becomes unclaimed, and the new connection
    takes slot 0, the only one open afterwards.  In both cases the slot
    keeps the peer pid of the connection that had it before, until the
    first packet is read. *)
Theorem connect_takes_free_slot_or_evicts cs s accepted :
  length (data_sock cs) = 3%nat → 0 ≤ accepted →
  let fresh d := {| sock := accepted; sock_pid := sock_pid d; async_event_mask := 0 |} in
  (∀ n d, data_sock cs !! n = Some d → sock d < 0 →
          Forall (λ d', 0 ≤ sock d') (take n (data_sock cs)) →
     ctrl_connect_handler accepted true (cs, s) =
       Some ({| data_sock := <[n := fresh d]> (data_sock cs);
                maxevents := maxevents cs + 1 |},
             emit (EvEpollAdd accepted) s)) ∧
  (∀ d0 d1 d2, data_sock cs = [d0; d1; d2] →
     0 ≤ sock d0 → 0 ≤ sock d1 → 0 ≤ sock d2 →
     ∃ s', ctrl_connect_handler accepted true (cs, s) =
             Some ({| data_sock := [fresh d0; set_sock (-1) d1; set_sock (-1) d2];
                      maxevents := maxevents cs - 2 |}, s') ∧
           (∀ a, procs (reg s') !! a =
                 release_claims [sock_pid d0; sock_pid d1; sock_pid d2]
                   <$> procs (reg s) !! a) ∧
           pidhash (reg s') = pidhash (reg s) ∧
           procadjslot_list (reg s') = procadjslot_list (reg s) ∧
           trace s' = [EvEpollAdd accepted;
                       EvClose (sock d2); EvEpollDel (sock d2);
                       EvClose (sock d1); EvEpollDel (sock d1);
                       EvClose (sock d0); EvEpollDel (sock d0)] ++ trace s).
Proof.
  intros Hlen Hacc fresh. split.
  - intros n d Hn Hneg Hopen. by apply connect_free_slot.
  - intros d0 d1 d2 Hds H0 H1 H2. by apply connect_full_table.
Qed.

End Connect.

Lemma connect_takes_free_slot_or_evicts_witness :
  let H := example_headers in
  let open fd p := {| sock := fd; sock_pid := p; async_event_mask := 1 |} in
  let cs := {| data_sock := [open 7 1; open 8 2; open 9 3]; maxevents := 6 |} in
  ∃ cs' s', ctrl_connect_handler 11 true (cs, state_two_procs) = Some (cs', s') ∧
            (sock <$> data_sock cs') = [11; -1; -1] ∧
            (async_event_mask <$> data_sock cs') = [0; 1; 1] ∧
            maxevents cs' = 4 ∧
            (reg_pid ∘ snd <$> pid_lookup (reg s') 10) = Some 0.
Proof.
  intros H open cs.
  destruct (proj2 (connect_takes_free_slot_or_evicts cs state_two_procs 11 eq_refl
                     ltac:(lia)) (open 7 1) (open 8 2) (open 9 3) eq_refl
              ltac:(cbn; lia) ltac:(cbn; lia) ltac:(cbn; lia))
    as (s' & Hrun & _).
  eexists _, s'. split; [exact Hrun|].
  split; [reflexivity|]. split; [reflexivity|]. split; [reflexivity|].
  pose proof Hrun as Hv. vm_compute in Hv. injection Hv as <-. reflexivity.
Defined.

